(** * The registry build pipeline of xcss-vendor-sources

    A shallow embedding of the build script (the JavaScript program that
    follows the contributor guide in [src/README.md]): the two tree loaders,
    [inverseNestedObject], [deepMerge], the main block that pivots the
    registry, folds the years into cumulative snapshots and fills the
    manifest, and [publishPathContent].

    Conventions of the embedding.
    - A JavaScript string is a Rocq [string]; one character stands for one
      UTF-16 code unit.
    - A parsed JSON document is a [json] tree.  A number is an integer; the
      embedding stands for the program on the integers that a double holds
      exactly and that [JSON.stringify] prints digit by digit, the safe
      integers ([safe]).  A statement about the text that [Json.stringify]
      gives for a document assumes that its numbers are safe.
    - An object is the list of its own properties in the order in which
      JavaScript enumerates them: array-index keys first, ascending, then
      the other keys in insertion order.  [Obj.set] is the assignment
      [o[k] = v] on that representation.
    - Property names are taken to differ from the members of
      [Object.prototype] ([plain_key]): on such a name the program would
      read through the prototype chain, which the embedding does not have.
      The statements about the pivots, about [deepMerge] and about the main
      block assume documents whose property names are plain ([plain]).
    - A directory is an [fsnode] tree: what the program finds when the
      listing of every directory and the reading of every file succeed.  A
      run in which the file system refuses one of these calls has no
      [fsnode] and is outside the statements about the loaders and the main
      block.
    - [deepMerge] is given on documents, as the main block uses it, and on
      a heap of cells ([Heap]), where a value stored by reference is shared;
      [OwnershipFacts.deepMerge_refines] shows that the two agree while the
      objects of the target are not shared. *)

From Stdlib Require Import ZArith NArith Bool List String Ascii Lia.
From Stdlib Require Import DecimalString DecimalN DecimalNat.
From stdpp Require Import base option list strings gmap.
Import ListNotations.
Local Set Warnings "-register-all".
Local Open Scope string_scope.
Local Open Scope list_scope.

(** ** JavaScript strings *)

Module JsString.

  (** [Number.prototype.toString] on a non-negative integer. *)
Definition dec (n : N) : string := NilEmpty.string_of_uint (N.to_uint n).

  (** [String(i)] for an array position. *)
Definition of_index (i : nat) : string := dec (N.of_nat i).

Definition is_digit (c : ascii) : bool :=
    let n := N_of_ascii c in (48 <=? n)%N && (n <=? 57)%N.

Fixpoint digits_value (s : string) (acc : N) : option N :=
    match s with
    | EmptyString => Some acc
    | String c s' =>
        if is_digit c
        then digits_value s' (10 * acc + (N_of_ascii c - 48))%N
        else None
    end.

  (** An array index in the sense of the language: the canonical decimal
      spelling of an integer in [0, 2^32 - 2]. *)
Definition array_index (k : string) : option N :=
    match digits_value k 0%N with
    | Some n => if String.eqb (dec n) k && (n <? 4294967295)%N then Some n else None
    | None => None
    end.

Fixpoint repeat_char (c : ascii) (n : nat) : string :=
    match n with
    | O => EmptyString
    | S n' => String c (repeat_char c n')
    end.

  (** [s.padStart(width, c)] for a one-character filler. *)
Definition padStart (width : nat) (c : ascii) (s : string) : string :=
    (repeat_char c (width - String.length s) ++ s)%string.

  (** [s.startsWith(p)] *)
Definition startsWith (p s : string) : bool := String.prefix p s.

  (** [s.endsWith(p)] *)
Definition endsWith (p s : string) : bool :=
    let n := String.length s in
    let m := String.length p in
    (m <=? n)%nat && String.eqb (String.substring (n - m) m s) p.

Fixpoint chars (s : string) : list string :=
    match s with
    | EmptyString => []
    | String c s' => String c EmptyString :: chars s'
    end.

End JsString.

(** ** JSON values and objects *)

Inductive json : Type :=
| JNull
| JBool (b : bool)
| JNum (n : Z)
| JStr (s : string)
| JArr (elems : list json)
| JObj (props : list (string * json)).

(** The own properties of an object, in enumeration order. *)
Abbreviation obj := (list (string * json)).

Module Obj.
Section Props.

  (** The type of the values: [json], or the values of a heap. *)
Context {A : Type}.
Implicit Type o : list (string * A).

Definition keys o : list string := map fst o.

  (** [o[k]] on own properties; [None] is [undefined]. *)
Fixpoint get (k : string) o : option A :=
    match o with
    | [] => None
    | (k', v) :: rest => if String.eqb k k' then Some v else get k rest
    end.

Definition has (k : string) o : bool :=
    match get k o with Some _ => true | None => false end.

  (** Overwrite the value of an existing property; its position stays. *)
Fixpoint update (k : string) (v : A) o : list (string * A) :=
    match o with
    | [] => []
    | (k', v') :: rest =>
        if String.eqb k k' then (k, v) :: rest else (k', v') :: update k v rest
    end.

  (** A new array-index key goes before the first key that is not a smaller
      array index. *)
Fixpoint insert_index (n : N) (k : string) (v : A) o : list (string * A) :=
    match o with
    | [] => [(k, v)]
    | (k', v') :: rest =>
        match JsString.array_index k' with
        | Some n' =>
            if (n' <? n)%N then (k', v') :: insert_index n k v rest
            else (k, v) :: o
        | None => (k, v) :: o
        end
    end.

  (** Create a property that the object does not have yet. *)
Definition insert (k : string) (v : A) o : list (string * A) :=
    match JsString.array_index k with
    | Some n => insert_index n k v o
    | None => o ++ [(k, v)]
    end.

  (** The assignment [o[k] = v]. *)
Definition set (k : string) (v : A) o : list (string * A) :=
    if has k o then update k v o else insert k v o.

  (** [o[k].x = ...]: the value stored under [k] is changed in place. *)
Definition modify (k : string) (f : A -> A) o : list (string * A) :=
    match get k o with
    | Some v => update k (f v) o
    | None => o
    end.

End Props.
End Obj.

(** The members of [Object.prototype]. *)
Definition proto_names : list string :=
  [ "__proto__"; "constructor"; "hasOwnProperty"; "isPrototypeOf";
    "propertyIsEnumerable"; "toLocaleString"; "toString"; "valueOf";
    "__defineGetter__"; "__defineSetter__"; "__lookupGetter__";
    "__lookupSetter__" ].

Definition plain_key (k : string) : bool :=
  negb (existsb (String.eqb k) proto_names).

Fixpoint plain (v : json) : bool :=
  match v with
  | JArr l => forallb plain l
  | JObj o => forallb (fun kv => plain_key (fst kv) && plain (snd kv)) o
  | _ => true
  end.

(** An argument of a call that may be [undefined] ([None]). *)
Definition plain_source (source : option json) : bool :=
  match source with
  | Some v => plain v
  | None => true
  end.

(** [Number.isSafeInteger(n)] *)
Definition safe_integer (n : Z) : bool := (Z.abs n <=? 9007199254740991)%Z.

(** Every number of the document is a safe integer. *)
Fixpoint safe (v : json) : bool :=
  match v with
  | JNum n => safe_integer n
  | JArr l => forallb safe l
  | JObj o => forallb (fun kv => safe (snd kv)) o
  | _ => true
  end.

(** [typeof v === 'object' && v !== null]: objects and arrays. *)
Definition is_objectlike (v : json) : bool :=
  match v with
  | JArr _ | JObj _ => true
  | _ => false
  end.

(** [typeof v === 'object' && v !== null && !Array.isArray(v)], the
    [isObject] of [deepMerge]. *)
Definition isObject (v : json) : bool :=
  match v with
  | JObj _ => true
  | _ => false
  end.

(** The positions of a sequence as property names. *)
Definition indexed {A} (l : list A) : list (string * A) :=
  imap (fun i x => (JsString.of_index i, x)) l.

(** The pairs [(key, v[key])] that [for (key in v)] visits and
    [v.hasOwnProperty(key)] lets through: the properties of an object, the
    positions of an array, the code units of a string, nothing for another
    primitive. *)
Definition own_entries (v : json) : obj :=
  match v with
  | JObj o => o
  | JArr l => indexed l
  | JStr s => indexed (map JStr (JsString.chars s))
  | _ => []
  end.

(** [v[k]] for an own property [k] of any value. *)
Definition prop (k : string) (v : json) : option json :=
  Obj.get k (own_entries v).

(** ** [JSON.stringify] *)

Module Json.

Definition dquote : ascii := ascii_of_N 34.
Definition backslash : ascii := ascii_of_N 92.

Definition hex_digit (n : N) : ascii :=
    if (n <? 10)%N then ascii_of_N (48 + n) else ascii_of_N (87 + n).

  (** The escape of one code unit inside a string literal. *)
Definition escape_char (c : ascii) : string :=
    let n := N_of_ascii c in
    if (n =? 34)%N then String backslash (String dquote EmptyString)
    else if (n =? 92)%N then String backslash (String backslash EmptyString)
    else if (n =? 8)%N then String backslash "b"
    else if (n =? 9)%N then String backslash "t"
    else if (n =? 10)%N then String backslash "n"
    else if (n =? 12)%N then String backslash "f"
    else if (n =? 13)%N then String backslash "r"
    else if (n <? 32)%N then
      String backslash
        (String "u" (String "0" (String "0"
           (String (hex_digit (n / 16)) (String (hex_digit (n mod 16)) EmptyString)))))
    else String c EmptyString.

Fixpoint escape (s : string) : string :=
    match s with
    | EmptyString => EmptyString
    | String c s' => (escape_char c ++ escape s')%string
    end.

Definition quote (s : string) : string :=
    String dquote (escape s ++ String dquote EmptyString)%string.

  (** The text of a number: its decimal digits.  [JSON.stringify] prints a
      double, which is this text for a safe integer (from 1e21 on it writes
      an exponent, and a larger integer need not be a double at all). *)
Definition number (n : Z) : string := NilZero.string_of_int (Z.to_int n).

Fixpoint join (parts : list string) : string :=
    match parts with
    | [] => EmptyString
    | [p] => p
    | p :: rest => (p ++ "," ++ join rest)%string
    end.

  (** [JSON.stringify(v)], without indentation. *)
Fixpoint stringify (v : json) : string :=
    match v with
    | JNull => "null"
    | JBool true => "true"
    | JBool false => "false"
    | JNum n => number n
    | JStr s => quote s
    | JArr l => ("[" ++ join (map stringify l) ++ "]")%string
    | JObj o =>
        String.append "{" (String.append (join ((fix members (o : obj) : list string :=
                        match o with
                        | [] => []
                        | (k, x) :: rest =>
                            (quote k ++ ":" ++ stringify x)%string :: members rest
                        end) o)) "}")
    end.

  (** [JSON.parse(JSON.stringify(v))] on a parsed document: the same tree,
      rebuilt from new objects and arrays. *)
Fixpoint clone (v : json) : json :=
    match v with
    | JArr l => JArr (map clone l)
    | JObj o =>
        JObj ((fix members (o : obj) : obj :=
                 match o with
                 | [] => []
                 | (k, x) :: rest => (k, clone x) :: members rest
                 end) o)
    | _ => v
    end.

  (** Text with an apostrophe for every double quote, to write JSON
      literals in this file. *)
Fixpoint text (s : string) : string :=
    match s with
    | EmptyString => EmptyString
    | String c s' =>
        String (if (N_of_ascii c =? 39)%N then dquote else c) (text s')
    end.

End Json.

(** ** The file system seen by the loaders *)

Inductive fsnode : Type :=
| FFile (content : string)
| FDir (items : list (string * fsnode))
| FOther.

(** What a run does: it completes with a value or an exception ends it. *)
Inductive completion (A : Type) : Type :=
| Normal (a : A)
| Throws (what : string).
Arguments Normal {A} a.
Arguments Throws {A} what.

Definition bind {A B} (c : completion A) (f : A -> completion B) : completion B :=
  match c with
  | Normal a => f a
  | Throws w => Throws w
  end.

Section Loaders.

  (** [JSON.parse]; [None] when it throws. *)
Variable JSON_parse : string -> option json.

  (** The loop of [createJsonObjectTree] over the directory listing;
      [subtree] is the recursive call. *)
Fixpoint json_items (subtree : fsnode -> obj)
      (items : list (string * fsnode)) (tree : obj) : obj :=
    match items with
    | [] => tree
    | (item, node) :: rest =>
        if JsString.startsWith "." item then json_items subtree rest tree
        else
          match node with
          | FDir _ =>
              let subTree := subtree node in
              if (0 <? length (Obj.keys subTree))%nat
              then json_items subtree rest (Obj.set item (JObj subTree) tree)
              else json_items subtree rest tree
          | FFile contentString =>
              if JsString.endsWith ".json" item then
                match JSON_parse contentString with
                | Some v => json_items subtree rest (Obj.set item v tree)
                | None => json_items subtree rest tree
                end
              else json_items subtree rest tree
          | FOther => json_items subtree rest tree
          end
    end.

  (** [createJsonObjectTree(dirPath)], for the directory node at [dirPath]. *)
Fixpoint createJsonObjectTree (dir : fsnode) : obj :=
    match dir with
    | FDir items => json_items createJsonObjectTree items []
    | _ => []
    end.

  (** The loop of [createFileTree]. *)
Fixpoint file_items (items : list (string * fsnode)) (tree : obj) : obj :=
    match items with
    | [] => tree
    | (item, node) :: rest =>
        match node with
        | FDir _ =>
            let subTree := createJsonObjectTree node in
            if (0 <? length (Obj.keys subTree))%nat
            then file_items rest (Obj.set item (JObj subTree) tree)
            else file_items rest tree
        | FFile contentString =>
            file_items rest (Obj.set item (JStr contentString) tree)
        | FOther => file_items rest tree
        end
    end.

  (** [createFileTree(dirPath)] *)
Definition createFileTree (dir : fsnode) : obj :=
    match dir with
    | FDir items => file_items items []
    | _ => []
    end.

End Loaders.

(** ** [inverseNestedObject] *)

(** The body of the inner loop: create [inverted[level2Key]] when it is
    missing, then store [value] under [level1Key] inside it. *)
Definition invert_entry (level1Key : string) (inverted : obj)
    (entry : string * json) : obj :=
  let (level2Key, value) := entry in
  let inverted :=
    if Obj.has level2Key inverted then inverted
    else Obj.set level2Key (JObj []) inverted in
  Obj.modify level2Key
    (fun o => JObj (Obj.set level1Key value (own_entries o))) inverted.

(** The body of the outer loop on the pair of the object built so far and
    the keys warned about. *)
Definition invert_level1 (state : obj * list string)
    (entry : string * json) : obj * list string :=
  let (inverted, warned) := state in
  let (level1Key, level2Object) := entry in
  if negb (is_objectlike level2Object) then (inverted, warned ++ [level1Key])
  else (fold_left (invert_entry level1Key) (own_entries level2Object) inverted,
        warned).

(** One call: the returned object and the keys of the
    [Skipping non-object value for key] warnings, in order. *)
Definition inverseNestedObject_run (originalObject : json) : obj * list string :=
  fold_left invert_level1 (own_entries originalObject) ([], []).

Definition inverseNestedObject (originalObject : json) : obj :=
  fst (inverseNestedObject_run originalObject).

Definition inverse_warnings (originalObject : json) : list string :=
  snd (inverseNestedObject_run originalObject).

(** ** [deepMerge] *)

(** The new value of [target[key]] after the loop body ran for a source
    value [sourceValue] and the old [target[key]]; in the first case the old
    object is the one that the recursive call has changed in place. *)
Fixpoint merged_value (sourceValue : json) (targetValue : option json) : json :=
  match sourceValue with
  | JObj source =>
      match targetValue with
      | Some (JObj target) =>
          JObj ((fix each (source target : obj) {struct source} : obj :=
                   match source with
                   | [] => target
                   | (key, sv) :: rest =>
                       each rest
                         (Obj.set key (merged_value sv (Obj.get key target)) target)
                   end) source target)
      | _ => Json.clone sourceValue
      end
  | _ => sourceValue
  end.

(** The loop body of [deepMerge] for one key of the source. *)
Definition merge_key (target : obj) (entry : string * json) : obj :=
  let (key, sourceValue) := entry in
  Obj.set key (merged_value sourceValue (Obj.get key target)) target.

(** [deepMerge(target, source)] for one source; [None] is [undefined]. *)
Definition deepMerge1 (target : obj) (source : option json) : obj :=
  match source with
  | Some s => fold_left merge_key (own_entries s) target
  | None => target
  end.

(** [deepMerge(target, ...sources)] *)
Fixpoint deepMerge (target : obj) (sources : list (option json)) : obj :=
  match sources with
  | [] => target
  | source :: rest => deepMerge (deepMerge1 target source) rest
  end.

(** ** The main block *)

Section Main.

Variable JSON_parse : string -> option json.

  (** The callbacks of the four nested [reduce] calls, innermost first. *)
Definition switch3 (k2 : string) (o3 : obj) (e : string * json) : obj :=
    let (k3, v3) := e in
    Obj.set k3
      (if String.eqb k2 "values.json" then JObj (inverseNestedObject v3) else v3)
      o3.

Definition switch2 (o2 : obj) (e : string * json) : obj :=
    let (k2, v2) := e in
    Obj.set k2 (JObj (fold_left (switch3 k2) (inverseNestedObject v2) [])) o2.

Definition switch1 (o1 : obj) (e : string * json) : obj :=
    let (k1, v1) := e in
    Obj.set k1 (JObj (fold_left switch2 (inverseNestedObject v1) [])) o1.

Definition switch0 (o0 : obj) (e : string * json) : obj :=
    let (k0, v0) := e in
    Obj.set k0 (JObj (fold_left switch1 (inverseNestedObject v0) [])) o0.

Definition switched (objectTree : obj) : obj :=
    fold_left switch0 objectTree [].

Definition filemaps : obj :=
    [ ("atrules.json", JStr "atrules");
      ("attributes.json", JStr "attributes");
      ("classes.json", JStr "classes");
      ("elements.json", JStr "elements");
      ("values.json", JStr "values") ].

  (** The callback of the renaming [reduce]: without [filemaps[group]] it
      returns nothing, so the next call receives [undefined] ([None]) as
      [o2], and an assignment into [undefined] is a [TypeError]. *)
Definition rename_group (o2 : completion (option obj))
      (e : string * json) : completion (option obj) :=
    let (group, v2) := e in
    bind o2 (fun o2 =>
      match Obj.get group filemaps with
      | Some (JStr name) =>
          match o2 with
          | Some o => Normal (Some (Obj.set name v2 o))
          | None => Throws "TypeError"
          end
      | _ => Normal None
      end).

Definition rename_groups (groups : obj) : completion (option obj) :=
    fold_left rename_group groups (Normal (Some [])).

Definition fromfilename (platform year : string) : string :=
    ("platform/" ++ platform ++ "--from-" ++ JsString.padStart 4 "0" year
       ++ ".json")%string.

Definition lastfilename (platform : string) (index : nat) : string :=
    ("platform/" ++ platform ++ "--last-"
       ++ JsString.padStart 4 "0" (JsString.of_index (index + 1))
       ++ ".json")%string.

Definition last_label (index : nat) : string :=
    (JsString.of_index (index + 1) ++ " year")%string.

  (** What the snapshot loop carries: the accumulator [o1] and the two
      objects it writes into. *)
Record build : Type := Build
    { the_o1 : obj; the_indexmap : obj; the_finalfiles : obj }.

  (** [indexmap[platform][section][label] = filename] *)
Definition index_put (platform section label filename : string)
      (indexmap : obj) : obj :=
    Obj.modify platform
      (fun entry =>
         JObj (Obj.modify section
                 (fun m => JObj (Obj.set label (JStr filename) (own_entries m)))
                 (own_entries entry)))
      indexmap.

  (** One call of the callback of the snapshot [reduce]. *)
Definition snapshot_step (platform : string) (years : obj) (b : build)
      (year : string) (index : nat) : completion build :=
    match Obj.get year years with
    | None => Throws "TypeError"
    | Some groups =>
        bind (rename_groups (own_entries groups)) (fun renamed =>
          let o1 := deepMerge (the_o1 b) [option_map JObj renamed] in
          let fromfile := fromfilename platform year in
          let lastfile := lastfilename platform index in
          let indexmap := index_put platform "from" year fromfile (the_indexmap b) in
          let indexmap := index_put platform "last" (last_label index) lastfile indexmap in
          let finalfiles := Obj.set fromfile (JStr (Json.stringify (JObj o1))) (the_finalfiles b) in
          let finalfiles := Obj.set lastfile (JStr (Json.stringify (JObj o1))) finalfiles in
          Normal (Build o1 indexmap finalfiles))
    end.

  (** The snapshot [reduce] over the reversed keys, from position [index]. *)
Fixpoint snapshot_loop (platform : string) (years : obj)
      (todo : list string) (index : nat) (b : build) : completion build :=
    match todo with
    | [] => Normal b
    | year :: rest =>
        bind (snapshot_step platform years b year index)
          (snapshot_loop platform years rest (index + 1))
    end.

  (** The callback of [Object.entries(switched).forEach]: on the pair of
      [indexmap] and [finalfiles]. *)
Definition platform_step (state : completion (obj * obj))
      (e : string * json) : completion (obj * obj) :=
    let (platform, years) := e in
    bind state (fun '(indexmap, finalfiles) =>
      let indexmap :=
        Obj.set platform (JObj [("from", JObj []); ("last", JObj [])]) indexmap in
      let years := own_entries years in
      bind (snapshot_loop platform years (rev (Obj.keys years)) 0
              (Build [] indexmap finalfiles))
        (fun b => Normal (the_indexmap b, the_finalfiles b))).

  (** From the loaded trees to the manifest and the file map. *)
Definition build_all (objectTree site : obj) : completion (obj * obj) :=
    fold_left platform_step (switched objectTree) (Normal ([], site)).

  (** The main block, up to the call of [publishPathContent]: its result is
      the file map handed over, [finalfiles].  [registry] is [None] when the
      directory does not exist. *)
Definition main (registry : option fsnode) (site : fsnode)
      : completion obj :=
    match registry with
    | None => Throws "exit"
    | Some (FDir _ as dir) =>
        let objectTree := createJsonObjectTree JSON_parse dir in
        match site with
        | FDir _ =>
            bind (build_all objectTree (createFileTree JSON_parse site))
              (fun '(indexmap, finalfiles) =>
                 Normal (Obj.set "index.json"
                           (JStr (Json.stringify (JObj indexmap))) finalfiles))
        | _ => Throws "ENOTDIR"
        end
    | Some _ => Throws "ENOTDIR"
    end.

End Main.

(** * [deepMerge] on a heap of shared objects

    [deepMerge] changes its target in place and stores values of the source
    in it; whether the two then share an object is a question about
    references.  Here objects and arrays live in cells of a heap, and a
    value is a scalar or the address of a cell. *)

Module Heap.

Inductive value : Type :=
| Null
| Boolean (b : bool)
| Number (n : Z)
| Text (s : string)
| Ref (l : nat).

Inductive cell : Type :=
| Object (props : list (string * value))
| Array (elems : list value).

Abbreviation heap := (list cell).

Definition children (c : cell) : list value :=
  match c with
  | Object props => map snd props
  | Array elems => elems
  end.

(** A new object or array: the next free address. *)
Definition new (c : cell) (h : heap) : heap * value :=
  (h ++ [c], Ref (length h)).

(** The [isObject] of [deepMerge]. *)
Definition isObject (h : heap) (v : value) : bool :=
  match v with
  | Ref l => match h !! l with Some (Object _) => true | _ => false end
  | _ => false
  end.

(** The own enumerable properties of a value, as in [own_entries]. *)
Definition own_entries (h : heap) (v : value) : list (string * value) :=
  match v with
  | Ref l =>
      match h !! l with
      | Some (Object props) => props
      | Some (Array elems) => indexed elems
      | None => []
      end
  | Text s => indexed (map Text (JsString.chars s))
  | _ => []
  end.

(** [v[key]] on own properties. *)
Definition own (h : heap) (v : value) (key : string) : option value :=
  Obj.get key (own_entries h v).

(** [target[key] = v] on the object at address [target]. *)
Definition store (target : nat) (key : string) (v : value) (h : heap) : heap :=
  match h !! target with
  | Some (Object props) => <[target := Object (Obj.set key v props)]> h
  | _ => h
  end.

(** The document below a value, as [JSON.stringify] walks it; no result
    when [fuel] nested cells are not enough, as on a cycle. *)
Fixpoint read (fuel : nat) (h : heap) (v : value) : option json :=
  match v with
  | Null => Some JNull
  | Boolean b => Some (JBool b)
  | Number n => Some (JNum n)
  | Text s => Some (JStr s)
  | Ref l =>
      match fuel with
      | O => None
      | S fuel =>
          match h !! l with
          | Some (Object props) =>
              JObj <$> mapM (fun kv => pair (fst kv) <$> read fuel h (snd kv)) props
          | Some (Array elems) => JArr <$> mapM (read fuel h) elems
          | None => None
          end
      end
  end.

(** The value that [JSON.parse] makes of a document: every object and
    array of it is a new cell. *)
Fixpoint build (j : json) (h : heap) : heap * value :=
  match j with
  | JNull => (h, Null)
  | JBool b => (h, Boolean b)
  | JNum n => (h, Number n)
  | JStr s => (h, Text s)
  | JArr l =>
      let '(h', elems) :=
        (fix each (l : list json) (h : heap) : heap * list value :=
           match l with
           | [] => (h, [])
           | x :: rest =>
               let '(h1, v) := build x h in
               let '(h2, vs) := each rest h1 in
               (h2, v :: vs)
           end) l h in
      new (Array elems) h'
  | JObj o =>
      let '(h', props) :=
        (fix each (o : obj) (h : heap) : heap * list (string * value) :=
           match o with
           | [] => (h, [])
           | (k, x) :: rest =>
               let '(h1, v) := build x h in
               let '(h2, vs) := each rest h1 in
               (h2, (k, v) :: vs)
           end) o h in
      new (Object props) h'
  end.

(** [JSON.parse(JSON.stringify(v))] *)
Definition copy (fuel : nat) (h : heap) (v : value) : option (heap * value) :=
  match read fuel h v with
  | Some j => Some (build j h)
  | None => None
  end.

(** The loop body of [deepMerge] for one key; [recur] is the recursive
    call.  The source is read again at each key, as the loop does. *)
Definition merge_key (recur : heap -> nat -> list (option value) -> option heap)
    (fuel : nat) (target : nat) (source : value) (h : heap) (key : string)
    : option heap :=
  match own h source key with
  | None => Some h
  | Some sourceValue =>
      let targetValue := own h (Ref target) key in
      if isObject h sourceValue then
        match targetValue with
        | Some (Ref t) =>
            if isObject h (Ref t) then recur h t [Some sourceValue]
            else
              match copy fuel h sourceValue with
              | Some (h1, c) => Some (store target key c h1)
              | None => None
              end
        | _ =>
            match copy fuel h sourceValue with
            | Some (h1, c) => Some (store target key c h1)
            | None => None
            end
        end
      else Some (store target key sourceValue h)
  end.

(** [deepMerge(target, ...sources)] for a target object at address
    [target]; the result is the heap after the call, the returned value
    being [target] itself.  [None]: [fuel] nested calls were not enough. *)
Fixpoint deepMerge (fuel : nat) (h : heap) (target : nat)
    (sources : list (option value)) : option heap :=
  match fuel with
  | O => None
  | S fuel =>
      match sources with
      | [] => Some h
      | source :: rest =>
          let after :=
            match source with
            | Some s =>
                fold_left
                  (fun state key =>
                     match state with
                     | Some h => merge_key (deepMerge fuel) fuel target s h key
                     | None => None
                     end)
                  (Obj.keys (own_entries h s)) (Some h)
            | None => Some h
            end in
          match after with
          | Some h' => deepMerge fuel h' target rest
          | None => None
          end
      end
  end.

(** An address reached from a value through properties and elements. *)
Inductive reach (h : heap) : value -> nat -> Prop :=
| reach_here l c : h !! l = Some c -> reach h (Ref l) l
| reach_child l c x l' :
    h !! l = Some c -> x ∈ children c -> reach h x l' -> reach h (Ref l) l'.

(** Every address stored in the heap is one of its cells. *)
Definition closed (h : heap) : Prop :=
  forall l c l', h !! l = Some c -> Ref l' ∈ children c -> (l' < length h)%nat.

(** The loops of [build] over the elements and over the properties. *)
Definition build_elems : list json -> heap -> heap * list value :=
  fix each (l : list json) (h : heap) : heap * list value :=
    match l with
    | [] => (h, [])
    | x :: rest =>
        let '(h1, v) := build x h in
        let '(h2, vs) := each rest h1 in
        (h2, v :: vs)
    end.

Definition build_props : obj -> heap -> heap * list (string * value) :=
  fix each (o : obj) (h : heap) : heap * list (string * value) :=
    match o with
    | [] => (h, [])
    | (k, x) :: rest =>
        let '(h1, v) := build x h in
        let '(h2, vs) := each rest h1 in
        (h2, (k, v) :: vs)
    end.

(** A value that is not an address below [n]. *)
Definition fresh_from (n : nat) (v : value) : Prop :=
  forall l, v = Ref l -> (n <= l)%nat.

(** [h'] is [h] followed by cells that hold no address below [length h]. *)
Definition extends (h h' : heap) : Prop :=
  exists ext, h' = h ++ ext /\
    forall c, c ∈ ext -> Forall (fresh_from (length h)) (children c).

(** The nesting depth of a document. *)
Fixpoint height (j : json) : nat :=
  match j with
  | JArr l => S (foldr (fun x n => Nat.max (height x) n) 0%nat l)
  | JObj o => S (foldr (fun kv n => Nat.max (height (snd kv)) n) 0%nat o)
  | _ => 0%nat
  end.

(** The loop of [deepMerge] over the keys of one source [s], with the
    recursive calls that [fuel] allows. *)
Definition run_keys (fuel : nat) (t : nat) (s : value)
    (keys : list string) (state : option heap) : option heap :=
  fold_left
    (fun state key =>
       match state with
       | Some h => merge_key (deepMerge fuel) fuel t s h key
       | None => None
       end) keys state.

(** [JSON.stringify(deepMerge(target, ...sources))] for a target and
    sources that were parsed one after the other, each into cells of its
    own. *)
Definition merge_documents (fuel : nat) (target : obj) (sources : list json)
    : option json :=
  let '(h0, t) := build (JObj target) [] in
  let '(h1, vs) := build_elems sources h0 in
  match t with
  | Ref l =>
      match deepMerge fuel h1 l (map Some vs) with
      | Some h' => read fuel h' t
      | None => None
      end
  | _ => None
  end.

End Heap.

(** * Notions used in the statements *)

Fixpoint distinct (ks : list string) : bool :=
  match ks with
  | [] => true
  | k :: rest => negb (existsb (String.eqb k) rest) && distinct rest
  end.

(** No object has two properties of the same name. *)
Fixpoint wf (v : json) : bool :=
  match v with
  | JArr l => forallb wf l
  | JObj o =>
      distinct (map fst o) && forallb (fun kv => wf (snd kv)) o
  | _ => true
  end.

(** [o[inner][outer]] *)
Definition get2 (o : obj) (inner outer : string) : option json :=
  match Obj.get inner o with
  | Some x => prop outer x
  | None => None
  end.

(** Every value of the object is itself an object whose keys are distinct. *)
Definition rows (o : obj) : Prop :=
  forall k x, Obj.get k o = Some x ->
    exists r, x = JObj r /\ NoDup (Obj.keys r).

(** [v[k]] when [v] passes the test of the pivot, nothing otherwise. *)
Definition oprop (k : string) (v : json) : option json :=
  if is_objectlike v then prop k v else None.

Definition skipped (es : obj) : list string :=
  map fst (filter (fun e : string * json => negb (is_objectlike (snd e))) es).

Definition to_map (o : obj) : gmap string json := list_to_map o.

(** A two-level object as a map of maps: the enumeration order is
    forgotten, keys and values are kept. *)
Definition to_map2 (o : obj) : gmap string (gmap string json) :=
  (fun row => to_map (own_entries row)) <$> to_map o.

(** [m[outer][inner]], the second step through an object or an array. *)
Definition through (m : json) (outer inner : string) : option json :=
  match prop outer m with
  | Some v => oprop inner v
  | None => None
  end.

(** [v[k1][k2]...], each step through an object or an array. *)
Fixpoint opath (ks : list string) (v : json) : option json :=
  match ks with
  | [] => Some v
  | k :: rest =>
      match oprop k v with
      | Some x => opath rest x
      | None => None
      end
  end.

(** The callback [(o, [k, v]) => { o[k] = f(k, v); return o }]. *)
Definition rebuild_step (f : string -> json -> json) (o : obj)
    (e : string * json) : obj :=
  Obj.set (fst e) (f (fst e) (snd e)) o.

(** What the second, third and fourth [reduce] store under a key. *)
Definition pivot3 (k2 : string) (v2 : json) : json :=
  JObj (fold_left (switch3 k2) (inverseNestedObject v2) []).

Definition pivot2 (v1 : json) : json :=
  JObj (fold_left switch2 (inverseNestedObject v1) []).

Definition pivot1 (v0 : json) : json :=
  JObj (fold_left switch1 (inverseNestedObject v0) []).

Definition extra (k2 : string) (v3 : json) : json :=
  if String.eqb k2 "values.json" then JObj (inverseNestedObject v3) else v3.

(** The value that the three generic pivots leave at [[p][k1][k2][k3]]. *)
Definition generic3 (tree : obj) (p k1 k2 k3 : string) : option json :=
  v0 ← Obj.get p tree;
  v1 ← Obj.get k1 (inverseNestedObject v0);
  v2 ← Obj.get k2 (inverseNestedObject v1);
  Obj.get k3 (inverseNestedObject v2).

(** The directory tree without its dot-prefixed entries, at every level. *)
Fixpoint strip_hidden (rec : fsnode -> fsnode)
    (items : list (string * fsnode)) : list (string * fsnode) :=
  match items with
  | [] => []
  | (item, node) :: rest =>
      if JsString.startsWith "." item then strip_hidden rec rest
      else (item, rec node) :: strip_hidden rec rest
  end.

Fixpoint visible (node : fsnode) : fsnode :=
  match node with
  | FDir items => FDir (strip_hidden visible items)
  | _ => node
  end.

(** What [createFileTree] stores for one directory entry, if anything. *)
Definition top_entry (JSON_parse : string -> option json) (node : fsnode)
    : option json :=
  match node with
  | FFile contentString => Some (JStr contentString)
  | FDir _ =>
      let subTree := createJsonObjectTree JSON_parse node in
      if (0 <? length (Obj.keys subTree))%nat then Some (JObj subTree) else None
  | FOther => None
  end.

(** The entry of a platform in the manifest. *)
Definition index_entry (from last : obj) : json :=
  JObj [("from", JObj from); ("last", JObj last)].

(** The [from] and [last] sections after the snapshot loop has walked
    [todo], starting at position [index]. *)
Fixpoint from_map (platform : string) (todo : list string) (from : obj) : obj :=
  match todo with
  | [] => from
  | year :: rest =>
      from_map platform rest
        (Obj.set year (JStr (fromfilename platform year)) from)
  end.

Fixpoint last_map (platform : string) (todo : list string) (index : nat)
    (last : obj) : obj :=
  match todo with
  | [] => last
  | _ :: rest =>
      last_map platform rest (index + 1)
        (Obj.set (last_label index) (JStr (lastfilename platform index)) last)
  end.

(** * The claims as worded, and sample data *)

(** The contract as the specification words it: pairs under a mapping are
    transposed, and every outer value that is not a mapping (arrays
    included) is skipped with a warning and leaves no trace. *)
Definition pivot_contract (m : json) : Prop :=
  (forall outer inner o x,
      prop outer m = Some (JObj o) -> Obj.get inner o = Some x ->
      get2 (inverseNestedObject m) inner outer = Some x) /\
  (forall outer v,
      prop outer m = Some v -> isObject v = false ->
      outer ∈ inverse_warnings m /\
      forall inner, get2 (inverseNestedObject m) inner outer = None).

(** The round trip as the specification words it: the second pivot gives
    back the original object. *)
Definition pivot_round_trip (o : obj) : Prop :=
  inverseNestedObject (JObj (inverseNestedObject (JObj o))) = o.

(** Each inner key occurs under at most one outer key. *)
Definition inner_keys_unique (o : obj) : Prop :=
  forall outer1 outer2 inner x1 x2,
    get2 o outer1 inner = Some x1 -> get2 o outer2 inner = Some x2 ->
    outer1 = outer2.

(** Every outer value is a mapping with at least one key. *)
Definition full_rows (o : obj) : Prop :=
  forall k v, (k, v) ∈ o -> exists r, v = JObj r /\ r <> [].

(** A source that is not an object, in the sense of the language:
    [undefined], [null], a boolean, a number or a string. *)
Definition not_an_object (source : option json) : bool :=
  match source with
  | Some (JObj _) | Some (JArr _) => false
  | _ => true
  end.

(** The claim as worded: such a source leaves the target as it was. *)
Definition merge_ignores (target : obj) (source : option json) : Prop :=
  not_an_object source = true -> deepMerge target [source] = target.

(** A source over which [for ... in] finds no key: [undefined], [null], a
    boolean, a number or the empty string. *)
Definition keyless (source : option json) : bool :=
  match source with
  | None | Some JNull | Some (JBool _) | Some (JNum _) => true
  | Some (JStr s) => String.eqb s ""
  | _ => false
  end.

(** A [JSON.parse] that knows the texts of a table. *)
Definition parse_table (table : list (string * json)) (text : string) : option json :=
  Obj.get text table.

Definition bar_text : string := Json.text "{'bar':'-webkit-bar'}".
Definition foo_text : string := Json.text "{'foo':'-webkit-foo'}".
Definition bar_json : json := JObj [("bar", JStr "-webkit-bar")].
Definition foo_json : json := JObj [("foo", JStr "-webkit-foo")].

Definition sample_parse : string -> option json :=
  parse_table [(bar_text, bar_json); (foo_text, foo_json); ("{}", JObj [])].

Definition two_years : fsnode :=
  FDir [("2023", FDir [("classes.json", FFile foo_text)]);
        ("2024", FDir [("classes.json", FFile bar_text)])].

(** The registry of the example as the specification lays it out:
    [webkit/<year>/classes.json]. *)
Definition registry_by_year : fsnode := FDir [("webkit", two_years)].

(** The same two files one level deeper: [browser/webkit/<year>/classes.json]. *)
Definition registry_by_vendor : fsnode := FDir [("browser", registry_by_year)].

(** The example as the specification words it. *)
Definition end_to_end_claim : Prop :=
  forall JSON_parse site,
    JSON_parse foo_text = Some foo_json -> JSON_parse bar_text = Some bar_json ->
    exists finalfiles indexmap,
      main JSON_parse (Some registry_by_year) (FDir site) = Normal finalfiles /\
      Obj.get "platform/webkit--from-2024.json" finalfiles
      = Some (JStr (Json.text "{'classes':{'bar':'-webkit-bar'}}")) /\
      Obj.get "platform/webkit--from-2023.json" finalfiles
      = Some (JStr (Json.text "{'classes':{'foo':'-webkit-foo','bar':'-webkit-bar'}}")) /\
      Obj.get "index.json" finalfiles = Some (JStr (Json.stringify indexmap)) /\
      opath ["webkit"; "from"; "2023"] indexmap
      = Some (JStr "platform/webkit--from-2023.json") /\
      opath ["webkit"; "from"; "2024"] indexmap
      = Some (JStr "platform/webkit--from-2024.json").

Definition example_indexmap : obj :=
  [("browser", JObj
      [("from", JObj [("2023", JStr "platform/browser--from-2023.json");
                      ("2024", JStr "platform/browser--from-2024.json")]);
       ("last", JObj [("1 year", JStr "platform/browser--last-0001.json");
                      ("2 year", JStr "platform/browser--last-0002.json")])])].

Definition snapshot_2024 : string :=
  Json.text "{'classes':{'bar':{'webkit':'-webkit-bar'}}}".

Definition snapshot_2023 : string :=
  Json.text "{'classes':{'bar':{'webkit':'-webkit-bar'},'foo':{'webkit':'-webkit-foo'}}}".

(** The claim as worded, in the layout of the specification, where the key
    below the platform of the pivoted tree is the group: the entries of the
    group [values.json], and only they, are pivoted once more. *)
Definition extra_pivot_by_group (tree : obj) : Prop :=
  forall p group k2 k3 v3,
    generic3 tree p group k2 k3 = Some v3 ->
    opath [p; group; k2; k3] (JObj (switched tree)) =
    Some (if String.eqb group "values.json"
          then JObj (inverseNestedObject v3) else v3).

(** The completeness of the manifest as the specification words it, years
    being the keys directly under a platform of the loaded tree. *)
Definition manifest_by_year (tree indexmap : obj) : Prop :=
  forall platform years,
    Obj.get platform tree = Some years ->
    exists from last,
      Obj.get platform indexmap = Some (index_entry from last) /\
      (forall year, year ∈ Obj.keys (own_entries years) -> year ∈ Obj.keys from) /\
      length last = length (own_entries years).





(** A mapping whose second row comes back from two pivots with its keys
    in another order. *)
Definition reordered_rows : obj :=
  [("a", JObj [("y", JNum 1)]); ("b", JObj [("x", JNum 2); ("y", JNum 3)])].


Definition tree_by_year : obj :=
  [("webkit", JObj [("2023", JObj [("classes.json", foo_json)]);
                    ("2024", JObj [("classes.json", bar_json)])])].


(** * The cells that a target of [deepMerge] owns

    The functions on documents above stand for [deepMerge] on a heap as
    long as no object of the target is reached twice.  That condition is
    stated here: the objects of the target form a tree of cells of their
    own, and every other value below the target, an array that a merge
    stored by reference for one, lies in a region that no merge writes. *)

(** The functions on documents, under the names that [Heap] uses again. *)
Module Doc.
Abbreviation own_entries := own_entries.
Abbreviation isObject := isObject.
Abbreviation merge_key := merge_key.
Abbreviation deepMerge := deepMerge.
End Doc.

Module Ownership.
Import Heap.

(** A property of the target: the value stored, the document it stands
    for, and the object cells that it owns. *)
Record slot : Type := Slot { s_val : value; s_doc : json; s_own : gset nat }.

Definition vals (zs : list (string * slot)) : list (string * value) :=
  map (fun kz => (fst kz, s_val (snd kz))) zs.

Definition docs (zs : list (string * slot)) : obj :=
  map (fun kz => (fst kz, s_doc (snd kz))) zs.

(** [owned h R v j D]: in [h] the value [v] stands for the document [j];
    [D] is the set of the object cells below [v], each reached by one path
    only; what is no object below [v] reaches cells of [R] only. *)
Inductive owned (h : heap) (R : gset nat) : value -> json -> gset nat -> Prop :=
| owned_object l zs D :
    h !! l = Some (Object (vals zs)) ->
    NoDup (Obj.keys zs) ->
    (forall k z, Obj.get k zs = Some z -> owned h R (s_val z) (s_doc z) (s_own z)) ->
    (forall k1 k2 z1 z2,
        k1 <> k2 -> Obj.get k1 zs = Some z1 -> Obj.get k2 zs = Some z2 ->
        s_own z1 ## s_own z2) ->
    (forall k z, Obj.get k zs = Some z -> l ∉ s_own z) ->
    (forall a, a ∈ D <-> a = l \/ exists k z, Obj.get k zs = Some z /\ a ∈ s_own z) ->
    owned h R (Ref l) (JObj (docs zs)) D
| owned_leaf v j fuel D :
    isObject h v = false ->
    read fuel h v = Some j ->
    (forall l, reach h v l -> l ∈ R) ->
    D = ∅ ->
    owned h R v j D.

Definition map_values {A B : Type} (f : A -> B) (zs : list (string * A))
    : list (string * B) :=
  map (fun kz => (fst kz, f (snd kz))) zs.

(** An address held by a value is a cell of the heap. *)
Definition valid (h : heap) (v : value) : Prop :=
  forall l, v = Ref l -> (l < length h)%nat.

Definition within (lo hi : nat) (X : gset nat) : Prop :=
  forall a, a ∈ X -> (lo <= a < hi)%nat.

(** The cells owned through the properties of an object. *)
Definition owns (zs : list (string * slot)) : gset nat :=
  ⋃ (map (fun kz => s_own (snd kz)) zs).

(** What a merge into the target at [t] has achieved: the cells outside
    [D] are as before, and the target stands for [T'], owning [D'], which
    is made of cells of [D] and of new cells. *)
Definition post (h : heap) (R D : gset nat) (t : nat)
    (T' : obj) (h' : heap) (R' D' : gset nat) : Prop :=
  closed h' /\ (length h <= length h')%nat /\
  (forall a, (a < length h)%nat -> a ∉ D -> h' !! a = h !! a) /\
  owned h' R' (Ref t) (JObj T') D' /\ D' ## R' /\ R ⊆ R' /\
  (forall a, a ∈ D' -> a ∈ D \/ (length h <= a)%nat) /\
  (forall a, a ∈ R' -> a ∈ R \/ (length h <= a)%nat) /\
  (forall a, a ∈ R' -> (a < length h')%nat).

(** Merging a source that stands for [J] into an owned target gives what
    [deepMerge1] says. *)
Definition merges (J : json) : Prop :=
  forall h R D t T s fuel0,
    closed h -> owned h R (Ref t) (JObj T) D -> D ## R ->
    (forall a, a ∈ R -> (a < length h)%nat) ->
    read fuel0 h s = Some J -> (forall l, reach h s l -> l ∈ R) ->
    wf J = true ->
    exists fuel h' R' D',
      deepMerge fuel h t [Some s] = Some h' /\
      post h R D t (deepMerge1 T (Some J)) h' R' D'.

(** A source of a call: [undefined], or a value that stands for a
    document and lies in the region that is not written. *)
Definition source_ok (h : heap) (R : gset nat) (o : option (value * json)) : Prop :=
  match o with
  | Some (v, J) =>
      (exists fuel0, read fuel0 h v = Some J) /\
      (forall l, reach h v l -> l ∈ R) /\ wf J = true
  | None => True
  end.

End Ownership.

(** * [publishPathContent] and the file system it writes

    The file system is the tree of its root directory, a path the list of
    its segments from the root.  There are no permissions, no links and no
    limits on names; a node that is neither a file nor a directory is not
    written through. *)

Module Fs.

(** The node at a path. *)
Fixpoint lookup (p : list string) (node : fsnode) : option fsnode :=
  match p with
  | [] => Some node
  | name :: rest =>
      match node with
      | FDir items =>
          match Obj.get name items with
          | Some child => lookup rest child
          | None => None
          end
      | _ => None
      end
  end.

(** [fs.existsSync(p)] *)
Definition existsSync (p : list string) (fs : fsnode) : bool :=
  match lookup p fs with Some _ => true | None => false end.

(** The text of the file at a path, if a file is there. *)
Definition read_file (p : list string) (fs : fsnode) : option string :=
  match lookup p fs with
  | Some (FFile content) => Some content
  | _ => None
  end.

Definition is_dir (p : list string) (fs : fsnode) : bool :=
  match lookup p fs with
  | Some (FDir _) => true
  | _ => false
  end.

(** The listing without the entry of a name. *)
Definition unlink (name : string) (items : list (string * fsnode))
    : list (string * fsnode) :=
  List.filter (fun e => negb (String.eqb name (fst e))) items.

(** [fs.rmSync(p, { recursive: true, force: true })] for a path that
    exists; removing the root fails. *)
Fixpoint rmSync (p : list string) (node : fsnode) : completion fsnode :=
  match p with
  | [] => Throws "EBUSY"
  | [name] =>
      match node with
      | FDir items => Normal (FDir (unlink name items))
      | _ => Normal node
      end
  | name :: rest =>
      match node with
      | FDir items =>
          match Obj.get name items with
          | Some child =>
              bind (rmSync rest child)
                (fun child => Normal (FDir (Obj.update name child items)))
          | None => Normal node
          end
      | _ => Normal node
      end
  end.

(** [fs.mkdirSync(p, { recursive: true })]: the missing directories of the
    path are created; a segment that exists and is no directory ends the
    call. *)
Fixpoint mkdirSync (p : list string) (node : fsnode) : completion fsnode :=
  match p with
  | [] =>
      match node with
      | FDir _ => Normal node
      | _ => Throws "EEXIST"
      end
  | name :: rest =>
      match node with
      | FDir items =>
          match Obj.get name items with
          | Some child =>
              bind (mkdirSync rest child)
                (fun child => Normal (FDir (Obj.update name child items)))
          | None =>
              bind (mkdirSync rest (FDir []))
                (fun child => Normal (FDir (items ++ [(name, child)])))
          end
      | _ => Throws "ENOTDIR"
      end
  end.

(** [fs.writeFileSync(p, content)] for a text: the file is created in an
    existing directory, or its content replaced. *)
Fixpoint writeFileSync (p : list string) (content : string) (node : fsnode)
    : completion fsnode :=
  match p with
  | [] => Throws "EISDIR"
  | [name] =>
      match node with
      | FDir items =>
          match Obj.get name items with
          | Some (FFile _) =>
              Normal (FDir (Obj.update name (FFile content) items))
          | Some (FDir _) => Throws "EISDIR"
          | Some FOther => Throws "ENXIO"
          | None => Normal (FDir (items ++ [(name, FFile content)]))
          end
      | _ => Throws "ENOTDIR"
      end
  | name :: rest =>
      match node with
      | FDir items =>
          match Obj.get name items with
          | Some child =>
              bind (writeFileSync rest content child)
                (fun child => Normal (FDir (Obj.update name child items)))
          | None => Throws "ENOENT"
          end
      | _ => Throws "ENOTDIR"
      end
  end.

Definition is_slash (c : ascii) : bool := (N_of_ascii c =? 47)%N.

(** The pieces of a path between its separators. *)
Fixpoint segments (s : string) : list string :=
  match s with
  | EmptyString => [EmptyString]
  | String c s' =>
      if is_slash c then EmptyString :: segments s'
      else
        match segments s' with
        | seg :: rest => String c seg :: rest
        | [] => [String c EmptyString]
        end
  end.

(** One segment in [path.normalize], for an absolute path: empty segments
    and [.] are dropped, [..] takes the last segment away and stays at the
    root. *)
Definition normalize_step (stack : list string) (seg : string) : list string :=
  if String.eqb seg "" || String.eqb seg "." then stack
  else if String.eqb seg ".." then removelast stack
  else stack ++ [seg].

(** [path.join(destDir, relativePath)] for a resolved [destDir], as
    segments. *)
Definition join (destDir : list string) (relativePath : string) : list string :=
  fold_left normalize_step (segments relativePath) destDir.

(** The joined path ends with a separator. *)
Definition trailing_separator (relativePath : string) : bool :=
  JsString.endsWith "/" relativePath.

(** [path.dirname] of an absolute path. *)
Definition dirname (p : list string) : list string := removelast p.

Fixpoint has_nul (s : string) : bool :=
  match s with
  | EmptyString => false
  | String c s' => (N_of_ascii c =? 0)%N || has_nul s'
  end.

(** A path that the [fs] functions refuse: it holds a null byte. *)
Definition invalid_path (p : list string) : bool := existsb has_nul p.

End Fs.

(** The body of the loop of [publishPathContent] on the pair of the file
    system and [filesWritten]. *)
Definition publish_file (destDir : list string)
    (state : completion (fsnode * nat)) (entry : string * json)
    : completion (fsnode * nat) :=
  let (relativePath, content) := entry in
  bind state (fun '(fs, filesWritten) =>
    let absoluteDestPath := Fs.join destDir relativePath in
    let parentDir := Fs.dirname absoluteDestPath in
    if Fs.invalid_path parentDir then Throws "ERR_INVALID_ARG_VALUE"
    else
      bind (Fs.mkdirSync parentDir fs) (fun fs =>
        match content with
        | JStr text =>
            if Fs.invalid_path absoluteDestPath then Throws "ERR_INVALID_ARG_VALUE"
            else if Fs.trailing_separator relativePath then
              match Fs.lookup absoluteDestPath fs with
              | Some (FFile _) | Some FOther => Throws "ENOTDIR"
              | _ => Throws "EISDIR"
              end
            else
              bind (Fs.writeFileSync absoluteDestPath text fs)
                (fun fs => Normal (fs, S filesWritten))
        | _ => Throws "ERR_INVALID_ARG_TYPE"
        end)).

(** [publishPathContent(fileMap, targetDir)] on the file system [fs], for
    [destDir = path.resolve(targetDir)]: the file system after the call and
    the number of files that the last message reports. *)
Definition publishPathContent (fileMap : obj) (destDir : list string)
    (fs : fsnode) : completion (fsnode * nat) :=
  bind (if Fs.invalid_path destDir then Throws "ERR_INVALID_ARG_VALUE"
        else if Fs.existsSync destDir fs then Fs.rmSync destDir fs
        else Normal fs)
    (fun fs =>
       bind (Fs.mkdirSync destDir fs) (fun fs =>
         fold_left (publish_file destDir) fileMap (Normal (fs, 0%nat)))).

(** * Notions used in the further properties *)


(** The entry of a listing under a name. *)
Definition entry_of (name : string) (items : list (string * fsnode))
    : option fsnode :=
  Obj.get name items.


(** [filemaps[group]] is there: the test of the renaming [reduce]. *)
Definition known_group (group : string) : bool :=
  match Obj.get group filemaps with
  | Some (JStr _) => true
  | _ => false
  end.

(** The file map holds a text under a name. *)
Definition has_text (name : string) (files : obj) : Prop :=
  exists content, Obj.get name files = Some (JStr content).

(** The source that the snapshot loop merges for a year: the renamed
    groups of the year, or [undefined]. *)
Definition year_source (years : obj) (year : string) : completion (option json) :=
  match Obj.get year years with
  | None => Throws "TypeError"
  | Some groups =>
      bind (rename_groups (own_entries groups))
        (fun renamed => Normal (option_map JObj renamed))
  end.

(** * Properties *)

(** ** Own properties: reading after writing *)

Section ObjFacts.

Context {A : Type}.
Implicit Type o : list (string * A).

Lemma get_None_keys k o : Obj.get k o = None <-> k ∉ Obj.keys o.
Proof.
    induction o as [|[k' v] o IH]; simpl.
    - split; [intros _; apply not_elem_of_nil | done].
    - destruct (String.eqb_spec k k') as [->|Hne].
      + split; [done | intros H; exfalso; apply H; left].
      + rewrite IH, not_elem_of_cons. tauto.
Qed.

Lemma get_Some_keys k o v : Obj.get k o = Some v -> k ∈ Obj.keys o.
Proof.
    intros H. destruct (decide (k ∈ Obj.keys o)) as [|Hn]; [done|].
    apply get_None_keys in Hn. congruence.
Qed.

Lemma keys_get_Some k o : k ∈ Obj.keys o -> exists v, Obj.get k o = Some v.
Proof.
    intros H. destruct (Obj.get k o) eqn:E; [eauto|].
    apply get_None_keys in E. contradiction.
Qed.

Lemma has_true k o : Obj.has k o = true <-> k ∈ Obj.keys o.
Proof.
    unfold Obj.has. split.
    - destruct (Obj.get k o) eqn:E; [|done]. intros _. eapply get_Some_keys, E.
    - intros [v ->]%keys_get_Some. done.
Qed.

Lemma has_false k o : Obj.has k o = false <-> k ∉ Obj.keys o.
Proof.
    rewrite <- get_None_keys. unfold Obj.has.
    destruct (Obj.get k o); split; congruence.
Qed.

Lemma get_In k o v : Obj.get k o = Some v -> (k, v) ∈ o.
Proof.
    induction o as [|[k' v'] o IH]; simpl; [done|].
    destruct (String.eqb_spec k k') as [->|Hne].
    - intros [= ->]. left.
    - intros H. right. auto.
Qed.

Lemma In_get k o v : NoDup (Obj.keys o) -> (k, v) ∈ o -> Obj.get k o = Some v.
Proof.
    induction o as [|[k' v'] o IH]; simpl; intros Hnd Hin.
    - by apply elem_of_nil in Hin.
    - apply NoDup_cons in Hnd as [Hk Hnd].
      apply elem_of_cons in Hin as [[= -> ->]|Hin].
      + by rewrite String.eqb_refl.
      + destruct (String.eqb_spec k k') as [->|Hne]; [|auto].
        exfalso. apply Hk. change (k' ∈ map fst o).
        apply list_elem_of_fmap. by exists (k', v).
Qed.

Lemma keys_update k v o : Obj.keys (Obj.update k v o) = Obj.keys o.
Proof.
    induction o as [|[k' v'] o IH]; simpl; [done|].
    destruct (String.eqb_spec k k') as [->|Hne]; simpl; [done|].
    unfold Obj.keys in *. simpl. by rewrite IH.
Qed.

Lemma length_update k v o : length (Obj.update k v o) = length o.
Proof.
    pose proof (f_equal (@length string) (keys_update k v o)) as H.
    unfold Obj.keys in H. by rewrite !length_map in H.
Qed.

Lemma get_update_eq k v o :
    k ∈ Obj.keys o -> Obj.get k (Obj.update k v o) = Some v.
Proof.
    induction o as [|[k' v'] o IH]; simpl; intros Hin.
    - by apply elem_of_nil in Hin.
    - destruct (String.eqb_spec k k') as [->|Hne]; simpl.
      + by rewrite String.eqb_refl.
      + destruct (String.eqb_spec k k'); [done|].
        apply IH. apply elem_of_cons in Hin as [|]; done.
Qed.

Lemma get_update_ne k k' v o :
    k <> k' -> Obj.get k' (Obj.update k v o) = Obj.get k' o.
Proof.
    intros Hne. induction o as [|[k0 v0] o IH]; simpl; [done|].
    destruct (String.eqb_spec k k0) as [->|Hne0]; simpl.
    - destruct (String.eqb_spec k' k0); [congruence|done].
    - by rewrite IH.
Qed.

Lemma insert_index_perm n k v o : Obj.insert_index n k v o ≡ₚ (k, v) :: o.
Proof.
    induction o as [|[k' v'] o IH]; simpl; [done|].
    destruct (JsString.array_index k'); [|done].
    destruct (n0 <? n)%N; [|done].
    rewrite IH. apply Permutation_swap.
Qed.

Lemma insert_perm k v o : Obj.insert k v o ≡ₚ (k, v) :: o.
Proof.
    unfold Obj.insert. destruct (JsString.array_index k).
    - apply insert_index_perm.
    - by rewrite Permutation_app_comm.
Qed.

Lemma keys_insert_perm k v o : Obj.keys (Obj.insert k v o) ≡ₚ k :: Obj.keys o.
Proof. unfold Obj.keys. by rewrite insert_perm. Qed.

Lemma get_insert_index_eq n k v o :
    k ∉ Obj.keys o -> Obj.get k (Obj.insert_index n k v o) = Some v.
Proof.
    induction o as [|[k' v'] o IH]; simpl; intros Hk.
    - by rewrite String.eqb_refl.
    - apply not_elem_of_cons in Hk as [Hne Hk].
      destruct (JsString.array_index k'); simpl;
        [destruct (n0 <? n)%N; simpl|]; rewrite ?String.eqb_refl; try done.
      destruct (String.eqb_spec k k'); [done|auto].
Qed.

Lemma get_insert_index_ne n k k' v o :
    k <> k' -> Obj.get k' (Obj.insert_index n k v o) = Obj.get k' o.
Proof.
    intros Hne. induction o as [|[k0 v0] o IH]; simpl.
    - destruct (String.eqb_spec k' k); [congruence|done].
    - destruct (JsString.array_index k0); simpl;
        [destruct (n0 <? n)%N; simpl|];
        try (destruct (String.eqb_spec k' k); [congruence|done]).
      by rewrite IH.
Qed.

Lemma get_app k o o' :
    Obj.get k (o ++ o') =
    match Obj.get k o with Some v => Some v | None => Obj.get k o' end.
Proof.
    induction o as [|[k0 v0] o IH]; simpl; [done|].
    by destruct (String.eqb k k0).
Qed.

Lemma get_insert_eq k v o :
    k ∉ Obj.keys o -> Obj.get k (Obj.insert k v o) = Some v.
Proof.
    intros Hk. unfold Obj.insert. destruct (JsString.array_index k).
    - by apply get_insert_index_eq.
    - rewrite get_app. apply get_None_keys in Hk. rewrite Hk. simpl.
      by rewrite String.eqb_refl.
Qed.

Lemma get_insert_ne k k' v o :
    k <> k' -> Obj.get k' (Obj.insert k v o) = Obj.get k' o.
Proof.
    intros Hne. unfold Obj.insert. destruct (JsString.array_index k).
    - by apply get_insert_index_ne.
    - rewrite get_app. simpl.
      destruct (String.eqb_spec k' k); [congruence|].
      by destruct (Obj.get k' o).
Qed.

Lemma get_set_eq k v o : Obj.get k (Obj.set k v o) = Some v.
Proof.
    unfold Obj.set. destruct (Obj.has k o) eqn:E.
    - apply get_update_eq, has_true, E.
    - apply get_insert_eq, has_false, E.
Qed.

Lemma get_set_ne k k' v o : k <> k' -> Obj.get k' (Obj.set k v o) = Obj.get k' o.
Proof.
    intros Hne. unfold Obj.set. destruct (Obj.has k o).
    - by apply get_update_ne.
    - by apply get_insert_ne.
Qed.

Lemma get_set k k' v o :
    Obj.get k' (Obj.set k v o) = if String.eqb k' k then Some v else Obj.get k' o.
Proof.
    destruct (String.eqb_spec k' k) as [->|Hne].
    - apply get_set_eq.
    - apply get_set_ne. congruence.
Qed.

Lemma keys_set_old k v o : k ∈ Obj.keys o -> Obj.keys (Obj.set k v o) = Obj.keys o.
Proof.
    intros H. unfold Obj.set. apply has_true in H. rewrite H. apply keys_update.
Qed.

Lemma keys_set_new k v o : k ∉ Obj.keys o -> Obj.keys (Obj.set k v o) ≡ₚ k :: Obj.keys o.
Proof.
    intros H. unfold Obj.set. apply has_false in H. rewrite H.
    apply keys_insert_perm.
Qed.

Lemma elem_of_keys_set k k' v o :
    k' ∈ Obj.keys (Obj.set k v o) <-> k' = k \/ k' ∈ Obj.keys o.
Proof.
    destruct (decide (k ∈ Obj.keys o)) as [Hin|Hn].
    - rewrite keys_set_old by done. split; [auto|]. intros [->|]; done.
    - rewrite keys_set_new by done. apply elem_of_cons.
Qed.

Lemma NoDup_keys_set k v o : NoDup (Obj.keys o) -> NoDup (Obj.keys (Obj.set k v o)).
Proof.
    intros Hnd. destruct (decide (k ∈ Obj.keys o)) as [Hin|Hn].
    - by rewrite keys_set_old.
    - rewrite keys_set_new by done. by apply NoDup_cons.
Qed.

Lemma length_set_new k v o : k ∉ Obj.keys o -> length (Obj.set k v o) = S (length o).
Proof.
    intros H. pose proof (Permutation_length (keys_set_new k v o H)) as E.
    unfold Obj.keys in E. simpl in E. by rewrite !length_map in E.
Qed.

Lemma keys_modify k f o : Obj.keys (Obj.modify k f o) = Obj.keys o.
Proof. unfold Obj.modify. destruct (Obj.get k o); [apply keys_update|done]. Qed.

Lemma get_modify_eq k f o : Obj.get k (Obj.modify k f o) = f <$> Obj.get k o.
Proof.
    unfold Obj.modify. destruct (Obj.get k o) eqn:E; simpl; [|done].
    apply get_update_eq. eapply get_Some_keys, E.
Qed.

Lemma get_modify_ne k k' f o : k <> k' -> Obj.get k' (Obj.modify k f o) = Obj.get k' o.
Proof.
    intros Hne. unfold Obj.modify. destruct (Obj.get k o); [|done].
    by apply get_update_ne.
Qed.

End ObjFacts.

(** ** Well-formedness and the enumeration of own properties *)

Lemma existsb_eqb_elem k (ks : list string) :
  existsb (String.eqb k) ks = true <-> k ∈ ks.
Proof.
  induction ks as [|k' ks IH]; simpl.
  - split; [done | intros H; by apply elem_of_nil in H].
  - rewrite orb_true_iff, IH, elem_of_cons.
    destruct (String.eqb_spec k k'); split; intros [|]; auto; congruence.
Qed.

Lemma distinct_NoDup (ks : list string) : distinct ks = true <-> NoDup ks.
Proof.
  induction ks as [|k ks IH]; simpl.
  - split; [intros _; constructor | done].
  - rewrite andb_true_iff, negb_true_iff, IH, NoDup_cons.
    rewrite <- existsb_eqb_elem.
    destruct (existsb (String.eqb k) ks); split; intros [? ?]; split;
      congruence || done.
Qed.

Lemma dec_inj n m : JsString.dec n = JsString.dec m -> n = m.
Proof.
  unfold JsString.dec. intros H.
  apply (f_equal NilEmpty.uint_of_string) in H.
  rewrite !NilEmpty.usu in H. injection H as H.
  by apply DecimalN.Unsigned.to_uint_inj.
Qed.

Lemma of_index_inj i j : JsString.of_index i = JsString.of_index j -> i = j.
Proof. unfold JsString.of_index. intros H%dec_inj. lia. Qed.

Lemma keys_indexed {A} (l : list A) :
  Obj.keys (indexed l) = JsString.of_index <$> seq 0 (length l).
Proof.
  unfold Obj.keys, indexed. change (map fst) with (fmap (M:=list) (@fst string A)).
  rewrite fmap_imap. apply (imap_seq_0 l JsString.of_index).
Qed.

Lemma NoDup_keys_indexed {A} (l : list A) : NoDup (Obj.keys (indexed l)).
Proof.
  rewrite keys_indexed. apply NoDup_fmap_2; [|apply NoDup_seq].
  intros i j. apply of_index_inj.
Qed.

Lemma elem_of_indexed {A} k (x : A) (l : list A) : (k, x) ∈ indexed l -> x ∈ l.
Proof.
  unfold indexed. intros (i & y & [= -> ->] & Hl)%elem_of_lookup_imap_1.
  eapply list_elem_of_lookup_2, Hl.
Qed.

Lemma wf_JObj o :
  wf (JObj o) = true <->
  NoDup (Obj.keys o) /\ forall k x, (k, x) ∈ o -> wf x = true.
Proof.
  simpl. rewrite andb_true_iff, distinct_NoDup, forallb_forall.
  split; intros [Hnd Hall]; split; try done.
  - intros k x Hin. apply (Hall (k, x)). by apply list_elem_of_In.
  - intros [k x] Hin. apply (Hall k x). by apply list_elem_of_In.
Qed.

Lemma wf_JArr l : wf (JArr l) = true <-> forall x, x ∈ l -> wf x = true.
Proof.
  simpl. rewrite forallb_forall. split; intros H x Hx; apply H.
  - by apply list_elem_of_In.
  - by apply list_elem_of_In.
Qed.

Lemma wf_own_entries v :
  wf v = true ->
  NoDup (Obj.keys (own_entries v)) /\
  forall k x, (k, x) ∈ own_entries v -> wf x = true.
Proof.
  destruct v; simpl own_entries; intros Hwf;
    try (split; [constructor | intros ? ? H; by apply elem_of_nil in H]).
  - split; [apply NoDup_keys_indexed|].
    intros k x Hin%elem_of_indexed.
    apply list_elem_of_fmap in Hin as (c & -> & _). done.
  - split; [apply NoDup_keys_indexed|].
    intros k x Hin%elem_of_indexed. by apply (proj1 (wf_JArr elems) Hwf).
  - by apply wf_JObj.
Qed.

Lemma wf_prop k v x : wf v = true -> prop k v = Some x -> wf x = true.
Proof.
  intros Hwf Hget. apply wf_own_entries in Hwf as [_ Hall].
  eapply Hall, get_In, Hget.
Qed.

(** ** The pivot, read through its two levels *)

Lemma rows_nil : rows [].
Proof. intros k x H. discriminate. Qed.

Lemma invert_entry_get l1 inverted l2 value i :
  rows inverted ->
  Obj.get i (invert_entry l1 inverted (l2, value)) =
  if String.eqb i l2
  then Some (JObj (Obj.set l1 value
                     (match Obj.get l2 inverted with
                      | Some x => own_entries x
                      | None => []
                      end)))
  else Obj.get i inverted.
Proof.
  intros Hrows. unfold invert_entry.
  destruct (String.eqb_spec i l2) as [->|Hne].
  - rewrite get_modify_eq. unfold Obj.has.
    destruct (Obj.get l2 inverted) eqn:E; simpl;
      [by rewrite E | by rewrite get_set_eq].
  - rewrite get_modify_ne by congruence.
    destruct (Obj.has l2 inverted); [done|].
    apply get_set_ne. congruence.
Qed.

Lemma invert_entry_rows l1 inverted e :
  rows inverted -> rows (invert_entry l1 inverted e).
Proof.
  intros Hrows. destruct e as [l2 value]. intros k x.
  rewrite invert_entry_get by done.
  destruct (String.eqb k l2).
  - intros [= <-]. eexists; split; [done|].
    apply NoDup_keys_set.
    destruct (Obj.get l2 inverted) eqn:E; [|constructor].
    apply Hrows in E as (r & -> & Hnd). done.
  - apply Hrows.
Qed.

Lemma invert_entry_keys l1 inverted l2 value k :
  k ∈ Obj.keys (invert_entry l1 inverted (l2, value)) <->
  k = l2 \/ k ∈ Obj.keys inverted.
Proof.
  unfold invert_entry. rewrite keys_modify.
  destruct (Obj.has l2 inverted) eqn:E.
  - apply has_true in E. split; [auto|]. intros [->|]; done.
  - apply elem_of_keys_set.
Qed.

Lemma invert_entry_NoDup l1 inverted e :
  NoDup (Obj.keys inverted) -> NoDup (Obj.keys (invert_entry l1 inverted e)).
Proof.
  destruct e as [l2 value]. unfold invert_entry. rewrite keys_modify.
  destruct (Obj.has l2 inverted); [done|]. apply NoDup_keys_set.
Qed.

Lemma invert_entry_get2 l1 inverted l2 value i o :
  rows inverted ->
  get2 (invert_entry l1 inverted (l2, value)) i o =
  if String.eqb i l2 && String.eqb o l1 then Some value else get2 inverted i o.
Proof.
  intros Hrows. unfold get2. rewrite invert_entry_get by done.
  destruct (String.eqb_spec i l2) as [->|Hne]; simpl; [|done].
  unfold prop. simpl own_entries. rewrite get_set.
  destruct (String.eqb o l1); [done|].
  by destruct (Obj.get l2 inverted).
Qed.

Section InnerLoop.

Variable level1Key : string.

#[local] Arguments invert_entry : simpl never.

Lemma inner_rows es inverted :
    rows inverted -> rows (fold_left (invert_entry level1Key) es inverted).
Proof.
    revert inverted. induction es as [|e es IH]; simpl; intros inverted H; [done|].
    by apply IH, invert_entry_rows.
Qed.

Lemma inner_NoDup es inverted :
    NoDup (Obj.keys inverted) ->
    NoDup (Obj.keys (fold_left (invert_entry level1Key) es inverted)).
Proof.
    revert inverted. induction es as [|e es IH]; simpl; intros inverted H; [done|].
    by apply IH, invert_entry_NoDup.
Qed.

Lemma inner_keys es inverted k :
    k ∈ Obj.keys (fold_left (invert_entry level1Key) es inverted) <->
    k ∈ Obj.keys es \/ k ∈ Obj.keys inverted.
Proof.
    revert inverted. induction es as [|[l2 v] es IH]; intros inverted.
    - simpl. split; [auto|]. intros [H|H]; [by apply elem_of_nil in H | done].
    - cbn [fold_left]. rewrite IH, invert_entry_keys.
      change (Obj.keys ((l2, v) :: es)) with (l2 :: Obj.keys es).
      rewrite elem_of_cons. tauto.
Qed.

Lemma inner_get2 es inverted i o :
    rows inverted -> NoDup (Obj.keys es) ->
    get2 (fold_left (invert_entry level1Key) es inverted) i o =
    if String.eqb o level1Key
    then match Obj.get i es with
         | Some v => Some v
         | None => get2 inverted i o
         end
    else get2 inverted i o.
Proof.
    revert inverted. induction es as [|[l2 v] es IH]; simpl; intros inverted Hrows Hnd.
    - by destruct (String.eqb o level1Key).
    - apply NoDup_cons in Hnd as [Hl2 Hnd].
      rewrite IH by (done || by apply invert_entry_rows).
      rewrite invert_entry_get2 by done.
      destruct (String.eqb_spec i l2) as [->|Hne]; simpl.
      + apply get_None_keys in Hl2. rewrite Hl2.
        by destruct (String.eqb o level1Key).
      + done.
Qed.

End InnerLoop.

#[local] Arguments invert_entry : simpl never.

Lemma level1_object inv w l1 v :
  is_objectlike v = true ->
  invert_level1 (inv, w) (l1, v) =
  (fold_left (invert_entry l1) (own_entries v) inv, w).
Proof. intros H. unfold invert_level1. by rewrite H. Qed.

Lemma level1_scalar inv w l1 v :
  is_objectlike v = false -> invert_level1 (inv, w) (l1, v) = (inv, w ++ [l1]).
Proof. intros H. unfold invert_level1. by rewrite H. Qed.

Ltac level1_cases v E :=
  cbn [fold_left];
  destruct (is_objectlike v) eqn:E;
  [rewrite (level1_object _ _ _ _ E) | rewrite (level1_scalar _ _ _ _ E)].

Lemma outer_rows es st : rows (fst st) -> rows (fst (fold_left invert_level1 es st)).
Proof.
  revert st. induction es as [|[l1 v] es IH]; intros [inv w] H; [done|].
  level1_cases v E; apply IH; [by apply inner_rows | done].
Qed.

Lemma outer_NoDup es st :
  NoDup (Obj.keys (fst st)) -> NoDup (Obj.keys (fst (fold_left invert_level1 es st))).
Proof.
  revert st. induction es as [|[l1 v] es IH]; intros [inv w] H; [done|].
  level1_cases v E; apply IH; [by apply inner_NoDup | done].
Qed.

Lemma outer_warned es st :
  snd (fold_left invert_level1 es st) = snd st ++ skipped es.
Proof.
  revert st. induction es as [|[l1 v] es IH]; intros [inv w].
  - simpl. by rewrite app_nil_r.
  - unfold skipped. cbn [filter list_filter snd]. fold (skipped es).
    level1_cases v E; rewrite IH; simpl.
    + done.
    + by rewrite <- app_assoc.
Qed.

Lemma outer_keys es st k :
  k ∈ Obj.keys (fst (fold_left invert_level1 es st)) <->
  k ∈ Obj.keys (fst st) \/
  exists l1 v, (l1, v) ∈ es /\ is_objectlike v = true /\ k ∈ Obj.keys (own_entries v).
Proof.
  revert st. induction es as [|[l1 v] es IH]; intros [inv w].
  - simpl. split; [auto|].
    intros [H|(? & ? & H & _)]; [done | by apply elem_of_nil in H].
  - level1_cases v E; rewrite IH; cbn [fst].
    + rewrite inner_keys. split.
      * intros [[H|H]|(l & x & Hin & Hx)]; [right|left|right]; try done.
        -- exists l1, v. split; [left|done].
        -- exists l, x. split; [by right|done].
      * intros [H|(l & x & Hin & Hobj & Hk)]; [auto|].
        apply elem_of_cons in Hin as [[= -> ->]|Hin]; [auto|].
        right. by exists l, x.
    + split.
      * intros [H|(l & x & Hin & Hx)]; [auto|].
        right. exists l, x. split; [by right|done].
      * intros [H|(l & x & Hin & Hobj & Hk)]; [auto|].
        apply elem_of_cons in Hin as [[= -> ->]|Hin]; [congruence|].
        right. by exists l, x.
Qed.

Lemma outer_get2 es st i o :
  rows (fst st) -> NoDup (Obj.keys es) ->
  (forall k x, (k, x) ∈ es -> NoDup (Obj.keys (own_entries x))) ->
  get2 (fst (fold_left invert_level1 es st)) i o =
  match Obj.get o es with
  | Some v =>
      match oprop i v with
      | Some x => Some x
      | None => get2 (fst st) i o
      end
  | None => get2 (fst st) i o
  end.
Proof.
  revert st. induction es as [|[l1 v] es IH]; intros [inv w] Hrows Hnd Hall;
    [done|].
  change (Obj.keys ((l1, v) :: es)) with (l1 :: Obj.keys es) in Hnd.
  apply NoDup_cons in Hnd as [Hl1 Hnd].
  assert (Hv : NoDup (Obj.keys (own_entries v))) by (apply (Hall l1); left).
  assert (Hall' : forall k x, (k, x) ∈ es -> NoDup (Obj.keys (own_entries x)))
    by (intros k x Hin; apply (Hall k); by right).
  apply get_None_keys in Hl1.
  cbn [Obj.get]. unfold oprop at 1.
  level1_cases v E; (rewrite IH; [cbn [fst]|try done..]).
  - rewrite inner_get2 by done.
    destruct (String.eqb_spec o l1) as [->|Hne]; rewrite ?Hl1, ?E; done.
  - by apply inner_rows.
  - destruct (String.eqb_spec o l1) as [->|Hne]; rewrite ?Hl1, ?E; done.
Qed.

(** The pivot law: [inverseNestedObject(m)[inner][outer]] is
    [m[outer][inner]] when [m[outer]] is an object or an array, and is
    missing otherwise. *)
Lemma inverse_get2 m inner outer :
  wf m = true ->
  get2 (inverseNestedObject m) inner outer =
  match prop outer m with
  | Some v => oprop inner v
  | None => None
  end.
Proof.
  intros Hwf. apply wf_own_entries in Hwf as [Hnd Hall].
  unfold inverseNestedObject, inverseNestedObject_run.
  rewrite outer_get2; simpl.
  - unfold prop. destruct (Obj.get outer (own_entries m)); [|done].
    by destruct (oprop inner j).
  - apply rows_nil.
  - done.
  - intros k x Hin. by apply wf_own_entries, (Hall k).
Qed.

Lemma inverse_rows m : rows (inverseNestedObject m).
Proof. apply outer_rows, rows_nil. Qed.

Lemma inverse_NoDup m : NoDup (Obj.keys (inverseNestedObject m)).
Proof. apply outer_NoDup. constructor. Qed.

Lemma inverse_keys m k :
  k ∈ Obj.keys (inverseNestedObject m) <->
  exists l1 v, (l1, v) ∈ own_entries m /\ is_objectlike v = true /\
               k ∈ Obj.keys (own_entries v).
Proof.
  unfold inverseNestedObject, inverseNestedObject_run. rewrite outer_keys. simpl.
  split; [|auto]. intros [H|H]; [by apply elem_of_nil in H | done].
Qed.

Lemma inverse_warnings_skipped m : inverse_warnings m = skipped (own_entries m).
Proof. unfold inverse_warnings, inverseNestedObject_run. by rewrite outer_warned. Qed.

Lemma get2_Some o inner outer x :
  get2 o inner outer = Some x <->
  exists row, Obj.get inner o = Some row /\ prop outer row = Some x.
Proof.
  unfold get2. destruct (Obj.get inner o) as [row|]; split.
  - intros H. by exists row.
  - by intros (? & [= <-] & ?).
  - done.
  - by intros (? & ? & ?).
Qed.

Lemma oprop_Some k v x :
  oprop k v = Some x <-> is_objectlike v = true /\ prop k v = Some x.
Proof. unfold oprop. destruct (is_objectlike v); split; intros; try tauto; try done; by destruct H. Qed.

Lemma wf_inverse m : wf m = true -> wf (JObj (inverseNestedObject m)) = true.
Proof.
  intros Hwf. apply wf_JObj. split; [apply inverse_NoDup|].
  intros inner row Hin.
  pose proof (In_get _ _ _ (inverse_NoDup m) Hin) as Hget.
  destruct (inverse_rows m _ _ Hget) as (r & -> & Hnd).
  apply wf_JObj. split; [done|]. intros outer x Hx.
  assert (H2 : get2 (inverseNestedObject m) inner outer = Some x).
  { apply get2_Some. exists (JObj r). split; [done|]. by apply In_get. }
  rewrite inverse_get2 in H2 by done.
  destruct (prop outer m) as [v|] eqn:Ev; [|done].
  apply oprop_Some in H2 as [_ H2].
  eapply wf_prop; [|exact H2]. eapply wf_prop; [exact Hwf|exact Ev].
Qed.

(** ** Objects as finite maps *)

Lemma lookup_to_map o k : to_map o !! k = Obj.get k o.
Proof.
  unfold to_map. induction o as [|[k' v] o IH]; simpl; [done|].
  destruct (String.eqb_spec k k') as [->|Hne].
  - apply lookup_insert_eq.
  - rewrite lookup_insert_ne by congruence. done.
Qed.

Lemma lookup_to_map2 o k :
  to_map2 o !! k = (fun row => to_map (own_entries row)) <$> Obj.get k o.
Proof. unfold to_map2. by rewrite lookup_fmap, lookup_to_map. Qed.

(** ** The pivot contract *)

(** C6, counterexample: on [{a: [7]}] the array is not skipped; there is no
    warning, and its element comes out under the key of its position. *)
Lemma array_value_is_pivoted :
  ~ pivot_contract (JObj [("a", JArr [JNum 7])]).
Proof.
  intros [_ H].
  destruct (H "a" (JArr [JNum 7]) eq_refl eq_refl) as [Hin _].
  vm_compute in Hin. by apply elem_of_nil in Hin.
Qed.

Lemma elem_of_skipped es k :
  k ∈ skipped es <-> exists v, (k, v) ∈ es /\ is_objectlike v = false.
Proof.
  unfold skipped. rewrite list_elem_of_fmap. split.
  - intros ([k' v] & -> & Hin). apply list_elem_of_filter in Hin as [Hf Hin].
    exists v. split; [done|]. simpl in Hf. by destruct (is_objectlike v).
  - intros (v & Hin & Hv). exists (k, v). split; [done|].
    apply list_elem_of_filter. split; [|done]. simpl. by rewrite Hv.
Qed.

(** C6, as amended: for a document [m] whose property names are plain,
    [inverseNestedObject(m)[inner][outer]] is [m[outer][inner]] for every
    pair whose outer value is an object or an array (an array is read as the
    mapping from its positions to its elements); an outer key whose value is
    a scalar or [null] is warned about and leaves nothing in the output, and
    no other key is warned about. *)
Theorem inverseNestedObject_pivots (m : json) :
  wf m = true -> plain m = true ->
  (forall outer inner v,
      prop outer m = Some v -> is_objectlike v = true ->
      get2 (inverseNestedObject m) inner outer = prop inner v) /\
  (forall outer v,
      prop outer m = Some v -> is_objectlike v = false ->
      outer ∈ inverse_warnings m /\
      forall inner, get2 (inverseNestedObject m) inner outer = None) /\
  (forall outer,
      outer ∈ inverse_warnings m ->
      exists v, prop outer m = Some v /\ is_objectlike v = false).
Proof.
  intros Hwf _. split; [|split].
  - intros outer inner v Hv Hobj. rewrite inverse_get2 by done.
    rewrite Hv. unfold oprop. by rewrite Hobj.
  - intros outer v Hv Hobj. split.
    + rewrite inverse_warnings_skipped. apply elem_of_skipped.
      exists v. split; [|done]. by apply get_In.
    + intros inner. rewrite inverse_get2 by done.
      rewrite Hv. unfold oprop. by rewrite Hobj.
  - intros outer. rewrite inverse_warnings_skipped.
    intros (v & Hin & Hv)%elem_of_skipped. exists v. split; [|done].
    apply In_get; [|done]. by apply wf_own_entries.
Qed.

Lemma inverseNestedObject_pivots_witness :
  let m := JObj [("a", JObj [("x", JNum 1)]); ("b", JNum 2); ("c", JArr [JStr "y"])] in
  get2 (inverseNestedObject m) "x" "a" = Some (JNum 1) /\
  get2 (inverseNestedObject m) "0" "c" = Some (JStr "y") /\
  "b" ∈ inverse_warnings m.
Proof.
  intros m.
  destruct (inverseNestedObject_pivots m eq_refl eq_refl) as (H1 & H2 & _).
  split; [|split].
  - apply (H1 "a" "x" (JObj [("x", JNum 1)])); reflexivity.
  - apply (H1 "c" "0" (JArr [JStr "y"])); reflexivity.
  - apply (H2 "b" (JNum 2)); reflexivity.
Defined.

(** ** Pivoting twice *)

(** C7, counterexample: [{a: {}}] has no inner key at all, so its inner keys
    are unique, and two pivots return [{}]. *)
Lemma empty_row_is_lost :
  inner_keys_unique [("a", JObj [])] /\ ~ pivot_round_trip [("a", JObj [])].
Proof.
  split.
  - intros o1 o2 i x1 x2 H1 _. unfold get2 in H1. simpl in H1.
    destruct (String.eqb o1 "a"); simpl in H1; discriminate.
  - unfold pivot_round_trip. vm_compute. discriminate.
Qed.

(** The outer keys that two pivots keep. *)
Lemma twice_keys (o : obj) (outer : string) :
  wf (JObj o) = true ->
  outer ∈ Obj.keys (inverseNestedObject (JObj (inverseNestedObject (JObj o)))) <->
  exists v, Obj.get outer o = Some v /\ is_objectlike v = true /\ own_entries v <> [].
Proof.
  intros Hwf. set (p1 := inverseNestedObject (JObj o)).
  rewrite inverse_keys. cbn [own_entries]. split.
  - intros (inner & row & Hin & _ & [x Hx]%keys_get_Some).
    assert (H2 : get2 p1 inner outer = Some x).
    { apply get2_Some. exists row. split; [|done].
      apply In_get; [apply inverse_NoDup|done]. }
    unfold p1 in H2. rewrite inverse_get2 in H2 by done.
    change (prop outer (JObj o)) with (Obj.get outer o) in H2.
    destruct (Obj.get outer o) as [v|]; [|done].
    apply oprop_Some in H2 as [Hobj Hv]. exists v. split; [done|]. split; [done|].
    unfold prop in Hv. by destruct (own_entries v).
  - intros (v & Hv & Hobj & Hne).
    destruct (own_entries v) as [|[inner x] rest] eqn:Ev; [done|].
    assert (H2 : get2 p1 inner outer = Some x).
    { unfold p1. rewrite inverse_get2 by done.
      change (prop outer (JObj o)) with (Obj.get outer o). rewrite Hv.
      unfold oprop, prop. rewrite Hobj, Ev. cbn [Obj.get]. by rewrite String.eqb_refl. }
    apply get2_Some in H2 as (row & Hrow & Hx).
    exists inner, row. split; [by apply get_In|].
    destruct (inverse_rows _ _ _ Hrow) as (r & -> & _). split; [done|].
    by eapply get_Some_keys.
Qed.

(** C7, as amended: for a two-level mapping, with plain property names,
    whose outer values are all non-empty mappings, two pivots give a mapping
    with the same outer keys, the same inner keys under each of them and the
    same values, whether or not the inner keys are globally unique; only the
    enumeration order of the keys can differ, as it does on [reordered_rows].
    For every mapping, the two pivots keep an outer key exactly when its
    value is an object or an array with at least one key: an outer key whose
    mapping is empty is lost. *)
Theorem inverseNestedObject_twice (o : obj) :
  wf (JObj o) = true -> plain (JObj o) = true ->
  (full_rows o ->
   to_map2 (inverseNestedObject (JObj (inverseNestedObject (JObj o)))) = to_map2 o) /\
  (forall outer,
      outer ∈ Obj.keys (inverseNestedObject (JObj (inverseNestedObject (JObj o)))) <->
      exists v, Obj.get outer o = Some v /\ is_objectlike v = true /\
                own_entries v <> []) /\
  inverseNestedObject (JObj (inverseNestedObject (JObj reordered_rows)))
  = [("a", JObj [("y", JNum 1)]); ("b", JObj [("y", JNum 3); ("x", JNum 2)])].
Proof.
  intros Hwf _. split; [|split].
  2:{ intros outer. by apply twice_keys. }
  2:{ reflexivity. }
  intros Hfull.
  pose proof (wf_inverse _ Hwf) as Hwf1.
  set (p1 := inverseNestedObject (JObj o)) in *.
  assert (Hpair : forall outer inner,
             get2 (inverseNestedObject (JObj p1)) outer inner = get2 o outer inner).
  { intros outer inner. rewrite inverse_get2 by done.
    change (prop inner (JObj p1)) with (Obj.get inner p1).
    destruct (Obj.get inner p1) as [row|] eqn:Erow.
    - destruct (inverse_rows _ _ _ Erow) as (r & -> & _).
      change (oprop outer (JObj r)) with (prop outer (JObj r)).
      assert (H2 : get2 p1 inner outer = prop outer (JObj r))
        by (unfold get2; by rewrite Erow).
      rewrite <- H2. unfold p1. rewrite inverse_get2 by done.
      change (prop outer (JObj o)) with (Obj.get outer o). unfold get2.
      destruct (Obj.get outer o) as [v|] eqn:Ev; [|done].
      destruct (Hfull outer v (get_In _ _ _ Ev)) as (r' & -> & _). done.
    - unfold get2. destruct (Obj.get outer o) as [v|] eqn:Ev; [|done].
      destruct (Hfull outer v (get_In _ _ _ Ev)) as (r' & -> & _).
      destruct (prop inner (JObj r')) as [x|] eqn:Ex; [|done].
      assert (H2 : get2 p1 inner outer = Some x).
      { unfold p1. rewrite inverse_get2 by done.
        change (prop outer (JObj o)) with (Obj.get outer o).
        rewrite Ev. done. }
      unfold get2 in H2. by rewrite Erow in H2. }
  apply map_eq. intros outer. rewrite !lookup_to_map2.
  destruct (Obj.get outer o) as [v|] eqn:Ev.
  - destruct (Hfull outer v (get_In _ _ _ Ev)) as (r & -> & Hne).
    destruct r as [|[inner x] r]; [done|].
    assert (Hx : get2 o outer inner = Some x).
    { unfold get2. rewrite Ev. unfold prop. simpl. by rewrite String.eqb_refl. }
    rewrite <- Hpair in Hx. apply get2_Some in Hx as (row & Hrow & _).
    rewrite Hrow. cbn [fmap option_fmap option_map]. f_equal.
    apply map_eq. intros i. rewrite !lookup_to_map.
    pose proof (Hpair outer i) as Hi. unfold get2 in Hi.
    by rewrite Hrow, Ev in Hi.
  - destruct (Obj.get outer (inverseNestedObject (JObj p1))) as [row|] eqn:Erow;
      [|done].
    exfalso.
    pose proof (get_Some_keys _ _ _ Erow) as Hk.
    apply inverse_keys in Hk as (inner & v & Hin & Hobj & Hk').
    apply keys_get_Some in Hk' as [x Hx].
    assert (H2 : get2 p1 inner outer = Some x).
    { apply get2_Some. exists v. split; [|done].
      apply In_get; [apply inverse_NoDup|done]. }
    unfold p1 in H2. rewrite inverse_get2 in H2 by done.
    change (prop outer (JObj o)) with (Obj.get outer o) in H2.
    by rewrite Ev in H2.
Qed.

Lemma inverseNestedObject_twice_witness :
  let o := [("a", JObj [("z", JNum 1)]); ("b", JObj [("0", JNum 2)])] in
  to_map2 (inverseNestedObject (JObj (inverseNestedObject (JObj o)))) = to_map2 o /\
  "a" ∉ Obj.keys (inverseNestedObject (JObj (inverseNestedObject
                    (JObj [("a", JObj []); ("b", JObj [("x", JNum 1)])])))).
Proof.
  intros o. split.
  - apply (proj1 (inverseNestedObject_twice o eq_refl eq_refl)).
    intros k v Hin. unfold o in Hin.
    repeat (apply elem_of_cons in Hin as [[= -> ->]|Hin];
            [eexists; split; [reflexivity|discriminate]|]).
    by apply elem_of_nil in Hin.
  - intros Hin.
    apply (proj1 (proj2 (inverseNestedObject_twice
                           [("a", JObj []); ("b", JObj [("x", JNum 1)])]
                           eq_refl eq_refl))) in Hin as (v & [= <-] & _ & Hne).
    by apply Hne.
Defined.

(** ** [deepMerge] on one source *)

(** The recursive call of [deepMerge] on two objects is the loop over the
    keys of the source. *)
Lemma merged_value_objects source target :
  merged_value (JObj source) (Some (JObj target)) =
  JObj (fold_left merge_key source target).
Proof.
  cbn [merged_value]. f_equal. revert target.
  induction source as [|[key sv] rest IH]; intros target; [done|].
  cbn [fold_left]. rewrite IH. done.
Qed.

Lemma clone_id v : Json.clone v = v.
Proof.
  revert v. fix IH 1. intros [| | | |l|o]; cbn [Json.clone]; try done.
  - f_equal. induction l as [|x l IHl]; [done|].
    cbn [map]. by rewrite IH, IHl.
  - f_equal. induction o as [|[k x] o IHo]; [done|].
    by rewrite IH, IHo.
Qed.

(** C9, counterexample: a string source is enumerated by position, and each
    of its characters is written into the target. *)
Lemma string_source_is_spread : ~ merge_ignores [] (Some (JStr "ab")).
Proof. intros H. specialize (H eq_refl). vm_compute in H. discriminate. Qed.

(** A source over which the loop finds no key leaves the target as it
    is. *)
Lemma keyless_source (t : obj) (s : option json) :
  keyless s = true -> deepMerge t [s] = t.
Proof.
  destruct s as [[| | |s| |]|]; simpl; try done.
  destruct (String.eqb_spec s ""); [subst; done | done].
Qed.

(** ** The two tree loaders and hidden entries *)

Section LoaderFacts.

Variable JSON_parse : string -> option json.

Lemma file_items_cons item node rest tree :
  file_items JSON_parse ((item, node) :: rest) tree =
  file_items JSON_parse rest
    (match top_entry JSON_parse node with
     | Some v => Obj.set item v tree
     | None => tree
     end).
Proof.
  destruct node; cbn [file_items top_entry]; try done.
  by destruct (0 <? _)%nat.
Qed.

Lemma file_items_other items tree name :
  name ∉ map fst items ->
  Obj.get name (file_items JSON_parse items tree) = Obj.get name tree.
Proof.
  revert tree. induction items as [|[item node] rest IH]; intros tree Hn; [done|].
  cbn [map fst] in Hn. apply not_elem_of_cons in Hn as [Hne Hn].
  rewrite file_items_cons, IH by done.
  destruct (top_entry JSON_parse node); [|done]. apply get_set_ne. congruence.
Qed.

Lemma file_items_get items tree name node v :
  NoDup (map fst items) -> (name, node) ∈ items -> top_entry JSON_parse node = Some v ->
  Obj.get name (file_items JSON_parse items tree) = Some v.
Proof.
  revert tree. induction items as [|[item x] rest IH]; intros tree Hnd Hin Hv.
  - by apply elem_of_nil in Hin.
  - cbn [map fst] in Hnd. apply NoDup_cons in Hnd as [Hitem Hnd].
    rewrite file_items_cons.
    apply elem_of_cons in Hin as [[= -> ->]|Hin].
    + rewrite file_items_other by done. rewrite Hv. apply get_set_eq.
    + by apply IH.
Qed.

Lemma json_items_hidden rec items tree name :
  JsString.startsWith "." name = true ->
  Obj.get name (json_items JSON_parse rec items tree) = Obj.get name tree.
Proof.
  intros Hdot. revert tree.
  induction items as [|[item node] rest IH]; intros tree; [done|].
  cbn [json_items].
  destruct (JsString.startsWith "." item) eqn:E; [apply IH|].
  assert (Hne : item <> name) by (intros ->; congruence).
  destruct node as [c|sub|].
  - destruct (JsString.endsWith ".json" item); [|apply IH].
    destruct (JSON_parse c); [|apply IH].
    rewrite IH. by apply get_set_ne.
  - destruct (0 <? _)%nat; [|apply IH]. rewrite IH. by apply get_set_ne.
  - apply IH.
Qed.

Lemma json_items_visible items tree :
  Forall (fun e => createJsonObjectTree JSON_parse (snd e) =
                   createJsonObjectTree JSON_parse (visible (snd e))) items ->
  json_items JSON_parse (createJsonObjectTree JSON_parse) items tree =
  json_items JSON_parse (createJsonObjectTree JSON_parse)
    (strip_hidden visible items) tree.
Proof.
  intros Hall. revert tree.
  induction Hall as [|[item node] rest Hnode _ IH]; intros tree; [done|].
  cbn [json_items strip_hidden].
  destruct (JsString.startsWith "." item) eqn:E; [apply IH|].
  cbn [json_items]. rewrite E. simpl in Hnode.
  destruct node as [c|sub|].
  - cbn [visible].
    destruct (JsString.endsWith ".json" item); [|apply IH].
    destruct (JSON_parse c); apply IH.
  - change (visible (FDir sub)) with (FDir (strip_hidden visible sub)) in *.
    rewrite <- Hnode. destruct (0 <? _)%nat; apply IH.
  - apply IH.
Qed.

Lemma createJsonObjectTree_visible dir :
  createJsonObjectTree JSON_parse dir =
  createJsonObjectTree JSON_parse (visible dir).
Proof.
  revert dir. fix IH 1. intros [c|items|]; [done| |done].
  cbn [createJsonObjectTree visible]. apply json_items_visible.
  induction items as [|[item node] rest IHitems]; constructor; [apply IH|done].
Qed.

(** C10: [createFileTree] keeps a dot-prefixed entry of the directory it is
    given, a file as its content and a directory as its non-empty JSON
    subtree, while [createJsonObjectTree] gives no key to such an entry and
    returns the tree it would return if no dot-prefixed entry existed at any
    level. *)
Theorem hidden_entries_kept_by_createFileTree_only
    (items : list (string * fsnode)) (name : string) (node : fsnode) :
  NoDup (map fst items) -> (name, node) ∈ items ->
  JsString.startsWith "." name = true ->
  match node with
  | FFile contentString =>
      Obj.get name (createFileTree JSON_parse (FDir items))
      = Some (JStr contentString)
  | FDir _ =>
      createJsonObjectTree JSON_parse node <> [] ->
      Obj.get name (createFileTree JSON_parse (FDir items))
      = Some (JObj (createJsonObjectTree JSON_parse node))
  | FOther => True
  end /\
  Obj.get name (createJsonObjectTree JSON_parse (FDir items)) = None /\
  forall dir, createJsonObjectTree JSON_parse dir
              = createJsonObjectTree JSON_parse (visible dir).
Proof.
  intros Hnd Hin Hdot. split; [|split].
  - destruct node as [c|sub|]; [| |done].
    + by apply (file_items_get items [] name (FFile c)).
    + intros Hne. apply (file_items_get items [] name (FDir sub)); [done..|].
      cbn [top_entry].
      destruct (createJsonObjectTree JSON_parse (FDir sub)); [done|done].
  - cbn [createJsonObjectTree]. by rewrite json_items_hidden.
  - apply createJsonObjectTree_visible.
Qed.

End LoaderFacts.

Lemma hidden_entries_kept_by_createFileTree_only_witness :
  let parse := fun s : string => if String.eqb s "1" then Some (JNum 1) else None in
  let items := [(".nojekyll", FFile ""); (".cfg", FDir [("a.json", FFile "1")]);
                ("index.js", FFile "x")] in
  Obj.get ".nojekyll" (createFileTree parse (FDir items)) = Some (JStr "") /\
  Obj.get ".nojekyll" (createJsonObjectTree parse (FDir items)) = None.
Proof.
  intros parse items.
  assert (Hnd : NoDup (map fst items)).
  { apply distinct_NoDup. reflexivity. }
  destruct (hidden_entries_kept_by_createFileTree_only parse items
              ".nojekyll" (FFile "") Hnd) as (H1 & H2 & _).
  - left.
  - reflexivity.
  - split; [exact H1 | exact H2].
Defined.

(** ** The two names of a step of the snapshot builder *)

Lemma append_inj_l (s a b : string) : (s ++ a)%string = (s ++ b)%string -> a = b.
Proof. induction s as [|c s IH]; simpl; [done|]. intros [= H]. auto. Qed.

Lemma from_last_differ platform year index :
  fromfilename platform year <> lastfilename platform index.
Proof.
  unfold fromfilename, lastfilename. intros H.
  apply (append_inj_l "platform/") in H. apply append_inj_l in H.
  simpl in H. discriminate.
Qed.

(** ** A group outside the rename table *)

(** C4, the defect at work.  The callback of the renaming [reduce] returns
    its accumulator only inside the [if]: after a group that is not in
    [filemaps] the accumulator is [undefined].  When that group is the last
    one of its year, nothing of the year is merged, the known groups
    included; when a known group follows it, the assignment throws and the
    run ends without output. *)
Theorem unknown_group_is_not_dropped_alone :
  (forall v w, rename_groups [("classes.json", v); ("notes.json", w)] = Normal None) /\
  (forall v w, rename_groups [("notes.json", w); ("values.json", v)] = Throws "TypeError") /\
  main sample_parse
    (Some (FDir [("browser", FDir [("webkit", FDir [("2024", FDir
       [("classes.json", FFile bar_text); ("notes.json", FFile "{}")])])])]))
    (FDir [])
  = Normal
      [("platform/browser--from-2024.json", JStr "{}");
       ("platform/browser--last-0001.json", JStr "{}");
       ("index.json",
        JStr (Json.text "{'browser':{'from':{'2024':'platform/browser--from-2024.json'},'last':{'1 year':'platform/browser--last-0001.json'}}}"))] /\
  main sample_parse
    (Some (FDir [("browser", FDir [("webkit", FDir [("2024", FDir
       [("notes.json", FFile "{}"); ("values.json", FFile bar_text)])])])]))
    (FDir [])
  = Throws "TypeError".
Proof. repeat split; intros; vm_compute; reflexivity. Qed.

(** ** The end-to-end example *)

(** C1, counterexample: on [webkit/<year>/classes.json] the keys that the
    snapshot loop walks are the file names, and the leaves, being strings,
    are skipped by the third pivot; the run writes one empty snapshot named
    after [classes.json] and none named after a year. *)
Lemma example_by_year_has_no_year_snapshots : ~ end_to_end_claim.
Proof.
  intros H.
  destruct (H sample_parse [] eq_refl eq_refl) as (ff & im & Hmain & H2024 & _).
  vm_compute in Hmain. injection Hmain as <-.
  vm_compute in H2024. discriminate.
Qed.

Lemma load_registry_by_vendor JSON_parse :
  JSON_parse foo_text = Some foo_json -> JSON_parse bar_text = Some bar_json ->
  createJsonObjectTree JSON_parse registry_by_vendor =
  [("browser", JObj [("webkit", JObj
      [("2023", JObj [("classes.json", foo_json)]);
       ("2024", JObj [("classes.json", bar_json)])])])].
Proof.
  unfold registry_by_vendor, registry_by_year, two_years.
  generalize foo_text, bar_text. intros ft bt Hfoo Hbar.
  cbn. rewrite Hfoo, Hbar. reflexivity.
Qed.

Lemma build_registry_by_vendor (site : obj) :
  build_all
    [("browser", JObj [("webkit", JObj
        [("2023", JObj [("classes.json", foo_json)]);
         ("2024", JObj [("classes.json", bar_json)])])])] site =
  Normal (example_indexmap,
          Obj.set "platform/browser--last-0002.json" (JStr snapshot_2023)
            (Obj.set "platform/browser--from-2023.json" (JStr snapshot_2023)
               (Obj.set "platform/browser--last-0001.json" (JStr snapshot_2024)
                  (Obj.set "platform/browser--from-2024.json" (JStr snapshot_2024)
                     site)))).
Proof. vm_compute. reflexivity. Qed.

(** C1, as amended: with the two files at [browser/webkit/2023/classes.json]
    and [browser/webkit/2024/classes.json], whatever the site directory
    holds, a run hands over [platform/browser--from-2024.json] with
    [{"classes":{"bar":{"webkit":"-webkit-bar"}}}],
    [platform/browser--from-2023.json] with
    [{"classes":{"bar":{"webkit":"-webkit-bar"},"foo":{"webkit":"-webkit-foo"}}}],
    and an [index.json] whose [browser.from] maps ["2023"] and ["2024"] to
    these two names. *)
Theorem example_by_vendor (JSON_parse : string -> option json)
    (site : list (string * fsnode)) :
  JSON_parse foo_text = Some foo_json -> JSON_parse bar_text = Some bar_json ->
  exists finalfiles indexmap,
    main JSON_parse (Some registry_by_vendor) (FDir site) = Normal finalfiles /\
    Obj.get "platform/browser--from-2024.json" finalfiles = Some (JStr snapshot_2024) /\
    Obj.get "platform/browser--from-2023.json" finalfiles = Some (JStr snapshot_2023) /\
    Obj.get "index.json" finalfiles = Some (JStr (Json.stringify indexmap)) /\
    opath ["browser"; "from"; "2023"] indexmap
    = Some (JStr "platform/browser--from-2023.json") /\
    opath ["browser"; "from"; "2024"] indexmap
    = Some (JStr "platform/browser--from-2024.json").
Proof.
  intros Hfoo Hbar. eexists. exists (JObj example_indexmap).
  split.
  - unfold main. change registry_by_vendor with (FDir [("browser", registry_by_year)]).
    cbv beta iota.
    change (FDir [("browser", registry_by_year)]) with registry_by_vendor.
    rewrite (load_registry_by_vendor _ Hfoo Hbar).
    rewrite build_registry_by_vendor. cbn [bind]. reflexivity.
  - repeat split; try reflexivity.
    + rewrite !get_set_ne by discriminate. apply get_set_eq.
    + rewrite !get_set_ne by discriminate. apply get_set_eq.
    + apply get_set_eq.
Qed.

Lemma example_by_vendor_witness :
  exists finalfiles,
    main sample_parse (Some registry_by_vendor) (FDir []) = Normal finalfiles /\
    Obj.get "platform/browser--from-2024.json" finalfiles = Some (JStr snapshot_2024).
Proof.
  destruct (example_by_vendor sample_parse [] eq_refl eq_refl)
    as (ff & im & H1 & H2 & _).
  exists ff. split; [exact H1 | exact H2].
Defined.

(** ** The nested [reduce] calls as rebuilt objects *)

Lemma fold_left_pointwise {A B} (f g : A -> B -> A) l a :
  (forall a b, f a b = g a b) -> fold_left f l a = fold_left g l a.
Proof.
  intros H. revert a. induction l as [|b l IH]; intros a; [done|].
  simpl. by rewrite H, IH.
Qed.

Section Rebuild.

Variable f : string -> json -> json.

Lemma rebuild_get es acc k :
  NoDup (Obj.keys es) ->
  Obj.get k (fold_left (rebuild_step f) es acc) =
  match Obj.get k es with
  | Some v => Some (f k v)
  | None => Obj.get k acc
  end.
Proof.
  revert acc. induction es as [|[k' v] es IH]; intros acc Hnd; [done|].
  change (Obj.keys ((k', v) :: es)) with (k' :: Obj.keys es) in Hnd.
  apply NoDup_cons in Hnd as [Hk' Hnd].
  cbn [fold_left Obj.get]. rewrite IH by done. unfold rebuild_step. cbn [fst snd].
  destruct (String.eqb_spec k k') as [->|Hne].
  - apply get_None_keys in Hk'. rewrite Hk'. apply get_set_eq.
  - destruct (Obj.get k es); [done|]. apply get_set_ne. congruence.
Qed.

Lemma rebuild_keys es acc k :
  k ∈ Obj.keys (fold_left (rebuild_step f) es acc) <->
  k ∈ Obj.keys es \/ k ∈ Obj.keys acc.
Proof.
  revert acc. induction es as [|[k' v] es IH]; intros acc.
  - simpl. split; [auto|]. intros [H|H]; [by apply elem_of_nil in H|done].
  - cbn [fold_left]. rewrite IH. unfold rebuild_step. cbn [fst snd].
    rewrite elem_of_keys_set.
    change (Obj.keys ((k', v) :: es)) with (k' :: Obj.keys es).
    rewrite elem_of_cons. tauto.
Qed.

Lemma rebuild_NoDup es acc :
  NoDup (Obj.keys acc) -> NoDup (Obj.keys (fold_left (rebuild_step f) es acc)).
Proof.
  revert acc. induction es as [|[k' v] es IH]; intros acc H; [done|].
  cbn [fold_left]. apply IH. by apply NoDup_keys_set.
Qed.

Lemma rebuild_length es :
  NoDup (Obj.keys es) -> length (fold_left (rebuild_step f) es []) = length es.
Proof.
  intros Hnd.
  assert (H : forall acc,
             (forall k, k ∈ Obj.keys es -> k ∉ Obj.keys acc) ->
             length (fold_left (rebuild_step f) es acc) = (length es + length acc)%nat).
  { clear -Hnd. induction es as [|[k' v] es IH]; intros acc Hdisj; [done|].
    change (Obj.keys ((k', v) :: es)) with (k' :: Obj.keys es) in *.
    apply NoDup_cons in Hnd as [Hk' Hnd].
    cbn [fold_left]. rewrite IH; [|done|].
    - unfold rebuild_step. cbn [fst snd length].
      rewrite length_set_new; [lia|]. apply Hdisj. left.
    - intros k Hk. unfold rebuild_step. cbn [fst snd].
      rewrite elem_of_keys_set. intros [->|Hacc]; [done|].
      apply (Hdisj k); [by right|done]. }
  rewrite H; [simpl; lia|]. intros k _. apply not_elem_of_nil.
Qed.

End Rebuild.

Lemma switch3_rebuild k2 es acc :
  fold_left (switch3 k2) es acc =
  fold_left (rebuild_step (fun _ => extra k2)) es acc.
Proof. apply fold_left_pointwise. by intros o [k v]. Qed.

Lemma switch2_rebuild es acc :
  fold_left switch2 es acc = fold_left (rebuild_step pivot3) es acc.
Proof. apply fold_left_pointwise. by intros o [k v]. Qed.

Lemma switch1_rebuild es acc :
  fold_left switch1 es acc = fold_left (rebuild_step (fun _ => pivot2)) es acc.
Proof. apply fold_left_pointwise. by intros o [k v]. Qed.

Lemma switch0_rebuild es acc :
  fold_left switch0 es acc = fold_left (rebuild_step (fun _ => pivot1)) es acc.
Proof. apply fold_left_pointwise. by intros o [k v]. Qed.

Lemma switched_get tree p :
  NoDup (Obj.keys tree) ->
  Obj.get p (switched tree) = pivot1 <$> Obj.get p tree.
Proof.
  intros Hnd. unfold switched. rewrite switch0_rebuild, rebuild_get by done.
  by destruct (Obj.get p tree).
Qed.

Lemma switched_NoDup tree : NoDup (Obj.keys (switched tree)).
Proof. unfold switched. rewrite switch0_rebuild. apply rebuild_NoDup. constructor. Qed.

Lemma switched_In tree p years :
  NoDup (Obj.keys tree) -> (p, years) ∈ switched tree ->
  exists v0, Obj.get p tree = Some v0 /\ years = pivot1 v0.
Proof.
  intros Hnd Hin. apply In_get in Hin; [|apply switched_NoDup].
  rewrite switched_get in Hin by done.
  destruct (Obj.get p tree) as [v0|]; [|done]. injection Hin as <-. eauto.
Qed.

Lemma pivot1_get v0 k1 :
  Obj.get k1 (own_entries (pivot1 v0)) =
  pivot2 <$> Obj.get k1 (inverseNestedObject v0).
Proof.
  unfold pivot1. cbn [own_entries].
  rewrite switch1_rebuild, rebuild_get by apply inverse_NoDup.
  by destruct (Obj.get k1 (inverseNestedObject v0)).
Qed.

Lemma pivot2_get v1 k2 :
  Obj.get k2 (own_entries (pivot2 v1)) =
  pivot3 k2 <$> Obj.get k2 (inverseNestedObject v1).
Proof.
  unfold pivot2. cbn [own_entries].
  rewrite switch2_rebuild, rebuild_get by apply inverse_NoDup.
  by destruct (Obj.get k2 (inverseNestedObject v1)).
Qed.

Lemma pivot3_get k2 v2 k3 :
  Obj.get k3 (own_entries (pivot3 k2 v2)) =
  extra k2 <$> Obj.get k3 (inverseNestedObject v2).
Proof.
  unfold pivot3. cbn [own_entries].
  rewrite switch3_rebuild, rebuild_get by apply inverse_NoDup.
  by destruct (Obj.get k3 (inverseNestedObject v2)).
Qed.

Lemma pivot1_keys v0 :
  NoDup (Obj.keys (own_entries (pivot1 v0))) /\
  (forall k, k ∈ Obj.keys (own_entries (pivot1 v0)) <->
             k ∈ Obj.keys (inverseNestedObject v0)) /\
  length (own_entries (pivot1 v0)) = length (inverseNestedObject v0).
Proof.
  unfold pivot1. cbn [own_entries]. rewrite switch1_rebuild.
  split; [apply rebuild_NoDup; constructor|]. split.
  - intros k. rewrite rebuild_keys. split; [|auto].
    intros [H|H]; [done | by apply elem_of_nil in H].
  - apply rebuild_length, inverse_NoDup.
Qed.

(** ** Where the extra pivot falls *)

Lemma inverse_row m i :
  wf m = true ->
  match Obj.get i (inverseNestedObject m) with
  | Some row =>
      is_objectlike row = true /\ wf row = true /\
      forall o, prop o row = through m o i
  | None => forall o, through m o i = None
  end.
Proof.
  intros Hwf.
  pose proof (fun o => inverse_get2 m i o Hwf) as H2. unfold get2 in H2.
  destruct (Obj.get i (inverseNestedObject m)) as [row|] eqn:E.
  - destruct (inverse_rows _ _ _ E) as (r & -> & _). split; [done|]. split; [|done].
    eapply (wf_prop i (JObj (inverseNestedObject m))); [by apply wf_inverse|done].
  - intros o. unfold through. by rewrite <- H2.
Qed.

Lemma oprop_JObj k o : oprop k (JObj o) = Obj.get k o.
Proof. done. Qed.

Lemma through_guard m a b : through m a b = oprop a m ≫= oprop b.
Proof.
  unfold through.
  change (oprop a m) with (if is_objectlike m then prop a m else None).
  destruct (is_objectlike m) eqn:E; [done|].
  destruct m; try done. unfold prop. cbn [own_entries mbind option_bind].
  destruct (Obj.get a _) as [x|] eqn:Ex; [|done].
  apply get_In, elem_of_indexed, list_elem_of_fmap in Ex as (c & -> & _). done.
Qed.

(** C5, counterexample: for [webkit/2023/values.json] the entry of the
    values payload comes out of the three generic pivots and is stored as it
    is, without a fourth pivot. *)
Lemma values_file_by_year_not_pivoted :
  ~ extra_pivot_by_group
      [("webkit", JObj [("2023", JObj [("values.json",
          JObj [("display", JObj [("flex", JObj [("x", JStr "-webkit-x")])])])])])].
Proof.
  intros H.
  specialize (H "webkit" "values.json" "display" "flex"
                (JObj [("2023", JObj [("x", JStr "-webkit-x")])]) eq_refl).
  vm_compute in H. discriminate.
Qed.

Lemma oprop_pivot1 v0 k1 :
  oprop k1 (pivot1 v0) = pivot2 <$> Obj.get k1 (inverseNestedObject v0).
Proof. apply pivot1_get. Qed.

Lemma oprop_pivot2 v1 k2 :
  oprop k2 (pivot2 v1) = pivot3 k2 <$> Obj.get k2 (inverseNestedObject v1).
Proof. apply pivot2_get. Qed.

Lemma oprop_pivot3 k2 v2 k3 :
  oprop k3 (pivot3 k2 v2) = extra k2 <$> Obj.get k3 (inverseNestedObject v2).
Proof. apply pivot3_get. Qed.

Lemma switched_path tree p k1 k2 k3 :
  NoDup (Obj.keys tree) ->
  opath [p; k1; k2; k3] (JObj (switched tree)) =
  extra k2 <$> generic3 tree p k1 k2 k3.
Proof.
  intros Hnd. unfold generic3. cbn [opath]. rewrite oprop_JObj, switched_get by done.
  destruct (Obj.get p tree) as [v0|]; [|done].
  cbn [fmap option_fmap option_map mbind option_bind].
  rewrite oprop_pivot1.
  destruct (Obj.get k1 (inverseNestedObject v0)) as [v1|]; [|done].
  cbn [fmap option_fmap option_map mbind option_bind].
  rewrite oprop_pivot2.
  destruct (Obj.get k2 (inverseNestedObject v1)) as [v2|]; [|done].
  cbn [fmap option_fmap option_map mbind option_bind].
  rewrite oprop_pivot3.
  by destruct (Obj.get k3 (inverseNestedObject v2)).
Qed.

(** After the three generic pivots the first key of the registry has moved
    below the next three. *)
Lemma generic3_leaf tree p a k1 k2 k3 :
  wf (JObj tree) = true ->
  (generic3 tree p k1 k2 k3 ≫= prop a) = opath [p; a; k1; k2; k3] (JObj tree).
Proof.
  intros Hwf.
  assert (Hright : forall v0,
             opath [a; k1; k2; k3] v0 =
             through v0 a k1 ≫= fun x => oprop k2 x ≫= oprop k3).
  { intros v0. rewrite through_guard. cbn [opath].
    destruct (oprop a v0) as [x|]; [|done]. cbn [mbind option_bind].
    destruct (oprop k1 x) as [y|]; [|done]. cbn [mbind option_bind].
    destruct (oprop k2 y) as [z|]; [|done]. cbn [mbind option_bind].
    by destruct (oprop k3 z). }
  unfold generic3. change (opath [p; a; k1; k2; k3] (JObj tree))
    with (match Obj.get p tree with
          | Some v0 => opath [a; k1; k2; k3] v0
          | None => None
          end).
  destruct (Obj.get p tree) as [v0|] eqn:E0; [|done].
  assert (Hwf0 : wf v0 = true) by (eapply (wf_prop p (JObj tree)); done).
  rewrite Hright. cbn [mbind option_bind].
  pose proof (inverse_row v0 k1 Hwf0) as H1.
  destruct (Obj.get k1 (inverseNestedObject v0)) as [v1|];
    [|by rewrite H1].
  destruct H1 as (_ & Hwf1 & H1). rewrite <- H1. cbn [mbind option_bind].
  pose proof (inverse_row v1 k2 Hwf1) as H2.
  assert (Hv1 : (prop a v1 ≫= fun x => oprop k2 x ≫= oprop k3)
                = through v1 a k2 ≫= oprop k3).
  { unfold through. by destruct (prop a v1). }
  rewrite Hv1.
  destruct (Obj.get k2 (inverseNestedObject v1)) as [v2|];
    [|by rewrite H2].
  destruct H2 as (_ & Hwf2 & H2). rewrite <- H2. cbn [mbind option_bind].
  pose proof (inverse_row v2 k3 Hwf2) as H3.
  change (prop a v2 ≫= oprop k3) with (through v2 a k3).
  destruct (Obj.get k3 (inverseNestedObject v2)) as [v3|];
    [|by rewrite H3].
  destruct H3 as (_ & _ & H3). cbn [mbind option_bind]. apply H3.
Qed.

Lemma opath_snoc ks k v : opath (ks ++ [k]) v = opath ks v ≫= oprop k.
Proof.
  revert v. induction ks as [|k' ks IH]; intros v; cbn [opath app].
  - cbn [mbind option_bind]. by destruct (oprop k v).
  - destruct (oprop k' v); [apply IH|done].
Qed.

Lemma generic3_row tree p k1 k2 k3 v3 :
  wf (JObj tree) = true -> generic3 tree p k1 k2 k3 = Some v3 ->
  wf v3 = true /\ is_objectlike v3 = true.
Proof.
  intros Hwf. unfold generic3.
  destruct (Obj.get p tree) as [v0|] eqn:E0; [|done]. cbn [mbind option_bind].
  assert (Hwf0 : wf v0 = true) by (eapply (wf_prop p (JObj tree)); done).
  pose proof (inverse_row v0 k1 Hwf0) as H1.
  destruct (Obj.get k1 (inverseNestedObject v0)) as [v1|]; [|done].
  destruct H1 as (_ & Hwf1 & _). cbn [mbind option_bind].
  pose proof (inverse_row v1 k2 Hwf1) as H2.
  destruct (Obj.get k2 (inverseNestedObject v1)) as [v2|]; [|done].
  destruct H2 as (_ & Hwf2 & _). cbn [mbind option_bind].
  pose proof (inverse_row v2 k3 Hwf2) as H3. intros E3. rewrite E3 in H3.
  by destruct H3 as (? & ? & _).
Qed.

(** C5, as amended: in the tree that the nested [reduce] calls return, the
    entry at [[p][k1][k2][k3]] is the outcome of the three generic pivots,
    pivoted once more exactly when its third key [k2] is ["values.json"].
    Read back on the loaded tree, whose first key under the platform is
    written [a]: for [k2] other than ["values.json"],
    [switched[p][k1][k2][k3][a]] is [tree[p][a][k1][k2][k3]], and
    [switched[p][k1]["values.json"][k3][e][a]] is
    [tree[p][a][k1]["values.json"][k3][e]].  So [k2] is the group file name
    when the registry is laid out [platform/vendor/year/group.json], and a
    key of the payload when it is laid out [platform/year/group.json]. *)
Theorem extra_pivot_by_third_key (tree : obj) :
  wf (JObj tree) = true -> plain (JObj tree) = true ->
  (forall p k1 k2 k3 v3,
      generic3 tree p k1 k2 k3 = Some v3 ->
      opath [p; k1; k2; k3] (JObj (switched tree)) =
      Some (if String.eqb k2 "values.json"
            then JObj (inverseNestedObject v3) else v3)) /\
  (forall p a k1 k2 k3,
      k2 <> "values.json" ->
      opath [p; k1; k2; k3; a] (JObj (switched tree)) =
      opath [p; a; k1; k2; k3] (JObj tree)) /\
  (forall p a k1 k3 e,
      opath [p; k1; "values.json"; k3; e; a] (JObj (switched tree)) =
      opath [p; a; k1; "values.json"; k3; e] (JObj tree)).
Proof.
  intros Hwf _.
  assert (Hnd : NoDup (Obj.keys tree)) by (by apply wf_JObj in Hwf as [? _]).
  split; [|split].
  - intros p k1 k2 k3 v3 H3. rewrite switched_path, H3 by done. done.
  - intros p a k1 k2 k3 Hne.
    change [p; k1; k2; k3; a] with ([p; k1; k2; k3] ++ [a]).
    rewrite opath_snoc, switched_path by done.
    rewrite <- generic3_leaf by done.
    destruct (generic3 tree p k1 k2 k3) as [v3|] eqn:E3; [|done].
    destruct (generic3_row _ _ _ _ _ _ Hwf E3) as [_ Hobj].
    cbn [fmap option_fmap option_map mbind option_bind]. unfold extra.
    destruct (String.eqb_spec k2 "values.json"); [done|].
    unfold oprop. by rewrite Hobj.
  - intros p a k1 k3 e.
    change [p; k1; "values.json"; k3; e; a]
      with (([p; k1; "values.json"; k3] ++ [e]) ++ [a]).
    change [p; a; k1; "values.json"; k3; e]
      with ([p; a; k1; "values.json"; k3] ++ [e]).
    rewrite !opath_snoc, switched_path by done.
    rewrite <- generic3_leaf by done.
    destruct (generic3 tree p k1 "values.json" k3) as [v3|] eqn:E3; [|done].
    destruct (generic3_row _ _ _ _ _ _ Hwf E3) as [Hwf3 _].
    cbn [fmap option_fmap option_map mbind option_bind]. unfold extra.
    cbn [String.eqb Ascii.eqb Bool.eqb]. rewrite oprop_JObj.
    pose proof (inverse_get2 v3 e a Hwf3) as H2. unfold get2 in H2.
    destruct (Obj.get e (inverseNestedObject v3)) as [row|] eqn:Erow.
    + destruct (inverse_rows _ _ _ Erow) as (r & -> & _).
      cbn [mbind option_bind]. rewrite oprop_JObj. exact H2.
    + cbn [mbind option_bind]. exact H2.
Qed.

Lemma extra_pivot_by_third_key_witness :
  let tree :=
    [("browser", JObj [("webkit", JObj [("2024", JObj
       [("values.json", JObj [("display", JObj [("flex", JStr "-webkit-flex")])]);
        ("classes.json", JObj [("bar", JObj [("x", JStr "-webkit-bar")])])])])])] in
  opath ["browser"; "2024"; "values.json"; "display"; "flex"; "webkit"]
    (JObj (switched tree)) = Some (JStr "-webkit-flex") /\
  opath ["browser"; "2024"; "classes.json"; "bar"; "webkit"]
    (JObj (switched tree)) = Some (JObj [("x", JStr "-webkit-bar")]).
Proof.
  intros tree.
  destruct (extra_pivot_by_third_key tree eq_refl eq_refl) as (_ & H2 & H3).
  split.
  - rewrite H3. reflexivity.
  - rewrite H2; [reflexivity | discriminate].
Defined.

(** ** The manifest *)

Lemma length_append (a b : string) :
  String.length (a ++ b) = (String.length a + String.length b)%nat.
Proof. induction a as [|c a IH]; simpl; [done|]. by rewrite IH. Qed.

Lemma append_inj_r (a b s : string) : (a ++ s)%string = (b ++ s)%string -> a = b.
Proof.
  revert b. induction a as [|c a IH]; intros [|c' b] H; simpl in H.
  - done.
  - apply (f_equal String.length) in H. simpl in H.
    rewrite !length_append in H. simpl in H. lia.
  - apply (f_equal String.length) in H. simpl in H.
    rewrite !length_append in H. simpl in H. lia.
  - injection H as -> H. f_equal. by apply IH.
Qed.

Lemma last_label_inj i j : last_label i = last_label j -> i = j.
Proof.
  unfold last_label. intros H%append_inj_r%of_index_inj. lia.
Qed.

Lemma index_put_other platform section label filename indexmap q :
  q <> platform ->
  Obj.get q (index_put platform section label filename indexmap) = Obj.get q indexmap.
Proof. intros H. unfold index_put. apply get_modify_ne. congruence. Qed.

Lemma index_put_from platform label filename indexmap from last :
  Obj.get platform indexmap = Some (index_entry from last) ->
  Obj.get platform (index_put platform "from" label filename indexmap) =
  Some (index_entry (Obj.set label (JStr filename) from) last).
Proof. intros H. unfold index_put. rewrite get_modify_eq, H. reflexivity. Qed.

Lemma index_put_last platform label filename indexmap from last :
  Obj.get platform indexmap = Some (index_entry from last) ->
  Obj.get platform (index_put platform "last" label filename indexmap) =
  Some (index_entry from (Obj.set label (JStr filename) last)).
Proof. intros H. unfold index_put. rewrite get_modify_eq, H. reflexivity. Qed.

Lemma snapshot_step_index platform years b year index b' :
  snapshot_step platform years b year index = Normal b' ->
  (forall q, q <> platform ->
             Obj.get q (the_indexmap b') = Obj.get q (the_indexmap b)) /\
  (forall from last,
      Obj.get platform (the_indexmap b) = Some (index_entry from last) ->
      Obj.get platform (the_indexmap b') =
      Some (index_entry
              (Obj.set year (JStr (fromfilename platform year)) from)
              (Obj.set (last_label index) (JStr (lastfilename platform index)) last))).
Proof.
  unfold snapshot_step. intros H.
  destruct (Obj.get year years) as [groups|]; [|done].
  destruct (rename_groups (own_entries groups)) as [renamed|]; [|done].
  cbn [bind] in H. injection H as <-. cbn [the_indexmap]. split.
  - intros q Hq. by rewrite !index_put_other.
  - intros from last Hp. by apply index_put_last, index_put_from.
Qed.

Lemma snapshot_loop_index platform years todo index b b' :
  snapshot_loop platform years todo index b = Normal b' ->
  (forall q, q <> platform ->
             Obj.get q (the_indexmap b') = Obj.get q (the_indexmap b)) /\
  (forall from last,
      Obj.get platform (the_indexmap b) = Some (index_entry from last) ->
      Obj.get platform (the_indexmap b') =
      Some (index_entry (from_map platform todo from)
                        (last_map platform todo index last))).
Proof.
  revert index b. induction todo as [|year rest IH]; intros index b H.
  - injection H as <-. done.
  - cbn [snapshot_loop] in H.
    destruct (snapshot_step platform years b year index) as [b1|] eqn:E1; [|done].
    cbn [bind] in H. apply IH in H as [Hq Hp].
    apply snapshot_step_index in E1 as [Hq1 Hp1]. split.
    + intros q Hne. by rewrite Hq, Hq1.
    + intros from last Hfrom. cbn [from_map last_map]. by apply Hp, Hp1.
Qed.

Lemma from_map_keys platform todo from y :
  y ∈ Obj.keys (from_map platform todo from) <-> y ∈ todo \/ y ∈ Obj.keys from.
Proof.
  revert from. induction todo as [|year rest IH]; intros from; cbn [from_map].
  - split; [auto|]. intros [H|H]; [by apply elem_of_nil in H|done].
  - rewrite IH, elem_of_keys_set, elem_of_cons. tauto.
Qed.

Lemma from_map_NoDup platform todo from :
  NoDup (Obj.keys from) -> NoDup (Obj.keys (from_map platform todo from)).
Proof.
  revert from. induction todo as [|year rest IH]; intros from H; [done|].
  apply IH. by apply NoDup_keys_set.
Qed.

Lemma from_map_length platform todo from :
  NoDup todo -> (forall y, y ∈ todo -> y ∉ Obj.keys from) ->
  length (from_map platform todo from) = (length todo + length from)%nat.
Proof.
  revert from. induction todo as [|year rest IH]; intros from Hnd Hdisj; [done|].
  apply NoDup_cons in Hnd as [Hyear Hnd]. cbn [from_map length].
  rewrite IH; [|done|].
  - rewrite length_set_new; [lia|]. apply Hdisj. left.
  - intros y Hy. rewrite elem_of_keys_set. intros [->|Hin]; [done|].
    apply (Hdisj y); [by right|done].
Qed.

Lemma last_map_length platform todo index last :
  (forall j, (index <= j)%nat -> last_label j ∉ Obj.keys last) ->
  length (last_map platform todo index last) = (length todo + length last)%nat.
Proof.
  revert index last. induction todo as [|year rest IH]; intros index last Hfresh;
    [done|].
  cbn [last_map length]. rewrite IH.
  - rewrite length_set_new; [lia|]. by apply Hfresh.
  - intros j Hj. rewrite elem_of_keys_set. intros [Heq|Hin].
    + apply last_label_inj in Heq. lia.
    + apply (Hfresh j); [lia|done].
Qed.

Lemma platform_fold_Throws es w :
  fold_left platform_step es (Throws w) = Throws w.
Proof. induction es as [|[p years] es IH]; [done|]. apply IH. Qed.

Lemma platform_step_index indexmap files platform years indexmap' files' :
  platform_step (Normal (indexmap, files)) (platform, years)
  = Normal (indexmap', files') ->
  (forall q, q <> platform -> Obj.get q indexmap' = Obj.get q indexmap) /\
  Obj.get platform indexmap' =
  Some (index_entry
          (from_map platform (rev (Obj.keys (own_entries years))) [])
          (last_map platform (rev (Obj.keys (own_entries years))) 0 [])).
Proof.
  cbn [platform_step bind]. intros H.
  destruct (snapshot_loop _ _ _ _ _) as [b'|] eqn:E; [|done].
  cbn [bind] in H. injection H as <- <-.
  apply snapshot_loop_index in E as [Hq Hp]. cbn [the_indexmap] in *. split.
  - intros q Hne. rewrite Hq by done. apply get_set_ne. congruence.
  - apply Hp. apply get_set_eq.
Qed.

Lemma platform_fold_other es indexmap files indexmap' files' p :
  p ∉ Obj.keys es ->
  fold_left platform_step es (Normal (indexmap, files)) = Normal (indexmap', files') ->
  Obj.get p indexmap' = Obj.get p indexmap.
Proof.
  revert indexmap files. induction es as [|[q years] es IH]; intros indexmap files Hp H.
  - injection H as <- <-. done.
  - change (Obj.keys ((q, years) :: es)) with (q :: Obj.keys es) in Hp.
    apply not_elem_of_cons in Hp as [Hne Hp]. cbn [fold_left] in H.
    destruct (platform_step (Normal (indexmap, files)) (q, years))
      as [[im1 ff1]|] eqn:E1; [|by rewrite platform_fold_Throws in H].
    rewrite (IH _ _ Hp H).
    by apply platform_step_index in E1 as [Hq _]; apply Hq.
Qed.

Lemma platform_fold_get es indexmap files indexmap' files' p years :
  NoDup (Obj.keys es) -> (p, years) ∈ es ->
  fold_left platform_step es (Normal (indexmap, files)) = Normal (indexmap', files') ->
  Obj.get p indexmap' =
  Some (index_entry
          (from_map p (rev (Obj.keys (own_entries years))) [])
          (last_map p (rev (Obj.keys (own_entries years))) 0 [])).
Proof.
  revert indexmap files. induction es as [|[q y] es IH]; intros indexmap files Hnd Hin H.
  - by apply elem_of_nil in Hin.
  - change (Obj.keys ((q, y) :: es)) with (q :: Obj.keys es) in Hnd.
    apply NoDup_cons in Hnd as [Hq Hnd]. cbn [fold_left] in H.
    destruct (platform_step (Normal (indexmap, files)) (q, y))
      as [[im1 ff1]|] eqn:E1; [|by rewrite platform_fold_Throws in H].
    apply elem_of_cons in Hin as [[= -> ->]|Hin].
    + rewrite (platform_fold_other _ _ _ _ _ _ Hq H).
      by apply platform_step_index in E1 as [_ Hp].
    + by apply (IH im1 ff1).
Qed.

(** C2, counterexample: for the tree of [webkit/2023/classes.json] and
    [webkit/2024/classes.json] the [from] section has the single key
    ["classes.json"], and the [last] section one entry for two years. *)
Lemma manifest_by_year_fails :
  ~ (forall indexmap files,
        build_all tree_by_year [] = Normal (indexmap, files) ->
        manifest_by_year tree_by_year indexmap).
Proof.
  intros H.
  destruct (build_all tree_by_year []) as [[im ff]|] eqn:E;
    vm_compute in E; [injection E as <- <-|discriminate].
  destruct (H _ _ eq_refl "webkit" _ eq_refl) as (from & last & Hget & _ & Hlen).
  vm_compute in Hget. injection Hget as <- <-. vm_compute in Hlen. discriminate.
Qed.

Lemma prop_In k v x : wf v = true -> prop k v = Some x <-> (k, x) ∈ own_entries v.
Proof.
  intros Hwf. split; [apply get_In|]. apply In_get. by apply wf_own_entries.
Qed.

(** C2, as amended: when the run completes on a loaded tree whose first
    level under a platform is the vendor and whose second is the year, the
    [from] section of that platform has exactly the years found under its
    vendors as keys, each once, and its [last] section has as many entries
    as there are such years. *)
Theorem manifest_covers_vendor_years (tree site indexmap files : obj) :
  wf (JObj tree) = true -> plain (JObj tree) = true ->
  build_all tree site = Normal (indexmap, files) ->
  forall platform vendors,
    Obj.get platform tree = Some vendors ->
    exists from last years,
      Obj.get platform indexmap = Some (index_entry from last) /\
      NoDup years /\
      (forall year,
          year ∈ years <->
          exists vendor ys,
            prop vendor vendors = Some ys /\ is_objectlike ys = true /\
            year ∈ Obj.keys (own_entries ys)) /\
      (forall year, year ∈ years <-> year ∈ Obj.keys from) /\
      NoDup (Obj.keys from) /\
      length from = length years /\
      length last = length years.
Proof.
  intros Hwf _ Hrun platform vendors Hp.
  assert (Hnd : NoDup (Obj.keys tree)) by (by apply wf_JObj in Hwf as [? _]).
  assert (Hwfv : wf vendors = true) by (eapply (wf_prop platform (JObj tree)); done).
  assert (Hin : (platform, pivot1 vendors) ∈ switched tree).
  { apply get_In. rewrite switched_get by done. by rewrite Hp. }
  pose proof (platform_fold_get _ _ _ _ _ _ _ (switched_NoDup tree) Hin Hrun) as Hentry.
  destruct (pivot1_keys vendors) as (Hnd1 & Hkeys1 & Hlen1).
  set (todo := rev (Obj.keys (own_entries (pivot1 vendors)))) in *.
  assert (Htodo : forall y, y ∈ todo <-> y ∈ Obj.keys (inverseNestedObject vendors)).
  { intros y. rewrite <- Hkeys1. unfold todo. rewrite !list_elem_of_In.
    symmetry. apply in_rev. }
  assert (Hndtodo : NoDup todo) by (unfold todo; by rewrite <- Permutation_rev).
  assert (Hlentodo : length todo = length (Obj.keys (inverseNestedObject vendors))).
  { unfold todo, Obj.keys. by rewrite length_rev, !length_map. }
  exists (from_map platform todo []), (last_map platform todo 0 []),
    (Obj.keys (inverseNestedObject vendors)).
  split; [done|]. split; [apply inverse_NoDup|]. split; [|split; [|split; [|split]]].
  - intros year. rewrite inverse_keys. split.
    + intros (vendor & ys & Hys & Hobj & Hy). exists vendor, ys.
      split; [by apply prop_In|done].
    + intros (vendor & ys & Hys & Hobj & Hy). exists vendor, ys.
      split; [by apply prop_In|done].
  - intros year. rewrite from_map_keys, <- Htodo. split; [auto|].
    intros [H|H]; [done | by apply elem_of_nil in H].
  - apply from_map_NoDup. constructor.
  - rewrite from_map_length; [simpl; lia|done|].
    intros y _. apply not_elem_of_nil.
  - rewrite last_map_length; [simpl; lia|]. intros j _. apply not_elem_of_nil.
Qed.

Lemma manifest_covers_vendor_years_witness :
  exists from last,
    Obj.get "browser" example_indexmap = Some (index_entry from last) /\
    "2023" ∈ Obj.keys from /\ "2024" ∈ Obj.keys from.
Proof.
  set (vendors := JObj [("webkit", JObj
                   [("2023", JObj [("classes.json", foo_json)]);
                    ("2024", JObj [("classes.json", bar_json)])])]).
  destruct (manifest_covers_vendor_years [("browser", vendors)] [] example_indexmap _
              eq_refl eq_refl (build_registry_by_vendor []) "browser" vendors eq_refl)
    as (from & last & years & Hget & _ & Hyears & Hfrom & _).
  exists from, last. split; [exact Hget|].
  split; apply Hfrom, Hyears; exists "webkit"; eexists;
    (split; [reflexivity|]); (split; [reflexivity|]).
  - left.
  - right. left.
Defined.



(** ** Copies are made of new cells *)

Lemma json_nested_ind (P : json -> Prop) :
  P JNull -> (forall b, P (JBool b)) -> (forall n, P (JNum n)) ->
  (forall s, P (JStr s)) ->
  (forall l, Forall P l -> P (JArr l)) ->
  (forall o, Forall (fun kv => P (snd kv)) o -> P (JObj o)) ->
  forall j, P j.
Proof.
  intros Hnull Hbool Hnum Hstr Harr Hobj. fix IH 1. intros [|b|n|s|l|o].
  - apply Hnull.
  - apply Hbool.
  - apply Hnum.
  - apply Hstr.
  - apply Harr. induction l as [|x l IHl]; constructor; [apply IH|apply IHl].
  - apply Hobj. induction o as [|[k x] o IHo]; constructor; [apply IH|apply IHo].
Qed.

Module HeapFacts.
Import Heap.

Lemma build_JArr l h :
  build (JArr l) h = let '(h', elems) := build_elems l h in new (Array elems) h'.
Proof. reflexivity. Qed.

Lemma build_JObj o h :
  build (JObj o) h = let '(h', props) := build_props o h in new (Object props) h'.
Proof. reflexivity. Qed.

Lemma fresh_from_le n m v : (n <= m)%nat -> fresh_from m v -> fresh_from n v.
Proof. intros Hle H l Hl. specialize (H l Hl). lia. Qed.

Lemma extends_refl h : extends h h.
Proof.
  exists []. split; [by rewrite app_nil_r|]. intros c Hc. by apply elem_of_nil in Hc.
Qed.

Lemma extends_length h h' : extends h h' -> (length h <= length h')%nat.
Proof. intros (ext & -> & _). rewrite length_app. lia. Qed.

Lemma extends_trans h1 h2 h3 : extends h1 h2 -> extends h2 h3 -> extends h1 h3.
Proof.
  intros (e1 & -> & H1) (e2 & -> & H2). exists (e1 ++ e2).
  split; [by rewrite app_assoc|]. intros c [Hc|Hc]%elem_of_app; [auto|].
  eapply Forall_impl; [apply (H2 c Hc)|]. intros v. apply fresh_from_le.
  rewrite length_app. lia.
Qed.

Lemma extends_new h h' c :
  extends h h' -> Forall (fresh_from (length h)) (children c) ->
  extends h (h' ++ [c]).
Proof.
  intros (ext & -> & Hext) H. exists (ext ++ [c]).
  split; [by rewrite app_assoc|].
  intros c' [Hc|Hc]%elem_of_app; [auto|].
  apply list_elem_of_singleton in Hc as ->. done.
Qed.

Lemma build_extends j :
  forall h, extends h (build j h).1 /\ fresh_from (length h) (build j h).2.
Proof.
  induction j as [|b|n|s|l IH|o IH] using json_nested_ind; intros h;
    try (split; [apply extends_refl | intros l' Hl'; discriminate]).
  - rewrite build_JArr.
    assert (Hl : extends h (build_elems l h).1 /\
                 Forall (fresh_from (length h)) (build_elems l h).2).
    { clear -IH. revert h. induction IH as [|x l Hx _ IHl]; intros h.
      - split; [apply extends_refl|constructor].
      - cbn [build_elems]. destruct (Hx h) as [Hext Hv].
        destruct (build x h) as [h1 v]. destruct (IHl h1) as [Hext' Hvs].
        destruct (build_elems l h1) as [h2 vs]. cbn [fst snd] in *. split.
        + by eapply extends_trans.
        + constructor; [done|]. eapply Forall_impl; [exact Hvs|].
          intros w. apply fresh_from_le. by apply extends_length. }
    destruct (build_elems l h) as [h' elems]. cbn [fst snd new] in *.
    destruct Hl as [Hext Hfresh]. split.
    + by apply extends_new.
    + intros l' [= <-]. by apply extends_length.
  - rewrite build_JObj.
    assert (Hl : extends h (build_props o h).1 /\
                 Forall (fresh_from (length h)) (map snd (build_props o h).2)).
    { clear -IH. revert h. induction IH as [|[k x] o Hx _ IHo]; intros h.
      - split; [apply extends_refl|constructor].
      - cbn [build_props]. destruct (Hx h) as [Hext Hv].
        cbn [snd] in *.
        destruct (build x h) as [h1 v]. destruct (IHo h1) as [Hext' Hvs].
        destruct (build_props o h1) as [h2 vs]. cbn [fst snd map] in *. split.
        + by eapply extends_trans.
        + constructor; [done|]. eapply Forall_impl; [exact Hvs|].
          intros w. apply fresh_from_le. by apply extends_length. }
    destruct (build_props o h) as [h' props]. cbn [fst snd new] in *.
    destruct Hl as [Hext Hfresh]. split.
    + by apply extends_new.
    + intros l' [= <-]. by apply extends_length.
Qed.

Lemma build_elems_extends l : forall h, extends h (build_elems l h).1.
Proof.
  induction l as [|x l IH]; intros h; [apply extends_refl|].
  cbn [build_elems]. destruct (build_extends x h) as [Hext _].
  destruct (build x h) as [h1 v]. specialize (IH h1).
  destruct (build_elems l h1) as [h2 vs]. by eapply extends_trans.
Qed.

Lemma build_props_extends o : forall h, extends h (build_props o h).1.
Proof.
  induction o as [|[k x] o IH]; intros h; [apply extends_refl|].
  cbn [build_props]. destruct (build_extends x h) as [Hext _].
  destruct (build x h) as [h1 v]. specialize (IH h1).
  destruct (build_props o h1) as [h2 vs]. by eapply extends_trans.
Qed.

Lemma Forall2_impl_elem {A B} (P Q : A -> B -> Prop) l k :
  Forall2 P l k -> (forall x y, x ∈ l -> P x y -> Q x y) -> Forall2 Q l k.
Proof.
  induction 1 as [|x y l k Hxy _ IH]; intros H; constructor.
  - apply H; [left|done].
  - apply IH. intros x' y' Hin. apply H. by right.
Qed.

Lemma reach_lt h v l : reach h v l -> (l < length h)%nat.
Proof. induction 1 as [l c Hl|]; [by eapply lookup_lt_Some|done]. Qed.

Lemma reach_Ref h v l : reach h v l -> exists l0, v = Ref l0.
Proof. destruct 1; eauto. Qed.

(** What [read] finds depends on the reachable cells only. *)
Lemma read_agree fuel h h' :
  forall v j,
    read fuel h v = Some j ->
    (forall l, reach h v l -> h' !! l = h !! l) ->
    read fuel h' v = Some j.
Proof.
  induction fuel as [|fuel IH]; intros [| | | |l] j Hread Hsame;
    cbn [read] in *; try done.
  destruct (h !! l) as [c|] eqn:El; [|done].
  rewrite (Hsame l (reach_here _ _ _ El)), El.
  destruct c as [props|elems].
  - destruct (mapM _ props) as [o|] eqn:E; [|done].
    apply mapM_Some in E. erewrite mapM_Some_2; [exact Hread|].
    eapply Forall2_impl_elem; [exact E|]. intros [k x] y Hin Hx. cbn [fst snd] in *.
    destruct (read fuel h x) as [jx|] eqn:Ex; [|done].
    erewrite IH; [exact Hx|exact Ex|]. intros l' Hl'. apply Hsame.
    eapply reach_child; [exact El| |exact Hl']. cbn [children].
    apply list_elem_of_fmap. by exists (k, x).
  - destruct (mapM _ elems) as [o|] eqn:E; [|done].
    apply mapM_Some in E. erewrite mapM_Some_2; [exact Hread|].
    eapply Forall2_impl_elem; [exact E|]. intros x y Hin Hx.
    eapply IH; [exact Hx|]. intros l' Hl'. apply Hsame.
    eapply reach_child; [exact El|exact Hin|exact Hl'].
Qed.

Lemma read_extends fuel h ext v j :
  read fuel h v = Some j -> read fuel (h ++ ext) v = Some j.
Proof.
  intros H. eapply read_agree; [exact H|]. intros l Hl%reach_lt.
  by apply lookup_app_l.
Qed.

Lemma read_fuel_mono fuel :
  forall fuel' h v j,
    read fuel h v = Some j -> (fuel <= fuel')%nat -> read fuel' h v = Some j.
Proof.
  induction fuel as [|fuel IH]; intros fuel' h [| | | |l] j Hread Hle;
    try (destruct fuel'; cbn [read] in *; done).
  destruct fuel' as [|fuel']; [lia|]. cbn [read] in *.
  destruct (h !! l) as [[props|elems]|]; [| |done].
  - destruct (mapM _ props) as [o|] eqn:E; [|done].
    apply mapM_Some in E. erewrite mapM_Some_2; [exact Hread|].
    eapply Forall2_impl; [exact E|]. intros [k x] y Hx. cbn [fst snd] in *.
    destruct (read fuel h x) as [jx|] eqn:Ex; [|done].
    erewrite IH; [exact Hx|exact Ex|lia].
  - destruct (mapM _ elems) as [o|] eqn:E; [|done].
    apply mapM_Some in E. erewrite mapM_Some_2; [exact Hread|].
    eapply Forall2_impl; [exact E|]. intros x y Hx.
    eapply IH; [exact Hx|lia].
Qed.

(** [build] stores the document it is given. *)
Lemma read_build j : forall h, read (height j) (build j h).1 (build j h).2 = Some j.
Proof.
  induction j as [|b|n|s|l IH|o IH] using json_nested_ind; intros h; try done.
  - rewrite build_JArr. cbn [height].
    set (m := foldr (fun x n => Nat.max (height x) n) 0%nat l).
    assert (Hl : Forall2 (fun v x => read m (build_elems l h).1 v = Some x)
                   (build_elems l h).2 l).
    { subst m. clear -IH. revert h. induction IH as [|x l Hx _ IHl]; intros h.
      - constructor.
      - cbn [build_elems foldr]. specialize (Hx h).
        destruct (build x h) as [h1 v]. specialize (IHl h1).
        pose proof (build_elems_extends l h1) as Hext.
        destruct (build_elems l h1) as [h2 vs]. cbn [fst snd] in *.
        destruct Hext as (ext & -> & _). constructor.
        + apply read_extends. eapply read_fuel_mono; [exact Hx|lia].
        + eapply Forall2_impl; [exact IHl|]. intros w y Hw.
          eapply read_fuel_mono; [exact Hw|lia]. }
    destruct (build_elems l h) as [h' elems]. cbn [fst snd new read] in *.
    rewrite lookup_app_r, Nat.sub_diag by lia. cbn [lookup list_lookup].
    erewrite mapM_Some_2; [done|].
    eapply Forall2_impl; [exact Hl|]. intros v x Hv. by apply read_extends.
  - rewrite build_JObj. cbn [height].
    set (m := foldr (fun kv n => Nat.max (height (snd kv)) n) 0%nat o).
    assert (Hl : Forall2 (fun kv kx => fst kv = fst kx /\
                            read m (build_props o h).1 (snd kv) = Some (snd kx))
                   (build_props o h).2 o).
    { subst m. clear -IH. revert h. induction IH as [|[k x] o Hx _ IHo]; intros h.
      - constructor.
      - cbn [build_props foldr snd]. cbn [snd] in Hx. specialize (Hx h).
        destruct (build x h) as [h1 v]. specialize (IHo h1).
        pose proof (build_props_extends o h1) as Hext.
        destruct (build_props o h1) as [h2 vs]. cbn [fst snd] in *.
        destruct Hext as (ext & -> & _). constructor.
        + split; [done|]. cbn [snd].
          apply read_extends. eapply read_fuel_mono; [exact Hx|lia].
        + eapply Forall2_impl; [exact IHo|]. intros w y [Hk Hw]. split; [done|].
          eapply read_fuel_mono; [exact Hw|lia]. }
    destruct (build_props o h) as [h' props]. cbn [fst snd new read] in *.
    rewrite lookup_app_r, Nat.sub_diag by lia. cbn [lookup list_lookup].
    erewrite mapM_Some_2; [done|].
    eapply Forall2_impl; [exact Hl|]. intros [k v] [k' x] [Hk Hv].
    cbn [fst snd] in *. subst k'. by rewrite (read_extends _ _ _ _ _ Hv).
Qed.

Lemma reach_fresh n h x l :
  (forall i c, (n <= i)%nat -> h !! i = Some c -> Forall (fresh_from n) (children c)) ->
  reach h x l -> fresh_from n x -> (n <= l)%nat.
Proof.
  intros Hcells. induction 1 as [l c Hl|l c x l' Hl Hx _ IH]; intros Hfresh.
  - by apply Hfresh.
  - apply IH. assert (Hn : (n <= l)%nat) by (by apply Hfresh).
    pose proof (Hcells l c Hn Hl) as Hall.
    rewrite Forall_forall in Hall. by apply Hall.
Qed.



Lemma extends_cells h h' i c :
  extends h h' -> (length h <= i)%nat -> h' !! i = Some c ->
  Forall (fresh_from (length h)) (children c).
Proof.
  intros (ext & -> & Hext) Hi Hc. rewrite lookup_app_r in Hc by done.
  apply Hext. eapply list_elem_of_lookup_2, Hc.
Qed.



End HeapFacts.

(** ** The three branches of the loop body of [deepMerge] *)


Lemma merge_key_copy target key source :
  (forall o, Obj.get key target <> Some (JObj o)) ->
  merge_key target (key, JObj source) = Obj.set key (JObj source) target.
Proof.
  intros H. unfold merge_key. f_equal.
  destruct (Obj.get key target) as [[| | | | |o]|] eqn:E;
    try (cbn [merged_value]; apply clone_id).
  by destruct (H o).
Qed.

Lemma merge_key_replace target key sourceValue :
  isObject sourceValue = false ->
  merge_key target (key, sourceValue) = Obj.set key sourceValue target.
Proof. intros H. unfold merge_key. by destruct sourceValue. Qed.

(** ** [deepMerge] on the heap and [deepMerge] on documents *)

Module OwnershipFacts.
Import Heap HeapFacts Ownership.

Section MapValues.

Context {A B : Type} (f : A -> B).

Lemma keys_map_values zs : Obj.keys (map_values f zs) = Obj.keys zs.
Proof. unfold Obj.keys, map_values. rewrite map_map. done. Qed.

Lemma get_map_values k zs : Obj.get k (map_values f zs) = f <$> Obj.get k zs.
Proof.
  induction zs as [|[k' z] zs IH]; simpl; [done|].
  by destruct (String.eqb k k').
Qed.

Lemma has_map_values k zs : Obj.has k (map_values f zs) = Obj.has k zs.
Proof. unfold Obj.has. rewrite get_map_values. by destruct (Obj.get k zs). Qed.

Lemma update_map_values k z zs :
  Obj.update k (f z) (map_values f zs) = map_values f (Obj.update k z zs).
Proof.
  induction zs as [|[k' z'] zs IH]; simpl; [done|].
  destruct (String.eqb k k'); simpl; [done|]. by rewrite IH.
Qed.

Lemma insert_index_map_values n k z zs :
  Obj.insert_index n k (f z) (map_values f zs) = map_values f (Obj.insert_index n k z zs).
Proof.
  induction zs as [|[k' z'] zs IH]; simpl; [done|].
  destruct (JsString.array_index k'); [|done].
  destruct (n0 <? n)%N; simpl; [|done]. by rewrite IH.
Qed.

Lemma set_map_values k z zs :
  Obj.set k (f z) (map_values f zs) = map_values f (Obj.set k z zs).
Proof.
  unfold Obj.set. rewrite has_map_values. destruct (Obj.has k zs).
  - apply update_map_values.
  - unfold Obj.insert. destruct (JsString.array_index k).
    + apply insert_index_map_values.
    + unfold map_values. by rewrite map_app.
Qed.

End MapValues.

Lemma vals_eq zs : vals zs = map_values s_val zs.
Proof. done. Qed.

Lemma docs_eq zs : docs zs = map_values s_doc zs.
Proof. done. Qed.

Lemma docs_set k z zs : docs (Obj.set k z zs) = Obj.set k (s_doc z) (docs zs).
Proof. symmetry. apply (set_map_values s_doc). Qed.

Lemma vals_set k z zs : vals (Obj.set k z zs) = Obj.set k (s_val z) (vals zs).
Proof. symmetry. apply (set_map_values s_val). Qed.

Lemma get_docs k zs : Obj.get k (docs zs) = s_doc <$> Obj.get k zs.
Proof. apply (get_map_values s_doc). Qed.

Lemma get_vals k zs : Obj.get k (vals zs) = s_val <$> Obj.get k zs.
Proof. apply (get_map_values s_val). Qed.

Lemma owned_bound h R v j D :
  owned h R v j D -> forall a, a ∈ D -> (a < length h)%nat.
Proof.
  induction 1 as [l zs D Hl Hnd Hown IH Hdisj Hl' HD|v j fuel D Hobj Hread Hreach ->];
    intros a Ha.
  - apply HD in Ha as [->|(k & z & Hz & Ha)].
    + by eapply lookup_lt_Some.
    + by eapply IH.
  - by apply elem_of_empty in Ha.
Qed.

Lemma reach_valid h v l : reach h v l -> exists l0, v = Ref l0 /\ is_Some (h !! l0).
Proof. destruct 1; eauto. Qed.

(** Paths of [h'] from a value whose reachable cells are the same in [h]. *)
Lemma reach_agree h h' v l :
  closed h ->
  (forall a, reach h v a -> h' !! a = h !! a) ->
  (forall l0, v = Ref l0 -> is_Some (h !! l0)) ->
  reach h' v l -> reach h v l.
Proof.
  intros Hclosed Hsame Hvalid Hreach. revert Hsame Hvalid.
  induction Hreach as [l c Hl|l c x l' Hl Hx Hreach IH]; intros Hsame Hvalid.
  - destruct (Hvalid l eq_refl) as [c0 Hc0]. by eapply reach_here.
  - destruct (Hvalid l eq_refl) as [c0 Hc0].
    assert (Hc : h !! l = Some c).
    { rewrite <- Hl. symmetry. apply Hsame. by eapply reach_here. }
    eapply reach_child; [exact Hc|exact Hx|]. apply IH.
    + intros a Ha. apply Hsame. by eapply reach_child.
    + intros l0 ->. apply lookup_lt_is_Some_2. by eapply Hclosed.
Qed.

Lemma read_valid fuel h l j : read fuel h (Ref l) = Some j -> is_Some (h !! l).
Proof.
  destruct fuel; cbn [read]; [done|]. destruct (h !! l); [eauto|done].
Qed.

Lemma owned_frame h h' R v j D :
  closed h ->
  owned h R v j D ->
  (forall a, a ∈ D -> h' !! a = h !! a) ->
  (forall a, a ∈ R -> (a < length h)%nat -> h' !! a = h !! a) ->
  owned h' R v j D.
Proof.
  intros Hclosed Hown. revert h'.
  induction Hown as [l zs D Hl Hnd Hown IH Hdisj Hl' HD|v j fuel D Hobj Hread Hreach ->];
    intros h' HsameD HsameR.
  - eapply owned_object; try done.
    + rewrite HsameD; [done|]. apply HD. by left.
    + intros k z Hz. eapply IH; [exact Hz| |done].
      intros a Ha. apply HsameD, HD. right. eauto.
  - assert (Hsame : forall a, reach h v a -> h' !! a = h !! a).
    { intros a Ha. apply HsameR; [by apply Hreach|by eapply reach_lt]. }
    eapply owned_leaf; [| |  |done].
    + destruct v as [| | | |l]; try done. cbn [isObject] in *.
      destruct (read_valid _ _ _ _ Hread) as [c Hc].
      rewrite Hsame; [done|]. by eapply reach_here.
    + by eapply read_agree.
    + intros l Hl. apply Hreach. eapply reach_agree; [done|exact Hsame| |exact Hl].
      intros l0 ->. by eapply read_valid.
Qed.

Lemma owned_mono h R R' v j D :
  R ⊆ R' -> owned h R v j D -> owned h R' v j D.
Proof.
  intros Hsub. induction 1 as [l zs D Hl Hnd Hown IH Hdisj Hl' HD|v j fuel D Hobj Hread Hreach ->].
  - by eapply owned_object.
  - eapply owned_leaf; [done|done| |done]. intros l Hl. by apply Hsub, Hreach.
Qed.

Lemma Forall_common_fuel {A} (P : nat -> A -> Prop) (l : list A) :
  (forall n m x, P n x -> (n <= m)%nat -> P m x) ->
  Forall (fun x => exists n, P n x) l -> exists n, Forall (P n) l.
Proof.
  intros Hmono. induction 1 as [|x l [n Hx] _ [m IH]].
  - by exists 0%nat.
  - exists (Nat.max n m). constructor.
    + eapply Hmono; [exact Hx|lia].
    + eapply Forall_impl; [exact IH|]. intros y Hy. eapply Hmono; [exact Hy|lia].
Qed.

Lemma owned_read h R v j D : owned h R v j D -> exists fuel, read fuel h v = Some j.
Proof.
  induction 1 as [l zs D Hl Hnd Hown IH Hdisj Hl' HD|v j fuel D Hobj Hread Hreach ->];
    [|eauto].
  assert (Hall : Forall (fun kz => exists n, read n h (s_val (snd kz)) = Some (s_doc (snd kz))) zs).
  { apply Forall_forall. intros [k z] Hin. cbn [snd]. apply (IH k).
    by apply In_get. }
  apply Forall_common_fuel in Hall as [n Hall].
  2:{ intros n m x Hx Hle. by eapply read_fuel_mono. }
  exists (S n). cbn [read]. rewrite Hl.
  erewrite mapM_Some_2; [done|].
  unfold vals, docs. clear -Hall. induction Hall as [|[k z] zs Hz _ IH]; [constructor|].
  cbn [map]. constructor; [|exact IH]. cbn [fst snd] in *. by rewrite Hz.
Qed.

Lemma Forall2_indexed {A B} (P : A -> B -> Prop) l k :
  Forall2 P l k ->
  Forall2 (fun kv kj => fst kv = fst kj /\ P (snd kv) (snd kj)) (indexed l) (indexed k).
Proof.
  unfold indexed. generalize JsString.of_index. intros g H. revert g.
  induction H as [|x y l k Hxy _ IH]; intros g; [constructor|].
  rewrite !imap_cons. constructor; [done|]. apply (IH (g ∘ S)).
Qed.

(** The values and the documents of the own properties of a source. *)
Lemma read_entries_le fuel h s J :
  read fuel h s = Some J ->
  forall fuel', (fuel <= fuel')%nat ->
  Forall2 (fun kv kj => fst kv = fst kj /\ read fuel' h (snd kv) = Some (snd kj))
    (Heap.own_entries h s) (Doc.own_entries J).
Proof.
  intros Hs fuel' Hle.
  destruct s as [| | |t|l];
    try (destruct fuel; cbn [read] in Hs; injection Hs as <-; constructor).
  - assert (J = JStr t) as -> by (destruct fuel; cbn [read] in Hs; congruence).
    cbn [Heap.own_entries Doc.own_entries].
    apply (Forall2_indexed (fun v j => read fuel' h v = Some j)).
    apply Forall2_fmap, Forall_Forall2_diag, Forall_forall.
    intros c _. by destruct fuel'.
  - destruct fuel as [|fuel]; [done|]. cbn [read] in Hs. cbn [Heap.own_entries].
    destruct (h !! l) as [[props|elems]|]; [| |done].
    + destruct (mapM _ props) as [o|] eqn:E; [|done]. injection Hs as <-.
      apply mapM_Some in E. cbn [Doc.own_entries].
      eapply Forall2_impl; [exact E|]. intros [k v] [k' j] Hkv. cbn [fst snd] in *.
      destruct (read fuel h v) as [jv|] eqn:Ev; [|done]. injection Hkv as <- <-.
      split; [done|]. eapply read_fuel_mono; [exact Ev|lia].
    + destruct (mapM _ elems) as [o|] eqn:E; [|done]. injection Hs as <-.
      apply mapM_Some in E. cbn [Doc.own_entries].
      apply (Forall2_indexed (fun v j => read fuel' h v = Some j)).
      eapply Forall2_impl; [exact E|]. intros v j Hv.
      eapply read_fuel_mono; [exact Hv|lia].
Qed.

Lemma read_entries fuel h s J :
  read fuel h s = Some J ->
  Forall2 (fun kv kj => fst kv = fst kj /\ read fuel h (snd kv) = Some (snd kj))
    (Heap.own_entries h s) (Doc.own_entries J).
Proof. intros H. by eapply read_entries_le. Qed.

Lemma isObject_read fuel h v j :
  read fuel h v = Some j -> Heap.isObject h v = Doc.isObject j.
Proof.
  destruct v as [| | | |l];
    try (destruct fuel; cbn [read]; intros [= <-]; done).
  destruct fuel as [|fuel]; [done|]. cbn [read Heap.isObject].
  destruct (h !! l) as [[props|elems]|]; [| |done].
  - destruct (mapM _ props); [|done]. by intros [= <-].
  - destruct (mapM _ elems); [|done]. by intros [= <-].
Qed.

Lemma reach_entry h s k v l :
  (k, v) ∈ Heap.own_entries h s -> reach h v l -> reach h s l.
Proof.
  intros Hin Hreach. destruct s as [| | |t|l0]; cbn [Heap.own_entries] in Hin;
    try (by apply elem_of_nil in Hin).
  - apply elem_of_indexed, list_elem_of_fmap in Hin as (c & -> & _).
    by destruct (reach_Ref _ _ _ Hreach).
  - destruct (h !! l0) as [[props|elems]|] eqn:El; [| |by apply elem_of_nil in Hin].
    + eapply reach_child; [exact El| |exact Hreach]. cbn [children].
      apply list_elem_of_fmap. by exists (k, v).
    + eapply reach_child; [exact El| |exact Hreach]. cbn [children].
      by eapply elem_of_indexed.
Qed.

(** ** More fuel does not change a result *)

Lemma copy_fuel_mono fuel fuel' h v r :
  copy fuel h v = Some r -> (fuel <= fuel')%nat -> copy fuel' h v = Some r.
Proof.
  unfold copy. intros H Hle. destruct (read fuel h v) as [j|] eqn:E; [|done].
  by rewrite (read_fuel_mono _ _ _ _ _ E Hle).
Qed.

Lemma merge_key_mono recur recur' fuel fuel' target source h key h' :
  (forall h t ss r, recur h t ss = Some r -> recur' h t ss = Some r) ->
  (fuel <= fuel')%nat ->
  merge_key recur fuel target source h key = Some h' ->
  merge_key recur' fuel' target source h key = Some h'.
Proof.
  intros Hrec Hle. unfold merge_key.
  destruct (own h source key) as [sv|]; [|done].
  assert (Hcopy :
    match copy fuel h sv with
    | Some (h1, c) => Some (store target key c h1)
    | None => None
    end = Some h' ->
    match copy fuel' h sv with
    | Some (h1, c) => Some (store target key c h1)
    | None => None
    end = Some h').
  { destruct (copy fuel h sv) as [[h1 c]|] eqn:E; [|done].
    by rewrite (copy_fuel_mono _ _ _ _ _ E Hle). }
  destruct (isObject h sv); [|done].
  destruct (own h (Ref target) key) as [[| | | |t]|]; try done.
  destruct (isObject h (Ref t)); [apply Hrec|done].
Qed.

Lemma fold_keys_mono (step step' : option heap -> string -> option heap) keys :
  (forall h key h', step (Some h) key = Some h' -> step' (Some h) key = Some h') ->
  (forall key, step None key = None) ->
  forall st h', fold_left step keys st = Some h' -> fold_left step' keys st = Some h'.
Proof.
  intros Hstep Hnone. induction keys as [|key keys IH]; intros st h' H; [done|].
  cbn [fold_left] in *. destruct st as [h|].
  - destruct (step (Some h) key) as [h1|] eqn:E.
    + rewrite (Hstep _ _ _ E). by apply IH.
    + exfalso. clear -H Hnone. induction keys as [|k keys IH]; [done|].
      cbn [fold_left] in H. rewrite Hnone in H. auto.
  - exfalso. rewrite Hnone in H. clear -H Hnone.
    induction keys as [|k keys IH]; [done|].
    cbn [fold_left] in H. rewrite Hnone in H. auto.
Qed.

Lemma deepMerge_fuel_mono fuel :
  forall fuel' h target sources h',
    deepMerge fuel h target sources = Some h' -> (fuel <= fuel')%nat ->
    deepMerge fuel' h target sources = Some h'.
Proof.
  induction fuel as [|fuel IH]; intros fuel' h target sources h' H Hle; [done|].
  destruct fuel' as [|fuel']; [lia|]. cbn [deepMerge] in *.
  destruct sources as [|source rest]; [done|].
  destruct source as [s|].
  - match type of H with
    | match ?x with _ => _ end = _ => destruct x as [h1|] eqn:E; [|done]
    end.
    erewrite fold_keys_mono; [apply IH; [exact H|lia]| | |exact E].
    + intros h0 key h0' Hk. cbn beta iota in *.
      eapply merge_key_mono; [|  |exact Hk]; [|lia].
      intros h2 t ss r Hr. apply IH; [done|lia].
    + done.
  - apply IH; [done|lia].
Qed.

(** ** What [build] allocates *)

Lemma closed_app h c :
  closed h -> Forall (valid h) (children c) -> closed (h ++ [c]).
Proof.
  intros Hclosed Hc l c0 l' Hl Hin. rewrite length_app. cbn [length].
  destruct (decide (l < length h)%nat) as [Hlt|Hge].
  - rewrite lookup_app_l in Hl by done. pose proof (Hclosed _ _ _ Hl Hin). lia.
  - rewrite lookup_app_r in Hl by lia.
    destruct (l - length h)%nat as [|n] eqn:E; [|by destruct n].
    injection Hl as <-. rewrite Forall_forall in Hc.
    pose proof (Hc _ Hin l' eq_refl). lia.
Qed.

Lemma valid_le h h' v : (length h <= length h')%nat -> valid h v -> valid h' v.
Proof. intros Hle Hv l Hl. specialize (Hv l Hl). lia. Qed.

Lemma build_closed j :
  forall h, closed h -> closed (build j h).1 /\ valid (build j h).1 (build j h).2.
Proof.
  induction j as [|b|n|s|l IH|o IH] using json_nested_ind; intros h Hclosed;
    try (split; [done | intros l' Hl'; discriminate]).
  - rewrite build_JArr.
    assert (Hl : closed (build_elems l h).1 /\
                 Forall (valid (build_elems l h).1) (build_elems l h).2).
    { clear -IH Hclosed. revert h Hclosed.
      induction IH as [|x l Hx _ IHl]; intros h Hclosed; [by split|].
      cbn [build_elems]. destruct (Hx h Hclosed) as [Hc1 Hv].
      destruct (build x h) as [h1 v]. destruct (IHl h1 Hc1) as [Hc2 Hvs].
      pose proof (extends_length _ _ (build_elems_extends l h1)) as Hlen.
      destruct (build_elems l h1) as [h2 vs]. cbn [fst snd] in *. split; [done|].
      constructor; [by eapply valid_le|done]. }
    destruct (build_elems l h) as [h' elems]. cbn [fst snd new] in *.
    destruct Hl as [Hc Hvs]. split.
    + by apply closed_app.
    + intros l' [= <-]. rewrite length_app. cbn [length]. lia.
  - rewrite build_JObj.
    assert (Hl : closed (build_props o h).1 /\
                 Forall (valid (build_props o h).1) (map snd (build_props o h).2)).
    { clear -IH Hclosed. revert h Hclosed.
      induction IH as [|[k x] o Hx _ IHo]; intros h Hclosed; [by split|].
      cbn [build_props]. cbn [snd] in Hx. destruct (Hx h Hclosed) as [Hc1 Hv].
      destruct (build x h) as [h1 v]. destruct (IHo h1 Hc1) as [Hc2 Hvs].
      pose proof (extends_length _ _ (build_props_extends o h1)) as Hlen.
      destruct (build_props o h1) as [h2 vs]. cbn [fst snd map] in *. split; [done|].
      constructor; [by eapply valid_le|done]. }
    destruct (build_props o h) as [h' props]. cbn [fst snd new] in *.
    destruct Hl as [Hc Hvs]. split.
    + by apply closed_app.
    + intros l' [= <-]. rewrite length_app. cbn [length]. lia.
Qed.

Lemma build_props_closed o :
  forall h, closed h ->
    closed (build_props o h).1 /\
    Forall (valid (build_props o h).1) (map snd (build_props o h).2).
Proof.
  induction o as [|[k x] o IH]; intros h Hclosed; [by split|].
  cbn [build_props]. destruct (build_closed x h Hclosed) as [Hc1 Hv].
  destruct (build x h) as [h1 v]. destruct (IH h1 Hc1) as [Hc2 Hvs].
  pose proof (extends_length _ _ (build_props_extends o h1)) as Hlen.
  destruct (build_props o h1) as [h2 vs]. cbn [fst snd map] in *. split; [done|].
  constructor; [by eapply valid_le|done].
Qed.

Lemma within_disjoint lo mid hi X Y :
  within lo mid X -> within mid hi Y -> X ## Y.
Proof.
  intros HX HY. apply elem_of_disjoint. intros a Ha Hb.
  specialize (HX a Ha). specialize (HY a Hb). lia.
Qed.

Lemma within_weaken lo lo' hi hi' X :
  (lo' <= lo)%nat -> (hi <= hi')%nat -> within lo hi X -> within lo' hi' X.
Proof. intros H1 H2 HX a Ha. specialize (HX a Ha). lia. Qed.

Lemma within_union lo hi X Y : within lo hi X -> within lo hi Y -> within lo hi (X ∪ Y).
Proof. intros HX HY a [Ha|Ha]%elem_of_union; auto. Qed.

Lemma within_empty lo hi : within lo hi ∅.
Proof. intros a Ha. by apply elem_of_empty in Ha. Qed.

Lemma elem_of_owns zs a :
  NoDup (Obj.keys zs) ->
  a ∈ owns zs <-> exists k z, Obj.get k zs = Some z /\ a ∈ s_own z.
Proof.
  intros Hnd. unfold owns. rewrite elem_of_union_list. split.
  - intros (X & HX & Ha). apply list_elem_of_fmap in HX as ([k z] & -> & Hin).
    exists k, z. split; [by apply In_get|done].
  - intros (k & z & Hz & Ha). exists (s_own z). split; [|done].
    apply list_elem_of_fmap. exists (k, z). split; [done|]. by apply get_In.
Qed.

Lemma owned_extend h ext R R' v j D :
  closed h -> owned h R v j D -> R ⊆ R' ->
  (forall a, a ∈ R' -> (a < length h)%nat -> a ∈ R) ->
  owned (h ++ ext) R' v j D.
Proof.
  intros Hclosed Hown Hsub Hold. eapply owned_mono; [exact Hsub|].
  eapply owned_frame; [done|exact Hown| |].
  - intros a Ha. apply lookup_app_l. by eapply owned_bound.
  - intros a _ Ha. by apply lookup_app_l.
Qed.

Lemma leaf_scalar h v j :
  (forall l, v <> Ref l) -> read 0 h v = Some j -> owned h ∅ v j ∅.
Proof.
  intros Hv Hread. eapply owned_leaf; [|exact Hread| |done].
  - destruct v as [| | | |l]; first [done | by destruct (Hv l)].
  - intros l Hl. destruct (reach_Ref _ _ _ Hl) as [l0 ->]. by destruct (Hv l0).
Qed.

Lemma build_owned j :
  wf j = true ->
  forall h, closed h ->
    exists D R,
      owned (build j h).1 R (build j h).2 j D /\ D ## R /\
      within (length h) (length (build j h).1) D /\
      within (length h) (length (build j h).1) R.
Proof.
  induction j as [|b|n|s|l IH|o IH] using json_nested_ind; intros Hwf h Hclosed;
    try (exists ∅, ∅; split; [by apply leaf_scalar|];
         split; [set_solver|]; split; apply within_empty).
  - pose proof (build_extends (JArr l) h) as [Hext Hfresh].
    pose proof (read_build (JArr l) h) as Hread.
    destruct (build (JArr l) h) as [h1 c] eqn:Eb. cbn [fst snd] in *.
    exists ∅, (list_to_set (seq (length h) (length h1 - length h))).
    assert (Hc : exists a, c = Ref a /\ h1 !! a = Some (Array (build_elems l h).2)).
    { rewrite build_JArr in Eb. destruct (build_elems l h) as [h' elems].
      injection Eb as <- <-. exists (length h'). split; [done|].
      cbn [snd]. by rewrite lookup_app_r, Nat.sub_diag by lia. }
    destruct Hc as (a & -> & Ha).
    split; [|split; [set_solver|split; [apply within_empty|]]].
    + eapply owned_leaf; [|exact Hread| |done].
      * cbn [isObject]. by rewrite Ha.
      * intros a' Ha'. apply elem_of_list_to_set, elem_of_seq.
        pose proof (reach_lt _ _ _ Ha').
        assert (length h <= a')%nat; [|lia].
        eapply reach_fresh; [|exact Ha'|exact Hfresh].
        intros i c0. by apply extends_cells.
    + intros a' Ha'. apply elem_of_list_to_set, elem_of_seq in Ha'. lia.
  - apply wf_JObj in Hwf as [Hnd Hwfo].
    assert (Hlist : forall h, closed h ->
      exists zs R,
        vals zs = (build_props o h).2 /\ docs zs = o /\
        (forall k z, Obj.get k zs = Some z ->
           owned (build_props o h).1 R (s_val z) (s_doc z) (s_own z)) /\
        (forall k1 k2 z1 z2, k1 <> k2 -> Obj.get k1 zs = Some z1 ->
           Obj.get k2 zs = Some z2 -> s_own z1 ## s_own z2) /\
        (forall k z, Obj.get k zs = Some z ->
           within (length h) (length (build_props o h).1) (s_own z) /\
           s_own z ## R) /\
        within (length h) (length (build_props o h).1) R).
    { clear h Hclosed. induction o as [|[k x] o IHo]; intros h Hclosed.
      - exists [], ∅. repeat split; try done; apply within_empty.
      - apply Forall_cons in IH as [IHx IH]. cbn [snd] in IHx.
        change (Obj.keys ((k, x) :: o)) with (k :: Obj.keys o) in Hnd.
        apply NoDup_cons in Hnd as [Hk Hnd].
        destruct (IHx (Hwfo k x ltac:(left)) h Hclosed) as (Dx & Rx & Hx & Hdx & HwD & HwR).
        pose proof (build_closed x h Hclosed) as [Hclosed1 _].
        pose proof (extends_length _ _ (proj1 (build_extends x h))) as Hlen1.
        cbn [build_props]. destruct (build x h) as [h1 v]. cbn [fst snd] in *.
        destruct (IHo IH Hnd ltac:(intros k' x' Hin; apply (Hwfo k' x'); by right)
                    h1 Hclosed1) as (zs & Rr & Hvals & Hdocs & Hzs & Hdisj & Hw & HwRr).
        pose proof (build_props_extends o h1) as Hext2.
        destruct (build_props o h1) as [h2 vs]. cbn [fst snd] in *.
        destruct Hext2 as (ext & -> & _).
        exists ((k, Slot v x Dx) :: zs), (Rx ∪ Rr).
        assert (Hkzs : Obj.get k zs = None).
        { apply get_None_keys. rewrite <- (keys_map_values s_doc), <- docs_eq, Hdocs.
          done. }
        split; [cbn [vals map fst snd s_val]; by rewrite <- Hvals|].
        split; [cbn [docs map fst snd s_doc]; by rewrite <- Hdocs|].
        split; [|split; [|split]].
        + intros k' z. cbn [Obj.get]. destruct (String.eqb_spec k' k) as [->|Hne].
          * intros [= <-]. cbn [s_val s_doc s_own].
            eapply owned_extend; [done|exact Hx|apply union_subseteq_l|].
            intros a [Ha|Ha]%elem_of_union Hlt; [done|].
            specialize (HwRr a Ha). lia.
          * intros Hz. eapply owned_mono; [|by eapply Hzs]. apply union_subseteq_r.
        + intros k1 k2 z1 z2 Hne. cbn [Obj.get].
          destruct (String.eqb_spec k1 k) as [->|Hne1];
            destruct (String.eqb_spec k2 k) as [->|Hne2]; try done.
          * intros [= <-] Hz2. cbn [s_own].
            eapply within_disjoint; [exact HwD|]. by apply (Hw k2).
          * intros Hz1 [= <-]. cbn [s_own]. symmetry.
            eapply within_disjoint; [exact HwD|]. by apply (Hw k1).
          * by apply Hdisj.
        + intros k' z. cbn [Obj.get]. destruct (String.eqb_spec k' k) as [->|Hne].
          * intros [= <-]. cbn [s_own]. split.
            -- eapply within_weaken; [| |exact HwD]; [lia|]. rewrite length_app. lia.
            -- apply disjoint_union_r. split; [done|].
               by eapply within_disjoint.
          * intros Hz. destruct (Hw k' z Hz) as [Hwz Hdz]. split.
            -- eapply within_weaken; [| |exact Hwz]; lia.
            -- apply disjoint_union_r. split; [|done]. symmetry.
               by eapply within_disjoint.
        + apply within_union.
          * eapply within_weaken; [| |exact HwR]; [lia|]. rewrite length_app. lia.
          * eapply within_weaken; [| |exact HwRr]; lia. }
    destruct (Hlist h Hclosed) as (zs & R & Hvals & Hdocs & Hzs & Hdisj & Hw & HwR).
    pose proof (build_props_closed o h Hclosed) as [Hclosed' _].
    rewrite build_JObj. destruct (build_props o h) as [h' props] eqn:Eprops.
    cbn [fst snd new] in *. subst props.
    exists ({[length h']} ∪ owns zs), R.
    assert (Hndzs : NoDup (Obj.keys zs)).
    { by rewrite <- (keys_map_values s_doc), <- docs_eq, Hdocs. }
    split; [|split; [|split]].
    + rewrite <- Hdocs. eapply owned_object; [| | | | |].
      * by rewrite lookup_app_r, Nat.sub_diag by lia.
      * done.
      * intros k z Hz. eapply owned_extend; [done|by eapply Hzs|done|done].
      * done.
      * intros k z Hz Hin. destruct (Hw k z Hz) as [Hwz _].
        specialize (Hwz _ Hin). lia.
      * intros a. rewrite elem_of_union, elem_of_singleton, elem_of_owns by done.
        done.
    + apply disjoint_union_l. split.
      * apply disjoint_singleton_l. intros Hin. specialize (HwR _ Hin). lia.
      * apply elem_of_disjoint. intros a Ha HaR.
        apply elem_of_owns in Ha as (k & z & Hz & Ha); [|done].
        destruct (Hw k z Hz) as [_ Hd].
        exact (proj1 (elem_of_disjoint _ _) Hd a Ha HaR).
    + rewrite length_app. cbn [length]. apply within_union.
      * intros a ->%elem_of_singleton.
        pose proof (extends_length _ _ (build_props_extends o h)) as Hlen.
        rewrite Eprops in Hlen. cbn [fst] in Hlen. lia.
      * intros a Ha. apply elem_of_owns in Ha as (k & z & Hz & Ha); [|done].
        destruct (Hw k z Hz) as [Hwz _]. specialize (Hwz _ Ha). lia.
    + rewrite length_app. eapply within_weaken; [| |exact HwR]; lia.
Qed.

Lemma disjoint_elim (X Y : gset nat) a : X ## Y -> a ∈ X -> a ∈ Y -> False.
Proof. intros H. by apply elem_of_disjoint. Qed.

(** ** Replacing one property of the target *)

Lemma owned_isObject h R v j D : owned h R v j D -> Heap.isObject h v = Doc.isObject j.
Proof.
  destruct 1 as [l zs D Hl _ _ _ _ _|v j fuel D Hobj Hread _ _].
  - cbn [Heap.isObject]. by rewrite Hl.
  - by eapply isObject_read.
Qed.

Lemma owned_inv_object h R t T D :
  owned h R (Ref t) (JObj T) D ->
  exists zs,
    T = docs zs /\ h !! t = Some (Object (vals zs)) /\ NoDup (Obj.keys zs) /\
    (forall k z, Obj.get k zs = Some z -> owned h R (s_val z) (s_doc z) (s_own z)) /\
    (forall k1 k2 z1 z2, k1 <> k2 -> Obj.get k1 zs = Some z1 ->
       Obj.get k2 zs = Some z2 -> s_own z1 ## s_own z2) /\
    (forall k z, Obj.get k zs = Some z -> t ∉ s_own z) /\
    (forall a, a ∈ D <-> a = t \/ exists k z, Obj.get k zs = Some z /\ a ∈ s_own z).
Proof.
  intros H. pose proof (owned_isObject _ _ _ _ _ H) as Hobj.
  inversion H as [l zs D0 Hl Hnd Hown Hdisj Hl' HD|v j fuel D0 Hleaf Hread _ _]; subst.
  - exists zs. done.
  - cbn [Doc.isObject] in Hobj. congruence.
Qed.

Lemma elem_of_update {A} k (v : A) o k' x :
  (k', x) ∈ Obj.update k v o -> (k', x) = (k, v) \/ (k', x) ∈ o.
Proof.
  induction o as [|[k0 v0] o IH]; simpl; [auto|].
  destruct (String.eqb k k0).
  - intros [->|Hin]%elem_of_cons; [by left|]. right. by right.
  - intros [->|Hin]%elem_of_cons; [right; left|].
    destruct (IH Hin) as [->|Hin']; [by left|]. right. by right.
Qed.

Lemma elem_of_set {A} k (v : A) o k' x :
  (k', x) ∈ Obj.set k v o -> (k', x) = (k, v) \/ (k', x) ∈ o.
Proof.
  unfold Obj.set. destruct (Obj.has k o); [apply elem_of_update|].
  rewrite insert_perm. intros [->|Hin]%elem_of_cons; auto.
Qed.

Lemma update_same {A} k (v : A) o : Obj.get k o = Some v -> Obj.update k v o = o.
Proof.
  induction o as [|[k0 v0] o IH]; simpl; [done|].
  destruct (String.eqb_spec k k0) as [->|Hne].
  - by intros [= ->].
  - intros H. by rewrite IH.
Qed.

Lemma set_same {A} k (v : A) o : Obj.get k o = Some v -> Obj.set k v o = o.
Proof.
  intros H. unfold Obj.set, Obj.has. rewrite H. by apply update_same.
Qed.

Lemma store_same t k v h props :
  h !! t = Some (Object props) -> Obj.get k props = Some v -> store t k v h = h.
Proof.
  intros Ht Hk. unfold store. rewrite Ht, (set_same _ _ _ Hk).
  by apply list_insert_id.
Qed.

Lemma closed_store t k v h props :
  closed h -> h !! t = Some (Object props) -> valid h v -> closed (store t k v h).
Proof.
  intros Hclosed Ht Hv. unfold store. rewrite Ht.
  intros l c l' Hl Hin. rewrite length_insert.
  destruct (decide (l = t)) as [->|Hne].
  - rewrite list_lookup_insert_eq in Hl by (by eapply lookup_lt_Some).
    injection Hl as <-. cbn [children] in Hin.
    apply list_elem_of_fmap in Hin as ([k' x] & Hx & Hin). cbn [snd] in Hx. subst x.
    apply elem_of_set in Hin as [[= _ <-]|Hin]; [by apply Hv|].
    eapply (Hclosed t); [exact Ht|]. cbn [children].
    apply list_elem_of_fmap. by exists (k', Ref l').
  - rewrite list_lookup_insert_ne in Hl by done. by eapply Hclosed.
Qed.

Lemma post_refl h R D t T :
  closed h -> owned h R (Ref t) (JObj T) D -> D ## R ->
  (forall a, a ∈ R -> (a < length h)%nat) ->
  post h R D t T h R D.
Proof. intros. repeat split; auto. Qed.

Lemma post_trans h R D t T1 h1 R1 D1 T2 h2 R2 D2 :
  post h R D t T1 h1 R1 D1 -> post h1 R1 D1 t T2 h2 R2 D2 ->
  post h R D t T2 h2 R2 D2.
Proof.
  intros (Hc1 & Hl1 & Hf1 & Ho1 & Hd1 & Hs1 & HD1 & HR1 & Hb1)
         (Hc2 & Hl2 & Hf2 & Ho2 & Hd2 & Hs2 & HD2 & HR2 & Hb2).
  repeat split; try done.
  - lia.
  - intros a Ha HaD. rewrite Hf2; [by apply Hf1|lia|].
    intros Hin. destruct (HD1 _ Hin); [done|lia].
  - set_solver.
  - intros a Ha. destruct (HD2 _ Ha) as [Hin|Hge]; [|right; lia].
    destruct (HD1 _ Hin); [by left|right; lia].
  - intros a Ha. destruct (HR2 _ Ha) as [Hin|Hge]; [|right; lia].
    destruct (HR1 _ Hin); [by left|right; lia].
Qed.

Lemma replace_slot h R t zs D k z' h1 R1 :
  closed h ->
  h !! t = Some (Object (vals zs)) ->
  NoDup (Obj.keys zs) ->
  (forall k z, Obj.get k zs = Some z -> owned h R (s_val z) (s_doc z) (s_own z)) ->
  (forall k1 k2 z1 z2, k1 <> k2 -> Obj.get k1 zs = Some z1 ->
     Obj.get k2 zs = Some z2 -> s_own z1 ## s_own z2) ->
  (forall k z, Obj.get k zs = Some z -> t ∉ s_own z) ->
  (forall a, a ∈ D <-> a = t \/ exists k z, Obj.get k zs = Some z /\ a ∈ s_own z) ->
  D ## R ->
  (forall a, a ∈ R -> (a < length h)%nat) ->
  closed h1 -> (length h <= length h1)%nat ->
  (forall a, (a < length h)%nat ->
     (forall z, Obj.get k zs = Some z -> a ∉ s_own z) -> h1 !! a = h !! a) ->
  owned h1 R1 (s_val z') (s_doc z') (s_own z') ->
  R ⊆ R1 ->
  (forall a, a ∈ R1 -> a ∈ R \/ (length h <= a)%nat) ->
  (forall a, a ∈ R1 -> (a < length h1)%nat) ->
  s_own z' ## R1 ->
  (forall a, a ∈ s_own z' -> a ∈ D /\ a <> t \/ (length h <= a)%nat) ->
  (forall a k' z'', k' <> k ->
     Obj.get k' zs = Some z'' -> a ∈ s_own z' -> a ∉ s_own z'') ->
  valid h1 (s_val z') ->
  exists D',
    post h R D t (Obj.set k (s_doc z') (docs zs)) (store t k (s_val z') h1) R1 D'.
Proof.
  intros Hclosed Ht Hnd Hchild Hdisj Htz HD HDR HR Hclosed1 Hlen Hframe Hz' HRR1 HR1
    HR1b Hz'R Hz'D Hz'sib Hvalid.
  assert (Htlt : (t < length h)%nat) by (by eapply lookup_lt_Some).
  assert (HtD : t ∈ D) by (apply HD; by left).
  assert (HownD : forall k0 z a, Obj.get k0 zs = Some z -> a ∈ s_own z -> a ∈ D).
  { intros k0 z a Hz Ha. apply HD. right. eauto. }
  assert (Ht1 : h1 !! t = Some (Object (vals zs))).
  { rewrite <- Ht. apply Hframe; try done. intros z Hz. by eapply Htz. }
  set (zs1 := Obj.set k z' zs).
  assert (Hnd1 : NoDup (Obj.keys zs1)) by (by apply NoDup_keys_set).
  set (h2 := store t k (s_val z') h1).
  assert (Hh2 : h2 = <[t := Object (vals zs1)]> h1).
  { unfold h2, store. rewrite Ht1. unfold zs1. by rewrite vals_set. }
  assert (Hh2t : h2 !! t = Some (Object (vals zs1))).
  { rewrite Hh2. apply list_lookup_insert_eq. lia. }
  assert (Hh2o : forall a, a <> t -> h2 !! a = h1 !! a).
  { intros a Ha. rewrite Hh2. by apply list_lookup_insert_ne. }
  assert (Hget1 : forall k0 z, Obj.get k0 zs1 = Some z ->
            k0 = k /\ z = z' \/ k0 <> k /\ Obj.get k0 zs = Some z).
  { intros k0 z. unfold zs1. rewrite get_set.
    destruct (String.eqb_spec k0 k) as [->|Hne]; [intros [= <-]; by left|by right]. }
  assert (HtR1 : t ∉ R1).
  { intros Hin. destruct (HR1 _ Hin) as [HinR|Hge]; [|lia].
    by eapply (disjoint_elim _ _ t HDR). }
  assert (Htz' : t ∉ s_own z').
  { intros Hin. destruct (Hz'D _ Hin) as [[_ Hne]|Hge]; [done|lia]. }
  exists ({[t]} ∪ owns zs1).
  split; [by eapply closed_store|].
  split; [unfold h2, store; rewrite Ht1, length_insert; lia|].
  split; [|split; [|split; [|split; [done|split; [|split; [done|]]]]]].
  - intros a Ha HaD. rewrite Hh2o by (by intros ->).
    apply Hframe; try done. intros z Hz Hin. apply HaD. by eapply HownD.
  - rewrite <- docs_set. fold zs1.
    eapply owned_object; [exact Hh2t|exact Hnd1| | | |].
    + intros k0 z Hz. destruct (Hget1 _ _ Hz) as [[-> ->]|[Hne Hz0]].
      * eapply owned_frame; [exact Hclosed1|exact Hz'| |].
        -- intros a Ha. apply Hh2o. by intros ->.
        -- intros a Ha _. apply Hh2o. by intros ->.
      * eapply owned_mono; [exact HRR1|].
        eapply owned_frame; [exact Hclosed|by eapply Hchild| |].
        -- intros a Ha. rewrite Hh2o by (intros ->; by eapply Htz).
           apply Hframe; [by eapply owned_bound; [eapply Hchild|]|].
           intros z0 Hz0' Hin.
           by eapply (disjoint_elim _ _ a (Hdisj _ _ _ _ Hne Hz0 Hz0')).
        -- intros a Ha Hlt.
           assert (HaD : a ∉ D).
           { intros HaD. by eapply (disjoint_elim _ _ a HDR). }
           rewrite Hh2o by (by intros ->).
           apply Hframe; try done. intros z0 Hz0' Hin. apply HaD. by eapply HownD.
    + intros k1 k2 z1 z2 Hne Hz1 Hz2.
      destruct (Hget1 _ _ Hz1) as [[-> ->]|[Hne1 Hz1']];
        destruct (Hget1 _ _ Hz2) as [[-> ->]|[Hne2 Hz2']]; try done.
      * apply elem_of_disjoint. intros a Ha Hb. by eapply (Hz'sib a k2 z2).
      * apply elem_of_disjoint. intros a Ha Hb. by eapply (Hz'sib a k1 z1).
      * exact (Hdisj _ _ _ _ Hne Hz1' Hz2').
    + intros k0 z Hz. destruct (Hget1 _ _ Hz) as [[-> ->]|[Hne Hz0]]; [done|].
      by eapply Htz.
    + intros a. rewrite elem_of_union, elem_of_singleton, elem_of_owns by done. done.
  - apply elem_of_disjoint. intros a [->%elem_of_singleton|Ha]%elem_of_union HaR; [done|].
    apply elem_of_owns in Ha as (k0 & z & Hz & Ha); [|done].
    destruct (Hget1 _ _ Hz) as [[-> ->]|[Hne Hz0]].
    + by eapply (disjoint_elim _ _ a Hz'R).
    + assert (HaD : a ∈ D) by (by eapply HownD).
      destruct (HR1 _ HaR) as [HinR|Hge].
      * by eapply (disjoint_elim _ _ a HDR).
      * pose proof (owned_bound _ _ _ _ _ (Hchild _ _ Hz0) a Ha). lia.
  - intros a [->%elem_of_singleton|Ha]%elem_of_union; [by left|].
    apply elem_of_owns in Ha as (k0 & z & Hz & Ha); [|done].
    destruct (Hget1 _ _ Hz) as [[-> ->]|[Hne Hz0]].
    + destruct (Hz'D _ Ha) as [[? _]|?]; auto.
    + left. by eapply HownD.
  - intros a Ha. unfold h2, store. rewrite Ht1, length_insert. by apply HR1b.
Qed.

Lemma get_Forall2 {A B} (P : A -> B -> Prop) es js k j :
  Forall2 (fun kv kj => fst kv = fst kj /\ P (snd kv) (snd kj)) es js ->
  Obj.get k js = Some j -> exists v, Obj.get k es = Some v /\ P v j.
Proof.
  induction 1 as [|[k1 v1] [k2 j2] es js [Hk HP] _ IH]; [done|].
  cbn in *. subst k2. destruct (String.eqb k k1); [intros [= <-]; eauto|done].
Qed.

Lemma keys_Forall2 {A B} (P : A -> B -> Prop) es js :
  Forall2 (fun kv kj => fst kv = fst kj /\ P (snd kv) (snd kj)) es js ->
  Obj.keys es = Obj.keys js.
Proof.
  induction 1 as [|[k1 v1] [k2 j2] es js [Hk HP] _ IH]; [done|].
  cbn in *. by f_equal.
Qed.

Section Step.
Context (h : heap) (R D : gset nat) (t : nat) (zs : list (string * slot)).
Context (Hclosed : closed h).
Context (Ht : h !! t = Some (Object (vals zs))).
Context (Hnd : NoDup (Obj.keys zs)).
Context (Hchild : forall k z, Obj.get k zs = Some z ->
                    owned h R (s_val z) (s_doc z) (s_own z)).
Context (Hdisj : forall k1 k2 z1 z2, k1 <> k2 -> Obj.get k1 zs = Some z1 ->
                   Obj.get k2 zs = Some z2 -> s_own z1 ## s_own z2).
Context (Htz : forall k z, Obj.get k zs = Some z -> t ∉ s_own z).
Context (HD : forall a, a ∈ D <->
                a = t \/ exists k z, Obj.get k zs = Some z /\ a ∈ s_own z).
Context (HDR : D ## R).
Context (HR : forall a, a ∈ R -> (a < length h)%nat).

Lemma step_replace key sv jv fuel0 :
  Heap.isObject h sv = false ->
  read fuel0 h sv = Some jv ->
  (forall l, reach h sv l -> l ∈ R) ->
  exists D', post h R D t (Obj.set key jv (docs zs)) (store t key sv h) R D'.
Proof.
  intros Hobj Hread Hreach.
  destruct (replace_slot h R t zs D key (Slot sv jv ∅) h R) as [D' Hpost];
    try done.
  - by eapply owned_leaf.
  - intros a Ha. by left.
  - cbn [s_val]. intros l ->. apply read_valid in Hread as [c Hc].
    by eapply lookup_lt_Some.
  - by exists D'.
Qed.

Lemma step_copy key jv :
  wf jv = true ->
  exists R' D',
    post h R D t (Obj.set key jv (docs zs))
      (store t key (build jv h).2 (build jv h).1) R' D'.
Proof.
  intros Hwf.
  destruct (build_extends jv h) as [Hext Hfresh].
  destruct (build_closed jv h Hclosed) as [Hclosed1 Hvalid].
  destruct (build_owned jv Hwf h Hclosed) as (D0 & R0 & Hown & HDR0 & HD0 & HR0).
  destruct (build jv h) as [h1 c]. cbn [fst snd] in *.
  pose proof (extends_length _ _ Hext) as Hlen.
  destruct (replace_slot h R t zs D key (Slot c jv D0) h1 (R ∪ R0)) as [D' Hpost];
    try done.
  - intros a Ha _. destruct Hext as (ext & -> & _). by apply lookup_app_l.
  - eapply owned_mono; [|exact Hown]. apply union_subseteq_r.
  - apply union_subseteq_l.
  - intros a [Ha|Ha]%elem_of_union; [by left|right]. by apply HR0.
  - intros a [Ha|Ha]%elem_of_union; [apply HR in Ha; lia|by apply HR0].
  - apply elem_of_disjoint. cbn [s_own]. intros a Ha [Hb|Hb]%elem_of_union.
    + apply HD0 in Ha. apply HR in Hb. lia.
    + by eapply (disjoint_elim _ _ a HDR0).
  - cbn [s_own]. intros a Ha. right. by apply HD0.
  - cbn [s_own]. intros a k' z'' _ Hz'' Ha Hb. apply HD0 in Ha.
    pose proof (owned_bound _ _ _ _ _ (Hchild _ _ Hz'') a Hb). lia.
  - by exists (R ∪ R0), D'.
Qed.

Lemma step_recur key z t' T0 T1 h' R' D' :
  Obj.get key zs = Some z -> s_val z = Ref t' -> s_doc z = JObj T0 ->
  post h R (s_own z) t' T1 h' R' D' ->
  exists D'', post h R D t (Obj.set key (JObj T1) (docs zs)) h' R' D''.
Proof.
  intros Hz Hv Hd (Hc1 & Hl1 & Hf1 & Ho1 & Hd1 & Hs1 & HD1 & HR1 & Hb1).
  pose proof (Hchild _ _ Hz) as Hownz. rewrite Hv, Hd in Hownz.
  assert (Ht' : (t' < length h)%nat).
  { apply owned_inv_object in Hownz as (zs0 & _ & Hl & _). by eapply lookup_lt_Some. }
  assert (Htlt : (t < length h)%nat) by (by eapply lookup_lt_Some).
  destruct (replace_slot h R t zs D key (Slot (Ref t') (JObj T1) D') h' R')
    as [D'' Hpost]; try done.
  - intros a Ha Hnot. apply Hf1; [done|]. by apply Hnot.
  - cbn [s_own]. intros a Ha. destruct (HD1 _ Ha) as [Hin|Hge]; [left|by right].
    split; [apply HD; right; eauto|]. intros ->. by eapply Htz.
  - cbn [s_own]. intros a k' z'' Hne Hz'' Ha Hb.
    destruct (HD1 _ Ha) as [Hin|Hge].
    + by eapply (disjoint_elim _ _ a (Hdisj _ _ _ _ Hne Hz'' Hz)).
    + pose proof (owned_bound _ _ _ _ _ (Hchild _ _ Hz'') a Hb). lia.
  - cbn [s_val]. intros l [= <-]. lia.
  - exists D''. cbn [s_val s_doc] in Hpost.
    erewrite store_same in Hpost; [exact Hpost| |].
    + rewrite Hf1; [exact Ht|done|]. by eapply Htz.
    + rewrite get_vals, Hz. cbn. by rewrite Hv.
Qed.

End Step.

Lemma merge_key_run_replace recur fuel t s h key sv :
  own h s key = Some sv -> Heap.isObject h sv = false ->
  merge_key recur fuel t s h key = Some (store t key sv h).
Proof. intros Hs Hobj. unfold merge_key. by rewrite Hs, Hobj. Qed.

Lemma merge_key_run_copy recur fuel t s h key sv jv :
  own h s key = Some sv -> Heap.isObject h sv = true ->
  (forall t', own h (Ref t) key = Some (Ref t') -> Heap.isObject h (Ref t') = false) ->
  read fuel h sv = Some jv ->
  merge_key recur fuel t s h key =
  Some (store t key (build jv h).2 (build jv h).1).
Proof.
  intros Hs Hobj Hno Hread. unfold merge_key, copy. rewrite Hs, Hobj, Hread.
  destruct (build jv h) as [h1 c]. cbn [fst snd].
  destruct (own h (Ref t) key) as [[| | | |t']|]; try done.
  by rewrite (Hno t').
Qed.

Lemma merge_key_run_recur recur fuel t s h key sv t' :
  own h s key = Some sv -> Heap.isObject h sv = true ->
  own h (Ref t) key = Some (Ref t') -> Heap.isObject h (Ref t') = true ->
  merge_key recur fuel t s h key = recur h t' [Some sv].
Proof. intros Hs Hobj Ht Hobj'. unfold merge_key. by rewrite Hs, Hobj, Ht, Hobj'. Qed.

Lemma merge_step h R D t T s key sv jv fuel0 :
  closed h -> owned h R (Ref t) (JObj T) D -> D ## R ->
  (forall a, a ∈ R -> (a < length h)%nat) ->
  own h s key = Some sv ->
  read fuel0 h sv = Some jv ->
  (forall l, reach h sv l -> l ∈ R) ->
  wf jv = true ->
  (Doc.isObject jv = true -> merges jv) ->
  exists fuel h' R' D',
    merge_key (deepMerge fuel) fuel t s h key = Some h' /\
    post h R D t (Doc.merge_key T (key, jv)) h' R' D'.
Proof.
  intros Hclosed Hown HDR HR Hs Hread Hreach Hwf IH.
  destruct (owned_inv_object _ _ _ _ _ Hown)
    as (zs & -> & Ht & Hnd & Hchild & Hdisj & Htz & HD).
  pose proof (isObject_read _ _ _ _ Hread) as Hobj.
  assert (Htv : own h (Ref t) key = s_val <$> Obj.get key zs).
  { unfold own. cbn [Heap.own_entries]. by rewrite Ht, get_vals. }
  destruct (Doc.isObject jv) eqn:Ej.
  2:{ destruct (step_replace h R D t zs Hclosed Ht Hnd Hchild Hdisj Htz HD HDR HR
                  key sv jv fuel0) as [D' Hpost]; try done.
      exists 0%nat, (store t key sv h), R, D'. split.
      - by apply merge_key_run_replace.
      - by rewrite merge_key_replace. }
  destruct jv as [| | | | |so]; try discriminate.
  assert (Hcase : (exists t', own h (Ref t) key = Some (Ref t') /\
                              Heap.isObject h (Ref t') = true) \/
                  (forall t', own h (Ref t) key = Some (Ref t') ->
                              Heap.isObject h (Ref t') = false)).
  { destruct (own h (Ref t) key) as [[| | | |t']|]; try (right; intros ? [=]; done).
    destruct (Heap.isObject h (Ref t')) eqn:E; [left; eauto|].
    right. by intros ? [= <-]. }
  destruct Hcase as [(t' & Ht' & Hobj')|Hno].
  - rewrite Htv in Ht'. destruct (Obj.get key zs) as [z|] eqn:Ez; [|done].
    cbn in Ht'. injection Ht' as Ev.
    pose proof (Hchild _ _ Ez) as Hownz.
    pose proof (owned_isObject _ _ _ _ _ Hownz) as Hz. rewrite Ev, Hobj' in Hz.
    destruct (s_doc z) as [| | | | |T0] eqn:Ed; try discriminate.
    rewrite Ev in Hownz.
    destruct (IH eq_refl h R (s_own z) t' T0 sv fuel0)
      as (fuel & h' & R' & D' & Hrun & Hpost); try done.
    { apply elem_of_disjoint. intros a Ha Hb.
      eapply (disjoint_elim _ _ a HDR); [|done]. apply HD. right. eauto. }
    destruct (step_recur h R D t zs Hclosed Ht Hnd Hchild Hdisj Htz HD HDR HR
                key z t' T0 _ h' R' D' Ez Ev Ed Hpost) as [D'' Hpost'].
    exists fuel, h', R', D''. split.
    + erewrite merge_key_run_recur; try done. rewrite Htv, ?Ez; cbn; by rewrite Ev.
    + unfold Doc.merge_key. rewrite get_docs, Ez. cbn [fmap option_fmap option_map].
      rewrite Ed, merged_value_objects. exact Hpost'.
  - destruct (step_copy h R D t zs Hclosed Ht Hnd Hchild Hdisj Htz HD HDR HR
                key (JObj so) Hwf) as (R' & D' & Hpost).
    exists fuel0, (store t key (build (JObj so) h).2 (build (JObj so) h).1), R', D'.
    split.
    + by eapply merge_key_run_copy.
    + rewrite merge_key_copy; [done|]. intros o. rewrite get_docs.
      destruct (Obj.get key zs) as [z|] eqn:Ez; [|done]. cbn. intros [= Ed].
      pose proof (owned_isObject _ _ _ _ _ (Hchild _ _ Ez)) as Hz.
      rewrite Ed in Hz. cbn in Hz.
      destruct (s_val z) as [| | | |t'] eqn:Ev; try discriminate.
      rewrite (Hno t') in Hz; [done|]. rewrite Htv, ?Ez; cbn; by rewrite Ev.
Qed.

Lemma source_kept h R D t T h' R' D' s J fuel0 :
  closed h -> D ## R -> (forall a, a ∈ R -> (a < length h)%nat) ->
  post h R D t T h' R' D' ->
  read fuel0 h s = Some J -> (forall l, reach h s l -> l ∈ R) ->
  read fuel0 h' s = Some J /\ (forall l, reach h' s l -> l ∈ R').
Proof.
  intros Hclosed HDR HR (Hc1 & Hl1 & Hf1 & Ho1 & Hd1 & Hs1 & HD1 & HR1 & Hb1)
    Hread Hreach.
  assert (Hagree : forall a, reach h s a -> h' !! a = h !! a).
  { intros a Ha. apply Hreach in Ha. apply Hf1; [by apply HR|].
    intros HaD. by eapply (disjoint_elim _ _ a HDR). }
  split; [by eapply read_agree|].
  intros l Hl. apply Hs1, Hreach. eapply reach_agree; try done.
  intros l0 ->. by eapply read_valid.
Qed.

Lemma run_keys_mono fuel fuel' t s keys st h' :
  (fuel <= fuel')%nat ->
  run_keys fuel t s keys st = Some h' -> run_keys fuel' t s keys st = Some h'.
Proof.
  intros Hle. unfold run_keys. apply fold_keys_mono; [|done].
  intros h key h1. apply merge_key_mono; [|done].
  intros h0 t0 ss r Hr. by eapply deepMerge_fuel_mono.
Qed.

Lemma deepMerge_S fuel h t source rest :
  deepMerge (S fuel) h t (source :: rest) =
  match
    match source with
    | Some s => run_keys fuel t s (Obj.keys (Heap.own_entries h s)) (Some h)
    | None => Some h
    end
  with
  | Some h' => deepMerge fuel h' t rest
  | None => None
  end.
Proof. reflexivity. Qed.

Lemma merge_loop J s fuel0 t :
  wf J = true ->
  (forall k jv, prop k J = Some jv -> Doc.isObject jv = true -> merges jv) ->
  forall js,
    (forall k jv, (k, jv) ∈ js -> prop k J = Some jv) ->
    forall h R D T,
      closed h -> owned h R (Ref t) (JObj T) D -> D ## R ->
      (forall a, a ∈ R -> (a < length h)%nat) ->
      read fuel0 h s = Some J -> (forall l, reach h s l -> l ∈ R) ->
      exists fuel h' R' D',
        run_keys fuel t s (Obj.keys js) (Some h) = Some h' /\
        post h R D t (fold_left Doc.merge_key js T) h' R' D'.
Proof.
  intros Hwf IH js. induction js as [|[k jv] js IHjs];
    intros Hjs h R D T Hclosed Hown HDR HR Hread Hreach.
  - exists 0%nat, h, R, D. split; [done|by apply post_refl].
  - assert (Hk : prop k J = Some jv) by (apply Hjs; left).
    destruct (get_Forall2 (fun v j => read fuel0 h v = Some j) _ _ _ _
                (read_entries _ _ _ _ Hread) Hk)
      as (sv & Hsv & Hreadv).
    destruct (merge_step h R D t T s k sv jv fuel0)
      as (fuel1 & h1 & R1 & D1 & Hrun1 & Hpost1); try done.
    { intros l Hl. apply Hreach. eapply reach_entry; [|exact Hl].
      by apply get_In. }
    { by eapply wf_prop. }
    { intros Hobj. by eapply IH. }
    destruct (source_kept _ _ _ _ _ _ _ _ _ _ _ Hclosed HDR HR Hpost1 Hread Hreach)
      as [Hread1 Hreach1].
    pose proof Hpost1 as (Hc1 & _ & _ & Ho1 & Hd1 & _ & _ & _ & Hb1).
    destruct (IHjs (fun k0 j0 Hin => Hjs k0 j0 (list_elem_of_further _ _ _ Hin))
                h1 R1 D1 _ Hc1 Ho1 Hd1 Hb1 Hread1 Hreach1)
      as (fuel2 & h' & R' & D' & Hrun2 & Hpost2).
    exists (Nat.max fuel1 fuel2), h', R', D'. split.
    + cbn. unfold run_keys in *. cbn [fold_left].
      erewrite merge_key_mono; [| |apply Nat.le_max_l|exact Hrun1].
      * eapply (run_keys_mono fuel2); [lia|exact Hrun2].
      * intros h0 t0 ss r Hr. eapply deepMerge_fuel_mono; [exact Hr|lia].
    + cbn [fold_left]. eapply post_trans; [exact Hpost1|exact Hpost2].
Qed.

Lemma merges_of_entries J :
  (forall k jv, prop k J = Some jv -> Doc.isObject jv = true -> merges jv) ->
  merges J.
Proof.
  intros IH h R D t T s fuel0 Hclosed Hown HDR HR Hread Hreach Hwf.
  destruct (merge_loop J s fuel0 t Hwf IH (Doc.own_entries J)
              (fun k jv Hin => proj2 (prop_In k J jv Hwf) Hin)
              h R D T Hclosed Hown HDR HR Hread Hreach)
    as (fuel & h' & R' & D' & Hrun & Hpost).
  exists (S (S fuel)), h', R', D'. split; [|exact Hpost].
  apply (run_keys_mono _ (S fuel)) in Hrun; [|lia].
  rewrite deepMerge_S.
  rewrite (keys_Forall2 (fun v j => read fuel0 h v = Some j) _ _
             (read_entries _ _ _ _ Hread)).
  by rewrite Hrun.
Qed.

Lemma merges_all J : merges J.
Proof.
  induction J as [|b|n|s|l IH|o IH] using json_nested_ind;
    apply merges_of_entries; intros k jv Hk Hobj; try done.
  - apply get_In, elem_of_indexed, list_elem_of_fmap in Hk as (c & -> & _). done.
  - apply get_In, elem_of_indexed in Hk.
    by apply (proj1 (Forall_forall _ _) IH).
  - apply get_In in Hk. by apply (proj1 (Forall_forall _ _) IH (k, jv)).
Qed.

Lemma source_ok_kept h R D t T h' R' D' o :
  closed h -> D ## R -> (forall a, a ∈ R -> (a < length h)%nat) ->
  post h R D t T h' R' D' -> source_ok h R o -> source_ok h' R' o.
Proof.
  intros Hclosed HDR HR Hpost. destruct o as [[v J]|]; [|done].
  intros ([fuel0 Hread] & Hreach & Hwf).
  destruct (source_kept _ _ _ _ _ _ _ _ _ _ _ Hclosed HDR HR Hpost Hread Hreach).
  split; [eauto|done].
Qed.

Lemma deepMerge_one fuel h t s h1 :
  deepMerge fuel h t [Some s] = Some h1 ->
  exists fuel1, run_keys fuel1 t s (Obj.keys (Heap.own_entries h s)) (Some h) = Some h1.
Proof.
  destruct fuel as [|fuel]; [done|]. rewrite deepMerge_S.
  destruct (run_keys fuel t s _ _) as [hx|] eqn:E; [|done].
  destruct fuel; [done|]. cbn [deepMerge]. intros [= <-]. eauto.
Qed.

Lemma merges_list (sources : list (option (value * json))) :
  forall h R D t T,
    closed h -> owned h R (Ref t) (JObj T) D -> D ## R ->
    (forall a, a ∈ R -> (a < length h)%nat) ->
    Forall (source_ok h R) sources ->
    exists fuel h' R' D',
      deepMerge fuel h t (map (fmap fst) sources) = Some h' /\
      post h R D t (Doc.deepMerge T (map (fmap snd) sources)) h' R' D' /\
      Forall (source_ok h' R') sources.
Proof.
  induction sources as [|[[v J]|] rest IH];
    intros h R D t T Hclosed Hown HDR HR Hall.
  - exists 1%nat, h, R, D. split; [done|]. split; [by apply post_refl|done].
  - apply Forall_cons in Hall as [Hsrc Hall].
    pose proof Hsrc as ([fuel0 Hread] & Hreach & Hwf).
    destruct (merges_all J h R D t T v fuel0)
      as (fuel1 & h1 & R1 & D1 & Hrun1 & Hpost1); try done.
    apply deepMerge_one in Hrun1 as [f1 Hrun1].
    pose proof Hpost1 as (Hc1 & _ & _ & Ho1 & Hd1 & _ & _ & _ & Hb1).
    destruct (IH h1 R1 D1 t _ Hc1 Ho1 Hd1 Hb1)
      as (fuel2 & h' & R' & D' & Hrun2 & Hpost2 & Hall2).
    { eapply Forall_impl; [exact Hall|]. intros o. by eapply source_ok_kept. }
    exists (S (Nat.max f1 fuel2)), h', R', D'. split; [|split].
    + cbn [map fmap option_fmap option_map fst]. rewrite deepMerge_S.
      rewrite (run_keys_mono f1 _ _ _ _ _ h1); [|lia|done].
      eapply deepMerge_fuel_mono; [exact Hrun2|lia].
    + cbn [map fmap option_fmap option_map snd Doc.deepMerge].
      eapply post_trans; [exact Hpost1|exact Hpost2].
    + constructor; [|done].
      eapply source_ok_kept; [| | |exact Hpost2|]; try done.
      exact (source_ok_kept _ _ _ _ _ _ _ _ _ Hclosed HDR HR Hpost1 Hsrc).
  - apply Forall_cons in Hall as [_ Hall].
    destruct (IH h R D t T Hclosed Hown HDR HR Hall)
      as (fuel2 & h' & R' & D' & Hrun2 & Hpost2 & Hall2).
    exists (S fuel2), h', R', D'. split; [|split]; try done.
    by constructor.
Qed.

(** [deepMerge] on the heap computes [deepMerge] on documents: when the
    target owns its objects and the sources lie in a region apart, the call
    returns, the target then stands for the merged document, and every
    source still stands for its own. *)
Theorem deepMerge_refines h R D t T sources :
  closed h -> owned h R (Ref t) (JObj T) D -> D ## R ->
  (forall a, a ∈ R -> (a < length h)%nat) ->
  Forall (source_ok h R) sources ->
  exists fuel h',
    deepMerge fuel h t (map (fmap fst) sources) = Some h' /\
    read fuel h' (Ref t) =
      Some (JObj (Doc.deepMerge T (map (fmap snd) sources))) /\
    Forall (fun o => forall v J, o = Some (v, J) ->
                       exists fuel0, read fuel0 h' v = Some J) sources.
Proof.
  intros Hclosed Hown HDR HR Hall.
  destruct (merges_list sources h R D t T Hclosed Hown HDR HR Hall)
    as (fuel & h' & R' & D' & Hrun & Hpost & Hall').
  destruct Hpost as (_ & _ & _ & Hown' & _).
  destruct (owned_read _ _ _ _ _ Hown') as [fuel' Hread].
  exists (Nat.max fuel fuel'), h'. split; [|split].
  - eapply deepMerge_fuel_mono; [exact Hrun|lia].
  - eapply read_fuel_mono; [exact Hread|lia].
  - eapply Forall_impl; [exact Hall'|]. intros o Ho v J ->. by destruct Ho.
Qed.

Lemma build_elems_sources l :
  forall h, closed h ->
    exists srcs,
      map fst srcs = (build_elems l h).2 /\ map snd srcs = l /\
      closed (build_elems l h).1 /\
      Forall (fun vj => read (height vj.2) (build_elems l h).1 vj.1 = Some vj.2 /\
                        forall a, reach (build_elems l h).1 vj.1 a ->
                                  (length h <= a)%nat) srcs.
Proof.
  induction l as [|x l IH]; intros h Hclosed.
  - exists []. by repeat split.
  - cbn [build_elems].
    destruct (build_extends x h) as [Hext Hfresh].
    destruct (build_closed x h Hclosed) as [Hclosed1 _].
    pose proof (read_build x h) as Hread.
    destruct (build x h) as [ha v]. cbn [fst snd] in *.
    destruct (IH ha Hclosed1) as (srcs & Hvs & Hjs & Hclosed2 & Hall).
    pose proof (build_elems_extends l ha) as Hext2.
    destruct (build_elems l ha) as [hb vs]. cbn [fst snd] in *.
    exists ((v, x) :: srcs). cbn [map fst snd]. rewrite Hvs, Hjs.
    repeat split; try done. constructor.
    + cbn [fst snd]. split.
      * destruct Hext2 as (ext & -> & _). by apply read_extends.
      * intros a Ha. eapply (reach_fresh (length h)); [|exact Ha|exact Hfresh].
        intros i c Hi Hc. eapply extends_cells; [|exact Hi|exact Hc].
        by eapply extends_trans.
    + eapply Forall_impl; [exact Hall|]. intros [v' x'] [Hr Hre]. split; [done|].
      intros a Ha. apply Hre in Ha. apply extends_length in Hext. lia.
Qed.

(** The run of [merge_documents] returns, with [deepMerge] of the
    documents. *)
Lemma merge_documents_agree target sources :
  wf (JObj target) = true -> Forall (fun J => wf J = true) sources ->
  exists fuel,
    merge_documents fuel target sources =
    Some (JObj (Doc.deepMerge target (map Some sources))).
Proof.
  intros Hwf Hwfs. unfold merge_documents.
  assert (Hnil : closed []) by (intros l c l' Hl; done).
  destruct (build_owned (JObj target) Hwf [] Hnil) as (D & R0 & Hown & HDR0 & HD & HR0).
  destruct (build_closed (JObj target) [] Hnil) as [Hclosed0 _].
  assert (Ht : exists l, (build (JObj target) []).2 = Ref l).
  { rewrite build_JObj. destruct (build_props target []). cbn. eauto. }
  destruct Ht as [l Ht].
  destruct (build (JObj target) []) as [h0 t]. cbn [fst snd] in *. subst t.
  destruct (build_elems_sources sources h0 Hclosed0)
    as (srcs & Hvs & Hjs & Hclosed1 & Hall).
  pose proof (build_elems_extends sources h0) as Hext.
  destruct (build_elems sources h0) as [h1 vs]. cbn [fst snd] in *.
  pose proof (extends_length _ _ Hext) as Hlen.
  set (R := R0 ∪ list_to_set (seq (length h0) (length h1 - length h0)) : gset nat).
  assert (HR : forall a, a ∈ R <-> a ∈ R0 \/ (length h0 <= a < length h1)%nat).
  { intros a. unfold R. rewrite elem_of_union, elem_of_list_to_set, elem_of_seq.
    split; (intros [?|?]; [by left|right; lia]). }
  destruct (deepMerge_refines h1 R D l target (map Some srcs))
    as (fuel & h' & Hrun & Hread & _).
  - done.
  - destruct Hext as (ext & -> & _). eapply owned_extend; try done.
    + intros a Ha. apply HR. by left.
    + intros a Ha Hlt. apply HR in Ha as [Ha|Ha]; [done|lia].
  - apply elem_of_disjoint. intros a Ha Hb. apply HR in Hb as [Hb|Hb].
    + by eapply (disjoint_elim _ _ a HDR0).
    + apply HD in Ha. lia.
  - intros a Ha. apply HR in Ha as [Ha|Ha]; [apply HR0 in Ha|]; lia.
  - apply Forall_fmap. assert (Hw : Forall (fun vj => wf vj.2 = true) srcs).
    { rewrite <- Hjs in Hwfs. by apply Forall_fmap in Hwfs. }
    eapply Forall_impl; [exact (proj2 (Forall_and _ _) (conj Hall Hw))|].
    intros [v J] [[Hr Hre] HwJ]. cbn [fst snd] in *. split; [eauto|]. split; [|done].
    intros a Ha. apply HR. right. split; [by apply Hre|by eapply reach_lt].
  - exists fuel. rewrite !map_map in Hrun, Hread. cbn [fmap option_fmap option_map] in *.
    rewrite <- Hvs, map_map, Hrun, Hread. rewrite <- Hjs, map_map. done.
Qed.

(** X9: [deepMerge] on documents says what the program computes on
    objects that were parsed apart: for documents whose property names are
    plain, merging the parsed sources into the parsed target, in place and
    with the copies and the references of the code, returns, and
    serialising the target then gives [deepMerge] of the documents. *)
Theorem merge_documents_refines target sources :
  wf (JObj target) = true -> plain (JObj target) = true ->
  Forall (fun J => wf J = true) sources ->
  Forall (fun J => plain J = true) sources ->
  exists fuel,
    merge_documents fuel target sources =
    Some (JObj (Doc.deepMerge target (map Some sources))).
Proof. intros Hwf _ Hwfs _. by apply merge_documents_agree. Qed.

(** Two parsed sources merged into a new object. *)
Example merge_documents_sample :
  merge_documents 4 []
    [JObj [("a", JObj [("x", JNum 1)])]; JObj [("a", JObj [("y", JNum 2)])]]
  = Some (JObj [("a", JObj [("x", JNum 1); ("y", JNum 2)])]).
Proof. reflexivity. Qed.

(** The premise of ownership is needed: when two properties of the target
    hold the same object, a merge under one of them shows under the other,
    which [deepMerge] on documents does not say. *)
Example shared_target_object :
  let h := [Object [("a", Ref 1); ("b", Ref 1)]; Object [];
            Object [("a", Ref 3)]; Object [("x", Number 1)]] in
  read 3 h (Ref 0) = Some (JObj [("a", JObj []); ("b", JObj [])]) /\
  read 3 h (Ref 2) = Some (JObj [("a", JObj [("x", JNum 1)])]) /\
  (deepMerge 3 h 0 [Some (Ref 2)] ≫= fun h' => read 3 h' (Ref 0))
  = Some (JObj [("a", JObj [("x", JNum 1)]); ("b", JObj [("x", JNum 1)])]) /\
  Doc.deepMerge [("a", JObj []); ("b", JObj [])]
    [Some (JObj [("a", JObj [("x", JNum 1)])])]
  = [("a", JObj [("x", JNum 1)]); ("b", JObj [])].
Proof. repeat split. Qed.

End OwnershipFacts.

(** ** The contract of [deepMerge], on documents and on the heap *)



(** * Further properties of the code *)

(** ** The registry loader, entry by entry *)

Section JsonLoaderFacts.

Variable JSON_parse : string -> option json.

Lemma json_items_cons rec item node rest tree :
  json_items JSON_parse rec ((item, node) :: rest) tree =
  json_items JSON_parse rec rest
    (match
       (if JsString.startsWith "." item then None
        else match node with
             | FFile c => if JsString.endsWith ".json" item then JSON_parse c else None
             | FDir _ => if (0 <? length (Obj.keys (rec node)))%nat
                         then Some (JObj (rec node)) else None
             | FOther => None
             end)
     with
     | Some v => Obj.set item v tree
     | None => tree
     end).
Proof.
  cbn [json_items]. destruct (JsString.startsWith "." item); [done|].
  destruct node as [c|sub|]; [| |done].
  - destruct (JsString.endsWith ".json" item); [|done]. by destruct (JSON_parse c).
  - by destruct (0 <? _)%nat.
Qed.



Lemma json_items_NoDup rec items tree :
  NoDup (Obj.keys tree) -> NoDup (Obj.keys (json_items JSON_parse rec items tree)).
Proof.
  revert tree. induction items as [|[item node] rest IH]; intros tree Hnd; [done|].
  rewrite json_items_cons. apply IH.
  destruct (if JsString.startsWith "." item then _ else _); [|done].
  by apply NoDup_keys_set.
Qed.



Lemma wf_set k v o :
  wf (JObj o) = true -> wf v = true -> wf (JObj (Obj.set k v o)) = true.
Proof.
  intros [Hnd Hall]%wf_JObj Hv. apply wf_JObj. split; [by apply NoDup_keys_set|].
  intros k' x [[= -> ->]|Hin]%OwnershipFacts.elem_of_set; [done|]. by eapply Hall.
Qed.

Lemma json_items_wf rec items tree :
  (forall s v, JSON_parse s = Some v -> wf v = true) ->
  Forall (fun e => wf (JObj (rec (snd e))) = true) items ->
  wf (JObj tree) = true ->
  wf (JObj (json_items JSON_parse rec items tree)) = true.
Proof.
  intros Hparse Hall. revert tree.
  induction Hall as [|[item node] rest Hnode _ IH]; intros tree Hwf; [done|].
  rewrite json_items_cons. apply IH.
  destruct (JsString.startsWith "." item); [done|].
  destruct node as [c|sub|]; [| |done].
  - destruct (JsString.endsWith ".json" item); [|done].
    destruct (JSON_parse c) as [v|] eqn:E; [|done].
    apply wf_set; [done|]. by eapply Hparse.
  - destruct (0 <? _)%nat; [|done]. by apply wf_set.
Qed.


(** X2: when [JSON.parse] returns documents without duplicate keys, so does
    [createJsonObjectTree], at every level of the tree. *)
Theorem createJsonObjectTree_wf (dir : fsnode) :
  (forall s v, JSON_parse s = Some v -> wf v = true) ->
  wf (JObj (createJsonObjectTree JSON_parse dir)) = true.
Proof.
  intros Hparse. revert dir. fix IH 1. intros [c|items|]; [done| |done].
  cbn [createJsonObjectTree]. apply json_items_wf; [done| |done].
  induction items as [|[item node] rest IHitems]; constructor; [apply IH|done].
Qed.


End JsonLoaderFacts.


Lemma createJsonObjectTree_wf_witness :
  let parse := fun s : string => if String.eqb s "1" then Some (JNum 1) else None in
  wf (JObj (createJsonObjectTree parse
              (FDir [("a", FDir [("b.json", FFile "1")]); ("c.json", FFile "1")]))) = true.
Proof.
  intros parse. apply createJsonObjectTree_wf.
  intros s v. unfold parse. destruct (String.eqb s "1"); [|done]. by intros [= <-].
Defined.



(** ** The rows of a pivot *)

Lemma keys_nil_iff {A} (o : list (string * A)) :
  o = [] <-> forall k, k ∉ Obj.keys o.
Proof.
  split; [intros -> k; apply not_elem_of_nil|].
  destruct o as [|[k v] o]; [done|]. intros H. destruct (H k). left.
Qed.

(** X4: for a document whose property names are plain, every value of
    the object that [inverseNestedObject] returns is an object with at least
    one key, and its keys are the outer keys under which the inner key
    occurs in an object or an array; the result is empty exactly when no
    object or array of the input has a key. *)
Theorem inverseNestedObject_rows (m : json) :
  wf m = true -> plain m = true ->
  (forall inner row,
      Obj.get inner (inverseNestedObject m) = Some row ->
      exists r, row = JObj r /\ r <> [] /\ NoDup (Obj.keys r) /\
        forall outer,
          outer ∈ Obj.keys r <->
          exists v, prop outer m = Some v /\ is_objectlike v = true /\
                    inner ∈ Obj.keys (own_entries v)) /\
  (inverseNestedObject m = [] <->
   forall outer v,
     prop outer m = Some v -> is_objectlike v = true -> own_entries v = []).
Proof.
  intros Hwf _. pose proof (wf_own_entries m Hwf) as [Hnd _]. split.
  - intros inner row Hrow.
    destruct (inverse_rows m inner row Hrow) as (r & -> & Hndr).
    pose proof (inverse_row m inner Hwf) as Hr. rewrite Hrow in Hr.
    destruct Hr as (_ & _ & Hthrough).
    assert (Hkeys : forall outer,
               outer ∈ Obj.keys r <->
               exists v, prop outer m = Some v /\ is_objectlike v = true /\
                         inner ∈ Obj.keys (own_entries v)).
    { intros outer. specialize (Hthrough outer).
      change (prop outer (JObj r)) with (Obj.get outer r) in Hthrough.
      unfold through in Hthrough. split.
      - intros [x Hx]%keys_get_Some. rewrite Hx in Hthrough.
        destruct (prop outer m) as [v|]; [|done]. exists v.
        symmetry in Hthrough. apply oprop_Some in Hthrough as [Hobj Hin].
        split; [done|]. split; [done|]. by eapply get_Some_keys.
      - intros (v & Hv & Hobj & [x Hx]%keys_get_Some). rewrite Hv in Hthrough.
        unfold oprop in Hthrough. rewrite Hobj in Hthrough. unfold prop in Hthrough.
        rewrite Hx in Hthrough. by eapply get_Some_keys. }
    exists r. split; [done|]. split; [|done].
    apply get_Some_keys, inverse_keys in Hrow as (l1 & v & Hin & Hobj & Hk).
    intros ->. apply (not_elem_of_nil l1). apply Hkeys. exists v.
    split; [by apply In_get|done].
  - rewrite keys_nil_iff. split.
    + intros Hno outer v Hv Hobj. apply keys_nil_iff. intros k Hk.
      apply (Hno k), inverse_keys. exists outer, v. split; [by apply get_In|done].
    + intros Hno k (l1 & v & Hin & Hobj & Hk)%inverse_keys.
      rewrite (Hno l1 v) in Hk; [by apply elem_of_nil in Hk|by apply In_get|done].
Qed.

Lemma inverseNestedObject_rows_witness :
  let m := JObj [("a", JObj [("x", JNum 1)]); ("b", JObj []); ("c", JNum 2)] in
  exists r, Obj.get "x" (inverseNestedObject m) = Some (JObj r) /\ r <> [].
Proof.
  intros m.
  destruct (proj1 (inverseNestedObject_rows m eq_refl eq_refl) "x"
              (JObj [("a", JNum 1)]) eq_refl)
    as (r & Hr & Hne & _).
  exists r. split; [by rewrite <- Hr|done].
Defined.

(** ** [deepMerge]: what a key holds after the call *)

Lemma merge_fold_get es : forall t k,
  NoDup (Obj.keys es) ->
  Obj.get k (fold_left merge_key es t) =
  match Obj.get k es with
  | Some sv => Some (merged_value sv (Obj.get k t))
  | None => Obj.get k t
  end.
Proof.
  induction es as [|[k0 sv0] es IH]; intros t k Hnd; [done|].
  change (Obj.keys ((k0, sv0) :: es)) with (k0 :: Obj.keys es) in Hnd.
  apply NoDup_cons in Hnd as [Hk0 Hnd].
  cbn [fold_left merge_key Obj.get]. rewrite IH by done. rewrite get_set.
  destruct (String.eqb_spec k k0) as [->|Hne]; [|done].
  by rewrite (proj2 (get_None_keys k0 es) Hk0).
Qed.

Lemma merge_fold_keys es : forall t k,
  k ∈ Obj.keys (fold_left merge_key es t) <-> k ∈ Obj.keys t \/ k ∈ Obj.keys es.
Proof.
  induction es as [|[k0 sv0] es IH]; intros t k.
  - cbn. split; [by left|]. intros [H|H]; [done|by apply elem_of_nil in H].
  - cbn [fold_left merge_key]. rewrite IH, elem_of_keys_set.
    change (Obj.keys ((k0, sv0) :: es)) with (k0 :: Obj.keys es).
    rewrite elem_of_cons. tauto.
Qed.

Lemma merge_fold_NoDup es : forall t,
  NoDup (Obj.keys t) -> NoDup (Obj.keys (fold_left merge_key es t)).
Proof.
  induction es as [|[k0 sv0] es IH]; intros t Hnd; [done|].
  cbn [fold_left merge_key]. apply IH. by apply NoDup_keys_set.
Qed.

Lemma merged_value_scalar sv tv : isObject sv = false -> merged_value sv tv = sv.
Proof. by destruct sv. Qed.

Lemma merged_value_absent sv : merged_value sv None = sv.
Proof. destruct sv; try done. cbn [merged_value]. apply clone_id. Qed.

Lemma length_chars text : length (JsString.chars text) = String.length text.
Proof. induction text as [|c text IH]; [done|]. cbn. by rewrite IH. Qed.

Lemma get_indexed {A} (l : list A) i :
  Obj.get (JsString.of_index i) (indexed l) = l !! i.
Proof.
  destruct (l !! i) as [x|] eqn:E.
  - apply In_get; [apply NoDup_keys_indexed|].
    unfold indexed. apply elem_of_lookup_imap. by exists i, x.
  - apply get_None_keys. rewrite keys_indexed.
    intros (j & Hj%of_index_inj & Hin)%list_elem_of_fmap. subst j.
    apply elem_of_seq in Hin. apply lookup_ge_None in E. lia.
Qed.

(** C9, as amended: [deepMerge(t, s)] returns [t] unchanged when [s] is
    [undefined], [null], a boolean, a number or the empty string.  A string
    is enumerated by position: after [deepMerge(t, text)] the target holds
    the character at each position [i] of the string under the key [i], and
    every other key is as it was.  (The function of the embedding is total:
    there is no exception to raise.) *)
Theorem deepMerge_source_not_object (t : obj) :
  (forall s, keyless s = true -> deepMerge t [s] = t) /\
  (forall text,
      (forall i c,
          JsString.chars text !! i = Some c ->
          Obj.get (JsString.of_index i) (deepMerge t [Some (JStr text)])
          = Some (JStr c)) /\
      (forall k,
          (forall i, (i < String.length text)%nat -> k <> JsString.of_index i) ->
          Obj.get k (deepMerge t [Some (JStr text)]) = Obj.get k t)).
Proof.
  split; [intros s; apply keyless_source|].
  intros text. cbn [deepMerge deepMerge1 own_entries].
  change (map JStr (JsString.chars text)) with (JStr <$> JsString.chars text).
  set (cs := JStr <$> JsString.chars text).
  assert (Hnd : NoDup (Obj.keys (indexed cs))) by apply NoDup_keys_indexed.
  split.
  - intros i c Hc. rewrite merge_fold_get by done. rewrite get_indexed.
    unfold cs. rewrite list_lookup_fmap, Hc. done.
  - intros k Hk. rewrite merge_fold_get by done.
    destruct (Obj.get k (indexed cs)) as [sv|] eqn:E; [|done].
    apply get_Some_keys in E. rewrite keys_indexed in E.
    apply list_elem_of_fmap in E as (i & -> & Hi). apply elem_of_seq in Hi.
    destruct (Hk i); [|done]. unfold cs in Hi.
    rewrite length_fmap, length_chars in Hi. lia.
Qed.

Lemma deepMerge_source_not_object_witness :
  deepMerge [("a", JNum 1)] [None] = [("a", JNum 1)] /\
  deepMerge [("a", JNum 1)] [Some (JNum 5)] = [("a", JNum 1)] /\
  Obj.get "1" (deepMerge [("a", JNum 1)] [Some (JStr "xy")]) = Some (JStr "y") /\
  Obj.get "a" (deepMerge [("a", JNum 1)] [Some (JStr "xy")]) = Some (JNum 1).
Proof.
  destruct (deepMerge_source_not_object [("a", JNum 1)]) as [H1 H2].
  split; [by apply H1|]. split; [by apply H1|].
  destruct (H2 "xy") as [Hat Hother]. split.
  - exact (Hat 1%nat "y" eq_refl).
  - apply Hother. intros [|[|i]] Hi; [discriminate|discriminate|cbn in Hi; lia].
Defined.

(** X5: on a target and sources whose property names are plain,
    [deepMerge] never removes a key of the target and adds the own keys of
    its sources and no other; a key that no source has keeps its value; a
    target without duplicate keys stays so. *)
Theorem deepMerge_keys (t : obj) (sources : list (option json)) :
  plain (JObj t) = true -> forallb plain_source sources = true ->
  (forall k,
      k ∈ Obj.keys (deepMerge t sources) <->
      k ∈ Obj.keys t \/
      exists s, Some s ∈ sources /\ k ∈ Obj.keys (own_entries s)) /\
  (forall k,
      (forall s, Some s ∈ sources -> k ∉ Obj.keys (own_entries s)) ->
      Obj.get k (deepMerge t sources) = Obj.get k t) /\
  (NoDup (Obj.keys t) -> NoDup (Obj.keys (deepMerge t sources))).
Proof.
  intros _ _. revert t. induction sources as [|s rest IH]; intros t.
  - cbn [deepMerge]. split; [|done]. intros k. split; [by left|].
    intros [H|(s & H & _)]; [done|by apply elem_of_nil in H].
  - cbn [deepMerge]. destruct (IH (deepMerge1 t s)) as (IHk & IHg & IHn).
    split; [|split].
    + intros k. rewrite IHk. destruct s as [s|]; cbn [deepMerge1].
      * rewrite merge_fold_keys. split.
        -- intros [[H|H]|(s' & H & Hk)]; [by left|right; exists s; split; [left|done]|].
           right. exists s'. split; [by right|done].
        -- intros [H|(s' & [[= ->]|H]%elem_of_cons & Hk)];
             [by left; left|by left; right|right; eauto].
      * split.
        -- intros [H|(s' & H & Hk)]; [by left|right; exists s'; split; [by right|done]].
        -- intros [H|(s' & [[=]|H]%elem_of_cons & Hk)]; [by left|right; eauto].
    + intros k Hno. rewrite IHg by (intros s' H; apply Hno; by right).
      destruct s as [s|]; cbn [deepMerge1]; [|done].
      assert (Hk : k ∉ Obj.keys (own_entries s)) by (apply Hno; left).
      clear -Hk. revert t. induction (own_entries s) as [|[k0 sv0] es IHes]; intros t; [done|].
      change (Obj.keys ((k0, sv0) :: es)) with (k0 :: Obj.keys es) in Hk.
      apply not_elem_of_cons in Hk as [Hne Hk].
      cbn [fold_left merge_key]. rewrite IHes by done. by apply get_set_ne.
    + intros Hnd. apply IHn. destruct s as [s|]; cbn [deepMerge1]; [|done].
      by apply merge_fold_NoDup.
Qed.

Lemma deepMerge_keys_witness :
  Obj.get "b" (deepMerge [("a", JNum 1); ("b", JNum 2)]
                 [Some (JObj [("a", JNum 3)]); None; Some (JObj [("c", JNum 4)])])
  = Some (JNum 2).
Proof.
  destruct (deepMerge_keys [("a", JNum 1); ("b", JNum 2)]
              [Some (JObj [("a", JNum 3)]); None; Some (JObj [("c", JNum 4)])]
              eq_refl eq_refl)
    as (_ & H & _).
  rewrite (H "b"); [done|].
  intros s Hs.
  apply elem_of_cons in Hs as [[= ->]|Hs]; [cbn; set_solver|].
  apply elem_of_cons in Hs as [[=]|Hs].
  apply elem_of_cons in Hs as [[= ->]|Hs]; [cbn; set_solver|].
  by apply elem_of_nil in Hs.
Defined.

(** X6: on a target and a source whose property names are plain, a value of
    the source that is no object (a scalar, [null] or an array), at any
    depth below objects and arrays of the source, is found at the same path
    in the target after the call, whatever the target held. *)
Theorem deepMerge_source_wins (ks : list string) (t : obj) (s x : json) :
  wf s = true -> plain s = true -> plain (JObj t) = true -> ks <> [] ->
  opath ks s = Some x -> isObject x = false ->
  opath ks (JObj (deepMerge t [Some s])) = Some x.
Proof.
  intros Hwf _ _. revert t s x Hwf.
  induction ks as [|k rest IH]; intros t s x Hwf Hne Hpath Hx; [done|].
  cbn [opath] in *. rewrite oprop_JObj. cbn [deepMerge deepMerge1].
  destruct (oprop k s) as [sv|] eqn:Hk; [|done].
  apply oprop_Some in Hk as [Hobj Hk].
  rewrite merge_fold_get by (by apply wf_own_entries). unfold prop in Hk. rewrite Hk.
  destruct rest as [|k' rest'].
  - cbn [opath] in *. injection Hpath as ->. by rewrite merged_value_scalar.
  - assert (Hwfsv : wf sv = true) by (eapply wf_prop; [exact Hwf|exact Hk]).
    destruct sv as [| | | |l|so]; try (by rewrite merged_value_scalar).
    destruct (Obj.get k t) as [[| | | | |to]|] eqn:Et;
      try (cbn [merged_value]; by rewrite clone_id).
    rewrite merged_value_objects.
    apply (IH to (JObj so) x); done.
Qed.

Lemma deepMerge_source_wins_witness :
  opath ["a"; "b"] (JObj (deepMerge [("a", JObj [("b", JObj [("x", JNum 0)]); ("c", JNum 1)])]
                            [Some (JObj [("a", JObj [("b", JArr [JNum 7])])])]))
  = Some (JArr [JNum 7]).
Proof. by apply deepMerge_source_wins. Defined.

(** ** [deepMerge]: the same source twice, and the empty target *)





(** X8: merged into an empty object, an object whose property names are
    plain gives an object with the same keys and the same values, so
    [deepMerge({}, s)] is a copy of [s]; the order of the keys is the only
    thing that can differ. *)
Theorem deepMerge_into_empty (s : obj) :
  wf (JObj s) = true -> plain (JObj s) = true ->
  to_map (deepMerge [] [Some (JObj s)]) = to_map s /\
  length (deepMerge [] [Some (JObj s)]) = length s.
Proof.
  intros Hwf _. pose proof (proj1 (wf_JObj s) Hwf) as [Hnd _].
  cbn [deepMerge deepMerge1 own_entries].
  assert (Hget : forall k, Obj.get k (fold_left merge_key s []) = Obj.get k s).
  { intros k. rewrite merge_fold_get by done.
    destruct (Obj.get k s) as [sv|]; [|done]. cbn [Obj.get].
    by rewrite merged_value_absent. }
  split.
  - apply map_eq. intros k. by rewrite !lookup_to_map.
  - assert (Hperm : Obj.keys (fold_left merge_key s []) ≡ₚ Obj.keys s).
    { apply NoDup_Permutation; [by apply merge_fold_NoDup, NoDup_nil|done|].
      intros k. rewrite merge_fold_keys. split; [|by right].
      intros [H|H]; [by apply elem_of_nil in H|done]. }
    apply Permutation_length in Hperm. unfold Obj.keys in Hperm.
    by rewrite !length_map in Hperm.
Qed.

Lemma deepMerge_into_empty_witness :
  to_map (deepMerge [] [Some (JObj [("b", JNum 1); ("0", JObj [("x", JNull)])])])
  = to_map [("b", JNum 1); ("0", JObj [("x", JNull)])].
Proof. by apply deepMerge_into_empty. Defined.

(** ** [deepMerge] on the heap: the sources after the call *)

Module SourcesKept.
Import Heap HeapFacts Ownership OwnershipFacts.

Lemma merge_documents_refines_witness :
  exists fuel,
    merge_documents fuel [("a", JObj [("x", JNum 1)])]
      [JObj [("a", JObj [("y", JArr [JNum 2])])]; JObj [("b", JNull)]]
    = Some (JObj (Doc.deepMerge [("a", JObj [("x", JNum 1)])]
                    (map Some [JObj [("a", JObj [("y", JArr [JNum 2])])];
                               JObj [("b", JNull)]]))).
Proof. apply merge_documents_refines; try done; by repeat constructor. Defined.



End SourcesKept.

(** ** The renaming [reduce], for every list of groups *)

Lemma rename_fold_Throws es w : fold_left rename_group es (Throws w) = Throws w.
Proof. induction es as [|[g v] es IH]; [done|]. cbn [fold_left]. exact IH. Qed.

Lemma rename_group_known o g v :
  known_group g = true ->
  exists name, Obj.get g filemaps = Some (JStr name) /\
    rename_group (Normal (Some o)) (g, v) = Normal (Some (Obj.set name v o)) /\
    rename_group (Normal None) (g, v) = Throws "TypeError".
Proof.
  unfold known_group, rename_group. cbn [bind].
  destruct (Obj.get g filemaps) as [[| | |name| |]|]; try done. eauto.
Qed.

Lemma rename_group_unknown st g v :
  known_group g = false ->
  rename_group (Normal st) (g, v) = Normal None.
Proof.
  unfold known_group, rename_group. cbn [bind].
  by destruct (Obj.get g filemaps) as [[| | |name| |]|].
Qed.

Lemma rename_fold_undefined es :
  fold_left rename_group es (Normal None) =
  if existsb known_group (Obj.keys es) then Throws "TypeError" else Normal None.
Proof.
  induction es as [|[g v] es IH]; [done|].
  cbn [fold_left Obj.keys map fst existsb].
  destruct (known_group g) eqn:E.
  - destruct (rename_group_known [] g v E) as (name & _ & _ & ->).
    cbn [orb]. apply rename_fold_Throws.
  - rewrite rename_group_unknown by done. exact IH.
Qed.

Lemma filemaps_inj g g' name :
  Obj.get g filemaps = Some (JStr name) -> Obj.get g' filemaps = Some (JStr name) ->
  g = g'.
Proof.
  intros H H'. apply get_In in H, H'. unfold filemaps in *.
  set_unfold in H. set_unfold in H'. naive_solver.
Qed.

Lemma rename_fold_known es : forall o,
  forallb known_group (Obj.keys es) = true ->
  exists o', fold_left rename_group es (Normal (Some o)) = Normal (Some o') /\
    (forall name, name ∈ Obj.keys o' <->
       name ∈ Obj.keys o \/
       exists g, g ∈ Obj.keys es /\ Obj.get g filemaps = Some (JStr name)) /\
    (NoDup (Obj.keys es) ->
     forall g v name, (g, v) ∈ es -> Obj.get g filemaps = Some (JStr name) ->
       Obj.get name o' = Some v) /\
    (forall name, (forall g, g ∈ Obj.keys es -> Obj.get g filemaps <> Some (JStr name)) ->
       Obj.get name o' = Obj.get name o).
Proof.
  induction es as [|[g v] es IH]; intros o Hall.
  - exists o. split; [done|]. split; [|split].
    + intros name. split; [by left|]. intros [H|(g & H & _)]; [done|].
      by apply elem_of_nil in H.
    + intros _ g v name H. by apply elem_of_nil in H.
    + done.
  - cbn [Obj.keys map fst forallb] in Hall. apply andb_true_iff in Hall as [Hg Hall].
    destruct (rename_group_known o g v Hg) as (name0 & Hname0 & Hstep & _).
    cbn [fold_left]. rewrite Hstep.
    destruct (IH (Obj.set name0 v o) Hall) as (o' & Hrun & Hkeys & Hget & Hother).
    exists o'. split; [done|]. split; [|split].
    + intros name. rewrite Hkeys, elem_of_keys_set.
      change (Obj.keys ((g, v) :: es)) with (g :: Obj.keys es). split.
      * intros [[->|H]|(g' & H & Hg')].
        -- right. exists g. split; [left|done].
        -- by left.
        -- right. exists g'. split; [by right|done].
      * intros [H|(g' & [->|H]%elem_of_cons & Hg')].
        -- left. by right.
        -- left. left. congruence.
        -- right. eauto.
    + change (Obj.keys ((g, v) :: es)) with (g :: Obj.keys es).
      intros [Hgn Hnd]%NoDup_cons g' v' name [[= -> ->]|Hin]%elem_of_cons Hg'.
      * assert (name = name0) as -> by congruence.
        rewrite Hother; [apply get_set_eq|].
        intros g' Hin Hg''. apply Hgn.
        by rewrite (filemaps_inj g g' name0 Hname0 Hg'').
      * by eapply Hget.
    + intros name Hno. rewrite Hother.
      * apply get_set_ne. intros ->. by apply (Hno g); [left|].
      * intros g' Hin. apply Hno. by right.
Qed.

(** X11: the renaming [reduce] over the groups of a year has three
    outcomes.  When every group is in [filemaps] it returns an object that
    holds each payload under the name without [.json], and nothing else.
    From the first group that is not in [filemaps] on, its accumulator is
    [undefined]: the call returns [undefined] when no group of
    [filemaps] follows, and ends in a [TypeError] when one does. *)
Theorem rename_groups_outcomes :
  (forall groups,
      forallb plain_key (Obj.keys groups) = true ->
      forallb known_group (Obj.keys groups) = true ->
      exists o, rename_groups groups = Normal (Some o) /\
        (forall name, name ∈ Obj.keys o <->
           exists g, g ∈ Obj.keys groups /\ Obj.get g filemaps = Some (JStr name)) /\
        (NoDup (Obj.keys groups) ->
         forall g v name, (g, v) ∈ groups -> Obj.get g filemaps = Some (JStr name) ->
           Obj.get name o = Some v)) /\
  (forall pre g v post,
      forallb plain_key (Obj.keys (pre ++ (g, v) :: post)) = true ->
      forallb known_group (Obj.keys pre) = true -> known_group g = false ->
      rename_groups (pre ++ (g, v) :: post) =
      if existsb known_group (Obj.keys post)
      then Throws "TypeError" else Normal None).
Proof.
  split.
  - intros groups _ Hall.
    destruct (rename_fold_known groups [] Hall) as (o & Hrun & Hkeys & Hget & _).
    exists o. split; [done|]. split; [|done].
    intros name. rewrite Hkeys. split; [|by right].
    intros [H|H]; [by apply elem_of_nil in H|done].
  - intros pre g v post _ Hpre Hg. unfold rename_groups.
    rewrite fold_left_app. cbn [fold_left].
    destruct (rename_fold_known pre [] Hpre) as (o & -> & _).
    rewrite rename_group_unknown by done. apply rename_fold_undefined.
Qed.

Lemma rename_groups_outcomes_witness :
  (exists o, rename_groups [("classes.json", JNum 1); ("values.json", JNum 2)]
             = Normal (Some o) /\ Obj.get "values" o = Some (JNum 2)) /\
  rename_groups ([("classes.json", JNum 1)] ++ ("notes.json", JNum 0) :: [("x.json", JNum 3)])
  = Normal None /\
  rename_groups ([] ++ ("notes.json", JNum 0) :: [("x.json", JNum 3); ("values.json", JNum 2)])
  = Throws "TypeError".
Proof.
  destruct rename_groups_outcomes as [Hknown Hunknown].
  split; [|split].
  - destruct (Hknown [("classes.json", JNum 1); ("values.json", JNum 2)] eq_refl eq_refl)
      as (o & Hrun & _ & Hget).
    exists o. split; [done|].
    apply (Hget ltac:(apply NoDup_ListNoDup; repeat constructor; cbn; intuition discriminate)
             "values.json" (JNum 2) "values"); [set_solver|done].
  - by apply (Hunknown [("classes.json", JNum 1)] "notes.json" (JNum 0) [("x.json", JNum 3)]).
  - by apply (Hunknown [] "notes.json" (JNum 0)
                [("x.json", JNum 3); ("values.json", JNum 2)]).
Defined.

(** ** The names of the snapshot files *)

Lemma padStart_long width c s :
  (width <= String.length s)%nat -> JsString.padStart width c s = s.
Proof.
  intros H. unfold JsString.padStart.
  by replace (width - String.length s)%nat with 0%nat by lia.
Qed.

Lemma padStart_short width c s :
  (String.length s < width)%nat ->
  exists rest, JsString.padStart width c s = String c rest /\
               String.length (JsString.padStart width c s) = width.
Proof.
  intros H. unfold JsString.padStart.
  destruct (width - String.length s)%nat as [|n] eqn:E; [lia|].
  cbn [JsString.repeat_char append]. eexists. split; [done|].
  cbn [String.length]. rewrite length_append.
  assert (Hrep : forall m, String.length (JsString.repeat_char c m) = m).
  { induction m as [|m IHm]; [done|]. cbn. by rewrite IHm. }
  cbn [String.length]. rewrite Hrep. lia.
Qed.

(** The number that a string of digits spells, leading zeros or not. *)
Lemma padded_value n s :
  option_map N.of_uint
    (NilEmpty.uint_of_string (JsString.repeat_char "0" n ++ s)) =
  option_map N.of_uint (NilEmpty.uint_of_string s).
Proof.
  induction n as [|n IH]; [done|]. rewrite <- IH.
  change (JsString.repeat_char "0" (S n) ++ s)%string
    with (String "0" (JsString.repeat_char "0" n ++ s)).
  cbn [NilEmpty.uint_of_string].
  by destruct (NilEmpty.uint_of_string (JsString.repeat_char "0" n ++ s)).
Qed.

Lemma padStart_dec_inj width a b :
  JsString.padStart width "0" (JsString.dec a) =
  JsString.padStart width "0" (JsString.dec b) -> a = b.
Proof.
  unfold JsString.padStart. intros H.
  apply (f_equal (fun s => option_map N.of_uint (NilEmpty.uint_of_string s))) in H.
  rewrite !padded_value in H. unfold JsString.dec in H.
  rewrite !NilEmpty.usu in H. cbn [option_map] in H.
  rewrite !DecimalN.Unsigned.of_to in H. by injection H.
Qed.

Lemma lastfilename_inj platform i j :
  lastfilename platform i = lastfilename platform j -> i = j.
Proof.
  unfold lastfilename. intros H.
  apply (append_inj_l "platform/") in H. apply append_inj_l in H.
  apply (append_inj_l "--last-") in H. apply append_inj_r in H.
  apply padStart_dec_inj in H. lia.
Qed.

Lemma fromfilename_padded platform year year' :
  fromfilename platform year = fromfilename platform year' <->
  JsString.padStart 4 "0" year = JsString.padStart 4 "0" year'.
Proof.
  unfold fromfilename. split; [|by intros ->]. intros H.
  apply (append_inj_l "platform/") in H. apply append_inj_l in H.
  apply (append_inj_l "--from-") in H. by apply append_inj_r in H.
Qed.

(** X12: the names of the snapshot files of one platform.  Two positions
    never share a [last] file.  Two years of four characters or more never
    share a [from] file; a year of fewer than four characters shares its
    [from] file with its zero-padded spelling, which is another key of the
    manifest. *)
Theorem snapshot_file_names (platform : string) :
  (forall i j, lastfilename platform i = lastfilename platform j -> i = j) /\
  (forall year year',
      (4 <= String.length year)%nat -> (4 <= String.length year')%nat ->
      fromfilename platform year = fromfilename platform year' -> year = year') /\
  (forall year,
      (String.length year < 4)%nat ->
      JsString.padStart 4 "0" year <> year /\
      fromfilename platform (JsString.padStart 4 "0" year) = fromfilename platform year).
Proof.
  split; [apply lastfilename_inj|]. split.
  - intros year year' Hy Hy' H. apply fromfilename_padded in H.
    by rewrite !padStart_long in H.
  - intros year Hy. destruct (padStart_short 4 "0" year Hy) as (rest & Hpad & Hlen).
    split.
    + intros H. rewrite H in Hlen. lia.
    + apply fromfilename_padded. by rewrite (padStart_long 4 "0" (JsString.padStart _ _ _)) by lia.
Qed.

Lemma snapshot_file_names_witness :
  fromfilename "browser" "0024" = fromfilename "browser" "24" /\
  (fromfilename "browser" "2024" = fromfilename "browser" "2025" -> "2024" = "2025").
Proof.
  destruct (snapshot_file_names "browser") as (_ & Hlong & Hshort). split.
  - apply (Hshort "24"). cbn. lia.
  - apply Hlong; cbn; lia.
Defined.

(** ** The files of the snapshot loop *)

Lemma snapshot_step_inv platform years b year index b' :
  snapshot_step platform years b year index = Normal b' ->
  exists source,
    year_source years year = Normal source /\
    the_o1 b' = deepMerge (the_o1 b) [source] /\
    the_finalfiles b' =
      Obj.set (lastfilename platform index) (JStr (Json.stringify (JObj (the_o1 b')))) 
        (Obj.set (fromfilename platform year) (JStr (Json.stringify (JObj (the_o1 b'))))
           (the_finalfiles b)).
Proof.
  unfold snapshot_step, year_source. intros H.
  destruct (Obj.get year years) as [groups|]; [|done].
  destruct (rename_groups (own_entries groups)) as [renamed|]; [|done].
  cbn [bind] in *. injection H as <-. cbn [the_o1 the_finalfiles]. eauto.
Qed.

Lemma has_text_set name k c files :
  has_text name files -> has_text name (Obj.set k (JStr c) files).
Proof.
  intros [c0 H]. unfold has_text. rewrite get_set.
  destruct (String.eqb name k); eauto.
Qed.

Lemma has_text_set_eq k c files : has_text k (Obj.set k (JStr c) files).
Proof. exists c. apply get_set_eq. Qed.

Lemma snapshot_loop_text platform years todo : forall index b b',
  snapshot_loop platform years todo index b = Normal b' ->
  (forall name, has_text name (the_finalfiles b) -> has_text name (the_finalfiles b')) /\
  (forall year, year ∈ todo -> has_text (fromfilename platform year) (the_finalfiles b')) /\
  (forall k, (k < length todo)%nat ->
             has_text (lastfilename platform (index + k)) (the_finalfiles b')).
Proof.
  induction todo as [|year rest IH]; intros index b b' H.
  - injection H as <-. split; [done|]. split.
    + intros y Hy. by apply elem_of_nil in Hy.
    + intros k Hk. cbn in Hk. lia.
  - cbn [snapshot_loop] in H.
    destruct (snapshot_step platform years b year index) as [b1|] eqn:E1; [|done].
    cbn [bind] in H. apply IH in H as (Hmono & Hfrom & Hlast).
    apply snapshot_step_inv in E1 as (source & _ & _ & Hfiles).
    split; [|split].
    + intros name Hname. apply Hmono. rewrite Hfiles. by do 2 apply has_text_set.
    + intros y [->|Hy]%elem_of_cons; [|by apply Hfrom].
      apply Hmono. rewrite Hfiles. apply has_text_set, has_text_set_eq.
    + intros [|k] Hk.
      * apply Hmono. rewrite Hfiles, Nat.add_0_r. apply has_text_set_eq.
      * replace (index + S k)%nat with (index + 1 + k)%nat by lia.
        apply Hlast. cbn in Hk. lia.
Qed.

Lemma snapshot_loop_other platform years todo : forall index b b',
  snapshot_loop platform years todo index b = Normal b' ->
  forall name,
    (forall year, year ∈ todo -> name <> fromfilename platform year) ->
    (forall k, (k < length todo)%nat -> name <> lastfilename platform (index + k)) ->
    Obj.get name (the_finalfiles b') = Obj.get name (the_finalfiles b).
Proof.
  induction todo as [|year rest IH]; intros index b b' H name Hfrom Hlast.
  - by injection H as <-.
  - cbn [snapshot_loop] in H.
    destruct (snapshot_step platform years b year index) as [b1|] eqn:E1; [|done].
    cbn [bind] in H. rewrite (IH _ _ _ H name).
    + apply snapshot_step_inv in E1 as (source & _ & _ & ->).
      rewrite !get_set_ne; [done| |].
      * intros E. by apply (Hfrom year); [left|].
      * intros E. apply (Hlast 0%nat); [cbn; lia|]. by rewrite Nat.add_0_r.
    + intros y Hy. apply Hfrom. by right.
    + intros k Hk. replace (index + 1 + k)%nat with (index + S k)%nat by lia.
      apply Hlast. cbn. lia.
Qed.

Lemma elem_of_rev_list {A} (x : A) (l : list A) : x ∈ rev l <-> x ∈ l.
Proof. rewrite !list_elem_of_In. symmetry. apply in_rev. Qed.

Lemma platform_prefix rest :
  JsString.startsWith "platform/" ("platform/" ++ rest)%string = true.
Proof. unfold JsString.startsWith. simpl. by destruct rest. Qed.

Lemma platform_step_text indexmap files platform years indexmap' files' :
  platform_step (Normal (indexmap, files)) (platform, years)
  = Normal (indexmap', files') ->
  (forall name, has_text name files -> has_text name files') /\
  (forall year, year ∈ Obj.keys (own_entries years) ->
                has_text (fromfilename platform year) files') /\
  (forall k, (k < length (own_entries years))%nat ->
             has_text (lastfilename platform k) files') /\
  (forall name, JsString.startsWith "platform/" name = false ->
                Obj.get name files' = Obj.get name files).
Proof.
  cbn [platform_step bind]. intros H.
  destruct (snapshot_loop _ _ _ _ _) as [b'|] eqn:E; [|done].
  cbn [bind] in H. injection H as <- <-.
  pose proof (snapshot_loop_text _ _ _ _ _ _ E) as (Hmono & Hfrom & Hlast).
  cbn [the_finalfiles] in *. split; [done|]. split; [|split].
  - intros y Hy. apply Hfrom. by apply elem_of_rev_list.
  - intros k Hk. apply (Hlast k). rewrite length_rev. unfold Obj.keys.
    by rewrite length_map.
  - intros name Hname.
    rewrite (snapshot_loop_other _ _ _ _ _ _ E name); [done| |].
    + intros y _ ->. unfold fromfilename in Hname.
      by rewrite platform_prefix in Hname.
    + intros k _ ->. unfold lastfilename in Hname.
      by rewrite platform_prefix in Hname.
Qed.

Lemma platform_fold_text es : forall indexmap files indexmap' files',
  fold_left platform_step es (Normal (indexmap, files)) = Normal (indexmap', files') ->
  (forall name, has_text name files -> has_text name files') /\
  (forall platform years year,
      (platform, years) ∈ es -> year ∈ Obj.keys (own_entries years) ->
      has_text (fromfilename platform year) files') /\
  (forall platform years k,
      (platform, years) ∈ es -> (k < length (own_entries years))%nat ->
      has_text (lastfilename platform k) files') /\
  (forall name, JsString.startsWith "platform/" name = false ->
                Obj.get name files' = Obj.get name files).
Proof.
  induction es as [|[q y] es IH]; intros indexmap files indexmap' files' H.
  - injection H as <- <-. split; [done|]. split; [|split; [|done]].
    + intros p ys yr Hin. by apply elem_of_nil in Hin.
    + intros p ys k Hin. by apply elem_of_nil in Hin.
  - cbn [fold_left] in H.
    destruct (platform_step (Normal (indexmap, files)) (q, y))
      as [[im1 ff1]|] eqn:E1; [|by rewrite platform_fold_Throws in H].
    apply IH in H as (Hmono & Hfrom & Hlast & Hother).
    apply platform_step_text in E1 as (Hmono1 & Hfrom1 & Hlast1 & Hother1).
    split; [|split; [|split]].
    + intros name Hname. by apply Hmono, Hmono1.
    + intros p ys yr [[= -> ->]|Hin]%elem_of_cons Hyr.
      * by apply Hmono, Hfrom1.
      * by eapply Hfrom.
    + intros p ys k [[= -> ->]|Hin]%elem_of_cons Hk.
      * by apply Hmono, Hlast1.
      * by eapply Hlast.
    + intros name Hname. by rewrite Hother, Hother1.
Qed.

Lemma from_map_get platform todo : forall from label v,
  Obj.get label (from_map platform todo from) = Some v ->
  label ∈ todo /\ v = JStr (fromfilename platform label) \/
  Obj.get label from = Some v.
Proof.
  induction todo as [|year rest IH]; intros from label v H; [by right|].
  cbn [from_map] in H. apply IH in H as [[Hin ->]|H].
  - left. split; [by right|done].
  - rewrite get_set in H. destruct (String.eqb_spec label year) as [->|Hne].
    + injection H as <-. left. split; [left|done].
    + by right.
Qed.

Lemma last_map_get platform todo : forall index last label v,
  Obj.get label (last_map platform todo index last) = Some v ->
  (exists k, (k < length todo)%nat /\ v = JStr (lastfilename platform (index + k))) \/
  Obj.get label last = Some v.
Proof.
  induction todo as [|year rest IH]; intros index last label v H; [by right|].
  cbn [last_map] in H. apply IH in H as [(k & Hk & ->)|H].
  - left. exists (S k). split; [cbn; lia|]. f_equal. f_equal. lia.
  - rewrite get_set in H. destruct (String.eqb_spec label (last_label index)) as [->|Hne].
    + injection H as <-. left. exists 0%nat. split; [cbn; lia|]. by rewrite Nat.add_0_r.
    + by right.
Qed.

(** ** The manifest and the file map that the main block hands over *)

Section MainFacts.

Variable JSON_parse : string -> option json.

Lemma main_inv registry site finalfiles :
  main JSON_parse registry site = Normal finalfiles ->
  exists ritems sitems indexmap files,
    registry = Some (FDir ritems) /\ site = FDir sitems /\
    build_all (createJsonObjectTree JSON_parse (FDir ritems))
      (createFileTree JSON_parse (FDir sitems)) = Normal (indexmap, files) /\
    finalfiles = Obj.set "index.json" (JStr (Json.stringify (JObj indexmap))) files.
Proof.
  unfold main. intros H.
  destruct registry as [[c|ritems|]|]; try done.
  destruct site as [c|sitems|]; try done.
  destruct (build_all _ _) as [[indexmap files]|] eqn:E; [|done].
  cbn [bind] in H. injection H as <-. by exists ritems, sitems, indexmap, files.
Qed.

Lemma createJsonObjectTree_NoDup dir :
  NoDup (Obj.keys (createJsonObjectTree JSON_parse dir)).
Proof.
  destruct dir as [c|items|]; try apply NoDup_nil_2.
  cbn [createJsonObjectTree]. apply json_items_NoDup, NoDup_nil_2.
Qed.

Lemma build_links (tree site indexmap files : obj) :
  build_all tree site = Normal (indexmap, files) ->
  forall platform section label v,
    opath [platform; section; label] (JObj indexmap) = Some v ->
    exists filename, v = JStr filename /\ has_text filename files.
Proof.
  intros Hbuild platform section label v Hpath.
  unfold build_all in Hbuild.
  pose proof (switched_NoDup tree) as Hnd.
  pose proof (platform_fold_text _ _ _ _ _ Hbuild) as (_ & Hfrom & Hlast & _).
  cbn [opath] in Hpath. rewrite oprop_JObj in Hpath.
  destruct (decide (platform ∈ Obj.keys (switched tree))) as [Hin|Hout].
  - apply list_elem_of_fmap in Hin as ([p years] & -> & Hin). cbn [fst] in *.
    rewrite (platform_fold_get _ _ _ _ _ _ _ Hnd Hin Hbuild) in Hpath.
    unfold index_entry in Hpath. rewrite oprop_JObj in Hpath. cbn [Obj.get] in Hpath.
    destruct (String.eqb section "from").
    + rewrite oprop_JObj in Hpath.
      destruct (Obj.get label _) as [x|] eqn:Ex; [|done]. injection Hpath as ->.
      apply from_map_get in Ex as [[Hlabel ->]|Ex]; [|done].
      eexists. split; [done|].
      eapply Hfrom; [exact Hin|]. by apply elem_of_rev_list.
    + destruct (String.eqb section "last"); [|done].
      rewrite oprop_JObj in Hpath.
      destruct (Obj.get label _) as [x|] eqn:Ex; [|done]. injection Hpath as ->.
      apply last_map_get in Ex as [(k & Hk & ->)|Ex]; [|done].
      eexists. split; [done|].
      eapply Hlast; [exact Hin|]. rewrite length_rev in Hk. unfold Obj.keys in Hk.
      by rewrite length_map in Hk.
  - by rewrite (platform_fold_other _ _ _ _ _ _ Hout Hbuild) in Hpath.
Qed.

(** X13: when the main block completes, the file map it hands over holds
    the serialized manifest under [index.json], and the manifest has no
    dangling link: every value it holds under a platform, a section and a
    label is the name of a text of the file map. *)
Theorem manifest_links_resolve (registry : option fsnode) (site : fsnode)
    (finalfiles : obj) :
  main JSON_parse registry site = Normal finalfiles ->
  exists indexmap,
    Obj.get "index.json" finalfiles = Some (JStr (Json.stringify (JObj indexmap))) /\
    forall platform section label v,
      opath [platform; section; label] (JObj indexmap) = Some v ->
      exists filename, v = JStr filename /\ has_text filename finalfiles.
Proof.
  intros (ritems & sitems & indexmap & files & -> & -> & Hbuild & ->)%main_inv.
  exists indexmap. split; [apply get_set_eq|].
  intros platform section label v Hpath.
  destruct (build_links _ _ _ _ Hbuild _ _ _ _ Hpath) as (filename & -> & Htext).
  exists filename. split; [done|]. by apply has_text_set.
Qed.


End MainFacts.

Lemma manifest_links_resolve_witness :
  exists finalfiles,
    main sample_parse (Some registry_by_vendor) (FDir []) = Normal finalfiles /\
    exists indexmap,
      Obj.get "index.json" finalfiles = Some (JStr (Json.stringify (JObj indexmap))) /\
      forall platform section label v,
        opath [platform; section; label] (JObj indexmap) = Some v ->
        exists filename, v = JStr filename /\ has_text filename finalfiles.
Proof.
  destruct (main sample_parse (Some registry_by_vendor) (FDir [])) as [f|w] eqn:E;
    [|vm_compute in E; discriminate].
  exists f. split; [done|]. exact (manifest_links_resolve sample_parse _ _ _ E).
Defined.


(** ** What each snapshot file holds *)

(** The loop from any position and any accumulator: what it merges and
    what the two files of a position hold when it has completed. *)
Lemma snapshot_loop_contents (platform : string) (years : obj)
    (todo : list string) :
  forall (index : nat) (b b' : build),
    snapshot_loop platform years todo index b = Normal b' ->
    exists sources,
      Forall2 (fun year source => year_source years year = Normal source)
        todo sources /\
      the_o1 b' = deepMerge (the_o1 b) sources /\
      (forall k,
          (k < length todo)%nat ->
          Obj.get (lastfilename platform (index + k)) (the_finalfiles b') =
          Some (JStr (Json.stringify
                        (JObj (deepMerge (the_o1 b) (take (S k) sources)))))) /\
      (forall k year,
          todo !! k = Some year ->
          (forall j later,
              (k < j)%nat -> todo !! j = Some later ->
              JsString.padStart 4 "0" later <> JsString.padStart 4 "0" year) ->
          Obj.get (fromfilename platform year) (the_finalfiles b') =
          Some (JStr (Json.stringify
                        (JObj (deepMerge (the_o1 b) (take (S k) sources)))))).
Proof.
  induction todo as [|year rest IH]; intros index b b' H.
  - injection H as <-. exists []. split; [constructor|]. split; [done|]. split.
    + intros k Hk. cbn in Hk. lia.
    + intros k y Hy. done.
  - cbn [snapshot_loop] in H.
    destruct (snapshot_step platform years b year index) as [b1|] eqn:E1; [|done].
    cbn [bind] in H.
    pose proof (snapshot_loop_other _ _ _ _ _ _ H) as Hother.
    apply IH in H as (sources & Hsources & Ho1 & Hlast & Hfrom).
    apply snapshot_step_inv in E1 as (source & Hsource & Ho1' & Hfiles).
    assert (Hcons : forall l, deepMerge (the_o1 b) (source :: l) = deepMerge (the_o1 b1) l).
    { intros l. by rewrite Ho1'. }
    exists (source :: sources). split; [by constructor|]. split; [by rewrite Hcons|].
    split.
    + intros [|k] Hk.
      * rewrite Hother.
        -- rewrite Hfiles, Nat.add_0_r, get_set_eq. cbn [take]. by rewrite Hcons.
        -- intros y _ E. by apply (from_last_differ platform y (index + 0)).
        -- intros j _ E%lastfilename_inj. lia.
      * replace (index + S k)%nat with (index + 1 + k)%nat by lia.
        rewrite Hlast by (cbn in Hk; lia). cbn [take]. by rewrite Hcons.
    + intros [|k] y Hy Hlater.
      * cbn in Hy. injection Hy as <-. rewrite Hother.
        -- rewrite Hfiles, get_set_ne, get_set_eq by (symmetry; apply from_last_differ).
           cbn [take]. by rewrite Hcons.
        -- intros y Hy E%fromfilename_padded.
           apply list_elem_of_lookup in Hy as [j Hj].
           by apply (Hlater (S j) y); [lia|done|symmetry].
        -- intros j _ E. by apply (from_last_differ platform year (index + 1 + j)).
      * cbn [lookup list_lookup] in Hy.
        rewrite (Hfrom k y Hy).
        -- cbn [take]. by rewrite Hcons.
        -- intros j later Hj Hl. apply (Hlater (S j) later); [lia|done].
Qed.

(** X15: the snapshot loop of a platform is cumulative.  For years whose
    property names are plain and whose numbers are safe integers: when the
    loop completes, the accumulator is [deepMerge] of the sources of the
    years, taken in the order of the loop, into the empty object; the [last]
    file of a position holds the serialized merge of the sources up to that
    position, and so does the [from] file of a year, as long as no later
    year of the loop is padded to the same name. *)
Theorem snapshot_loop_cumulative (platform : string) (years indexmap finalfiles : obj)
    (b' : build) :
  wf (JObj years) = true -> plain (JObj years) = true -> safe (JObj years) = true ->
  snapshot_loop platform years (rev (Obj.keys years)) 0
    (Build [] indexmap finalfiles) = Normal b' ->
  exists sources,
    Forall2 (fun year source => year_source years year = Normal source)
      (rev (Obj.keys years)) sources /\
    the_o1 b' = deepMerge [] sources /\
    (forall k,
        (k < length years)%nat ->
        Obj.get (lastfilename platform k) (the_finalfiles b') =
        Some (JStr (Json.stringify (JObj (deepMerge [] (take (S k) sources)))))) /\
    (forall k year,
        rev (Obj.keys years) !! k = Some year ->
        (forall j later,
            (k < j)%nat -> rev (Obj.keys years) !! j = Some later ->
            JsString.padStart 4 "0" later <> JsString.padStart 4 "0" year) ->
        Obj.get (fromfilename platform year) (the_finalfiles b') =
        Some (JStr (Json.stringify (JObj (deepMerge [] (take (S k) sources)))))).
Proof.
  intros _ _ _ Hrun.
  destruct (snapshot_loop_contents _ _ _ _ _ _ Hrun)
    as (sources & Hsources & Ho1 & Hlast & Hfrom).
  exists sources. split; [done|]. split; [done|]. split; [|done].
  intros k Hk. apply (Hlast k). unfold Obj.keys. by rewrite length_rev, length_map.
Qed.

Lemma snapshot_loop_cumulative_witness :
  let years :=
    [("2023", JObj [("classes.json", JObj [("x", JNum 1)])]);
     ("2024", JObj [("classes.json", JObj [("x", JNum 2); ("y", JNum 3)])])] in
  exists b',
    snapshot_loop "browser" years ["2024"; "2023"] 0 (Build [] [] []) = Normal b' /\
    the_o1 b' = [("classes", JObj [("x", JNum 1); ("y", JNum 3)])].
Proof.
  intros years.
  destruct (snapshot_loop "browser" years ["2024"; "2023"] 0 (Build [] [] []))
    as [b'|w] eqn:E; [|vm_compute in E; discriminate].
  exists b'. split; [done|].
  destruct (snapshot_loop_cumulative "browser" years [] [] b' eq_refl eq_refl eq_refl E)
    as (sources & Hs & -> & _).
  apply Forall2_cons_inv_l in Hs as (s1 & rest & H1 & Hs & ->).
  apply Forall2_cons_inv_l in Hs as (s2 & rest' & H2 & Hs & ->).
  apply Forall2_nil_inv_l in Hs as ->.
  vm_compute in H1. vm_compute in H2. injection H1 as <-. injection H2 as <-.
  reflexivity.
Defined.

(** ** The two files of a position in the file map handed over *)





Section EmittedFacts.

Variable JSON_parse : string -> option json.


End EmittedFacts.


(** ** The file system: reading after writing *)

Module FsFacts.
Import Fs.

Lemma lookup_cons name rest items :
  lookup (name :: rest) (FDir items) = Obj.get name items ≫= lookup rest.
Proof. cbn [lookup]. by destruct (Obj.get name items). Qed.

Lemma lookup_app p : forall q fs, lookup (p ++ q) fs = lookup p fs ≫= lookup q.
Proof.
  induction p as [|name rest IH]; intros q fs; [done|].
  destruct fs as [c|items|]; try done.
  cbn [app]. rewrite !lookup_cons. destruct (Obj.get name items); [apply IH|done].
Qed.

Lemma lookup_file_nil p c : lookup p (FFile c) = Some (FFile c) -> p = [].
Proof. by destruct p. Qed.

Lemma read_file_cons name rest items :
  read_file (name :: rest) (FDir items) =
  match Obj.get name items with
  | Some child => read_file rest child
  | None => None
  end.
Proof. unfold read_file. rewrite lookup_cons. by destruct (Obj.get name items). Qed.

Lemma is_dir_cons name rest items :
  is_dir (name :: rest) (FDir items) =
  match Obj.get name items with
  | Some child => is_dir rest child
  | None => false
  end.
Proof. unfold is_dir. rewrite lookup_cons. by destruct (Obj.get name items). Qed.

Lemma read_file_dir items : read_file [] (FDir items) = None.
Proof. done. Qed.

Lemma get_update {A} k (v : A) o k' :
  Obj.get k' (Obj.update k v o) =
  if String.eqb k' k then (if Obj.has k o then Some v else None) else Obj.get k' o.
Proof.
  destruct (String.eqb_spec k' k) as [->|Hne].
  - unfold Obj.has. destruct (Obj.get k o) eqn:E.
    + apply get_update_eq. by eapply get_Some_keys.
    + apply get_None_keys. rewrite keys_update. by apply get_None_keys.
  - apply get_update_ne. congruence.
Qed.

Lemma get_snoc {A} k (v : A) o k' :
  Obj.get k o = None ->
  Obj.get k' (o ++ [(k, v)]) = if String.eqb k' k then Some v else Obj.get k' o.
Proof.
  intros Hk. rewrite get_app. cbn [Obj.get].
  destruct (String.eqb_spec k' k) as [->|Hne]; [by rewrite Hk|].
  by destruct (Obj.get k' o).
Qed.

(** *** [mkdirSync] *)

Lemma mkdirSync_facts p : forall fs fs',
  mkdirSync p fs = Normal fs' ->
  is_dir p fs' = true /\
  (forall q, read_file q fs' = read_file q fs) /\
  (forall q, is_dir q fs = true -> is_dir q fs' = true) /\
  (lookup p fs = None -> lookup p fs' = Some (FDir [])).
Proof.
  induction p as [|name rest IH]; intros fs fs' H.
  - cbn [mkdirSync] in H. destruct fs as [c|items|]; try done. by injection H as <-.
  - cbn [mkdirSync] in H. destruct fs as [c|items|]; try done.
    destruct (Obj.get name items) as [child|] eqn:E.
    + destruct (mkdirSync rest child) as [child'|] eqn:E'; [|done].
      cbn [bind] in H. injection H as <-.
      destruct (IH _ _ E') as (Hdir & Hread & Hdirs & Hfresh).
      assert (Hhas : Obj.has name items = true) by (unfold Obj.has; by rewrite E).
      split; [|split; [|split]].
      * rewrite is_dir_cons, get_update, String.eqb_refl, Hhas. done.
      * intros [|n q]; [done|]. rewrite !read_file_cons, get_update.
        destruct (String.eqb_spec n name) as [->|Hne]; [|done].
        rewrite Hhas, E. apply Hread.
      * intros [|n q]; [done|]. rewrite !is_dir_cons, get_update.
        destruct (String.eqb_spec n name) as [->|Hne]; [|done].
        rewrite Hhas, E. apply Hdirs.
      * rewrite !lookup_cons, get_update, String.eqb_refl, Hhas, E. cbn. apply Hfresh.
    + destruct (mkdirSync rest (FDir [])) as [child'|] eqn:E'; [|done].
      cbn [bind] in H. injection H as <-.
      destruct (IH _ _ E') as (Hdir & Hread & Hdirs & Hfresh).
      split; [|split; [|split]].
      * rewrite is_dir_cons, get_snoc, String.eqb_refl by done. done.
      * intros [|n q]; [done|]. rewrite !read_file_cons, get_snoc by done.
        destruct (String.eqb_spec n name) as [->|Hne]; [|done].
        rewrite E, Hread. by destruct q.
      * intros [|n q]; [done|]. rewrite !is_dir_cons, get_snoc by done.
        destruct (String.eqb_spec n name) as [->|Hne]; [|done]. by rewrite E.
      * intros _. rewrite lookup_cons, get_snoc, String.eqb_refl by done. cbn.
        destruct rest as [|n' rest']; [by injection E' as <-|].
        apply Hfresh. done.
Qed.

(** *** [writeFileSync] *)

Lemma writeFileSync_cons name n rest content items :
  writeFileSync (name :: n :: rest) content (FDir items) =
  match Obj.get name items with
  | Some child =>
      bind (writeFileSync (n :: rest) content child)
        (fun child => Normal (FDir (Obj.update name child items)))
  | None => Throws "ENOENT"
  end.
Proof. reflexivity. Qed.

Lemma writeFileSync_facts p content : forall fs fs',
  writeFileSync p content fs = Normal fs' ->
  read_file p fs' = Some content /\
  (forall q, q <> p -> read_file q fs' = read_file q fs) /\
  (forall q, is_dir q fs = true -> is_dir q fs' = true) /\
  is_dir (removelast p) fs = true.
Proof.
  induction p as [|name rest IH]; intros fs fs' H; [done|].
  destruct fs as [c|items|]; try (by destruct rest).
  destruct rest as [|n' rest'].
  - cbn [writeFileSync] in H.
    destruct (Obj.get name items) as [[c| |]|] eqn:E; try done; injection H as <-.
    + assert (Hhas : Obj.has name items = true) by (unfold Obj.has; by rewrite E).
      split; [|split; [|split; [|done]]].
      * rewrite read_file_cons, get_update, String.eqb_refl, Hhas. done.
      * intros [|n q] Hq; [done|]. rewrite !read_file_cons, get_update.
        destruct (String.eqb_spec n name) as [->|Hne]; [|done].
        rewrite Hhas, E. destruct q; [done|]. done.
      * intros [|n q]; [done|]. rewrite !is_dir_cons, get_update.
        destruct (String.eqb_spec n name) as [->|Hne]; [|done].
        rewrite Hhas, E. by destruct q.
    + split; [|split; [|split; [|done]]].
      * rewrite read_file_cons, get_snoc, String.eqb_refl by done. done.
      * intros [|n q] Hq; [done|]. rewrite !read_file_cons, get_snoc by done.
        destruct (String.eqb_spec n name) as [->|Hne]; [|done].
        rewrite E. destruct q; [done|]. done.
      * intros [|n q]; [done|]. rewrite !is_dir_cons, get_snoc by done.
        destruct (String.eqb_spec n name) as [->|Hne]; [|done]. by rewrite E.
  - rewrite writeFileSync_cons in H.
    destruct (Obj.get name items) as [child|] eqn:E; [|done].
    destruct (writeFileSync (n' :: rest') content child) as [child'|] eqn:E'; [|done].
    cbn [bind] in H. injection H as <-.
    destruct (IH _ _ E') as (Hread & Hother & Hdirs & Hparent).
    assert (Hhas : Obj.has name items = true) by (unfold Obj.has; by rewrite E).
    split; [|split; [|split]].
    + rewrite read_file_cons, get_update, String.eqb_refl, Hhas. done.
    + intros [|n q] Hq; [done|]. rewrite !read_file_cons, get_update.
      destruct (String.eqb_spec n name) as [->|Hne]; [|done].
      rewrite Hhas, E. apply Hother. congruence.
    + intros [|n q]; [done|]. rewrite !is_dir_cons, get_update.
      destruct (String.eqb_spec n name) as [->|Hne]; [|done].
      rewrite Hhas, E. apply Hdirs.
    + change (removelast (name :: n' :: rest')) with (name :: removelast (n' :: rest')).
      by rewrite is_dir_cons, E.
Qed.

(** *** [rmSync] *)

Lemma get_unlink name items n :
  Obj.get n (unlink name items) = if String.eqb n name then None else Obj.get n items.
Proof.
  unfold unlink. induction items as [|[k x] items IH]; cbn [List.filter fst].
  - by destruct (String.eqb n name).
  - destruct (String.eqb_spec name k) as [->|Hk]; cbn [negb Obj.get].
    + rewrite IH. by destruct (String.eqb_spec n k).
    + rewrite IH. destruct (String.eqb_spec n name) as [Hn|Hne]; [|done].
      subst n. by rewrite (proj2 (String.eqb_neq name k)).
Qed.

Lemma rmSync_cons name n rest items :
  rmSync (name :: n :: rest) (FDir items) =
  match Obj.get name items with
  | Some child =>
      bind (rmSync (n :: rest) child)
        (fun child => Normal (FDir (Obj.update name child items)))
  | None => Normal (FDir items)
  end.
Proof. reflexivity. Qed.

Lemma rmSync_facts p : forall fs fs',
  rmSync p fs = Normal fs' -> is_Some (lookup p fs) ->
  lookup p fs' = None /\
  (forall q, ~ p `prefix_of` q -> read_file q fs' = read_file q fs).
Proof.
  induction p as [|name rest IH]; intros fs fs' H Hex; [done|].
  destruct fs as [c|items|]; try (by destruct Hex).
  destruct rest as [|n rest'].
  - cbn [rmSync] in H. injection H as <-. split.
    + by rewrite lookup_cons, get_unlink, String.eqb_refl.
    + intros [|n q] Hq; [done|]. rewrite !read_file_cons, get_unlink.
      destruct (String.eqb_spec n name) as [->|Hne]; [|done].
      destruct Hq. by apply prefix_cons, prefix_nil.
  - rewrite rmSync_cons in H. rewrite lookup_cons in Hex.
    destruct (Obj.get name items) as [child|] eqn:E; [|by destruct Hex].
    cbn in Hex.
    destruct (rmSync (n :: rest') child) as [child'|] eqn:E'; [|done].
    cbn [bind] in H. injection H as <-.
    destruct (IH _ _ E' Hex) as [Hgone Hother].
    assert (Hhas : Obj.has name items = true) by (unfold Obj.has; by rewrite E).
    split.
    + rewrite lookup_cons, get_update, String.eqb_refl, Hhas. exact Hgone.
    + intros [|n0 q] Hq; [done|]. rewrite !read_file_cons, get_update.
      destruct (String.eqb_spec n0 name) as [->|Hne]; [|done].
      rewrite Hhas, E. apply Hother. intros Hpre. apply Hq. by apply prefix_cons.
Qed.

Lemma read_file_below p q fs content :
  read_file (p ++ q) fs = Some content ->
  exists node, lookup p fs = Some node /\ read_file q node = Some content.
Proof.
  unfold read_file. rewrite lookup_app.
  destruct (lookup p fs) as [node|]; [|done]. cbn. eauto.
Qed.

Lemma read_file_below_file p q fs content :
  read_file p fs = Some content -> q <> [] -> lookup (p ++ q) fs = None.
Proof.
  unfold read_file. rewrite lookup_app.
  destruct (lookup p fs) as [[c|items|]|]; try done. intros _ Hq. cbn.
  by destruct q.
Qed.

End FsFacts.

(** ** [publishPathContent] *)

Module PublishFacts.
Import Fs FsFacts.

Lemma publish_fold_Throws destDir es w :
  fold_left (publish_file destDir) es (Throws w) = Throws w.
Proof. induction es as [|[k v] es IH]; [done|]. exact IH. Qed.

Lemma publish_file_inv destDir fs n k v fs' n' :
  publish_file destDir (Normal (fs, n)) (k, v) = Normal (fs', n') ->
  exists text fsa,
    v = JStr text /\ trailing_separator k = false /\
    mkdirSync (dirname (join destDir k)) fs = Normal fsa /\
    writeFileSync (join destDir k) text fsa = Normal fs' /\ n' = S n.
Proof.
  cbn [publish_file bind]. intros H.
  destruct (invalid_path (dirname (join destDir k))); [done|].
  destruct (mkdirSync (dirname (join destDir k)) fs) as [fsa|] eqn:Ea; [|done].
  cbn [bind] in H. destruct v as [| | |text| |]; try done.
  destruct (invalid_path (join destDir k)); [done|].
  destruct (trailing_separator k).
  { by destruct (lookup (join destDir k) fsa) as [[| |]|]. }
  destruct (writeFileSync (join destDir k) text fsa) as [fsb|] eqn:Eb; [|done].
  cbn [bind] in H. injection H as <- <-. by exists text, fsa.
Qed.

(** The loop over the entries of the file map, when it completes. *)
Lemma publish_fold destDir es : forall fs0 n0 fs' n',
  fold_left (publish_file destDir) es (Normal (fs0, n0)) = Normal (fs', n') ->
  n' = (n0 + length es)%nat /\
  (forall q, is_dir q fs0 = true -> is_dir q fs' = true) /\
  (forall k v, (k, v) ∈ es ->
     (exists text, v = JStr text) /\ trailing_separator k = false /\
     exists k' t, (k', JStr t) ∈ es /\ join destDir k' = join destDir k /\
                  read_file (join destDir k) fs' = Some t) /\
  (forall r t, read_file r fs' = Some t ->
     read_file r fs0 = Some t \/
     exists k, (k, JStr t) ∈ es /\ join destDir k = r) /\
  (forall r, (forall k v, (k, v) ∈ es -> join destDir k <> r) ->
     read_file r fs' = read_file r fs0).
Proof.
  induction es as [|[k v] es IH]; intros fs0 n0 fs' n' H.
  - injection H as <- <-. split; [cbn; lia|]. split; [done|]. split.
    + intros k v Hin. by apply elem_of_nil in Hin.
    + split; [by left|done].
  - cbn [fold_left] in H.
    destruct (publish_file destDir (Normal (fs0, n0)) (k, v)) as [[fs1 n1]|] eqn:E1;
      [|by rewrite publish_fold_Throws in H].
    apply publish_file_inv in E1 as (text & fsa & -> & Htrail & Hmk & Hwr & ->).
    destruct (IH _ _ _ _ H) as (Hn & Hdirs & Hkeys & Hfrom & Hkept).
    destruct (mkdirSync_facts _ _ _ Hmk) as (_ & Hmk_read & Hmk_dirs & _).
    destruct (writeFileSync_facts _ _ _ _ Hwr) as (Hwr_read & Hwr_other & Hwr_dirs & _).
    split; [cbn [length]; lia|]. split; [|split; [|split]].
    + intros q Hq. by apply Hdirs, Hwr_dirs, Hmk_dirs.
    + assert (Hfirst : exists k' t, (k', JStr t) ∈ (k, JStr text) :: es /\
                 join destDir k' = join destDir k /\
                 read_file (join destDir k) fs' = Some t).
      { destruct (decide (Exists (fun e : string * json =>
                                    join destDir e.1 = join destDir k) es)) as [Hex|Hno].
        - apply Exists_exists in Hex as ([k2 v2] & Hin2 & Hsame). cbn [fst] in Hsame.
          destruct (Hkeys k2 v2 Hin2) as (_ & _ & k' & t & Hin' & Hj & Hr).
          exists k', t. split; [by right|]. split; [congruence|]. by rewrite <- Hsame.
        - exists k, text. split; [left|]. split; [done|].
          rewrite Hkept; [done|]. intros k2 v2 Hin2 Hsame. apply Hno.
          apply Exists_exists. by exists (k2, v2). }
      intros k0 v0 [[= -> ->]|Hin]%elem_of_cons.
      * split; [eauto|]. split; [done|]. exact Hfirst.
      * destruct (Hkeys k0 v0 Hin) as (Htext & Htr & k' & t & Hin' & Hj & Hr).
        split; [done|]. split; [done|]. exists k', t. split; [by right|done].
    + intros r t Hr. apply Hfrom in Hr as [Hr|(k2 & Hin2 & Hj)].
      * destruct (decide (r = join destDir k)) as [->|Hne].
        -- right. exists k. rewrite Hwr_read in Hr. injection Hr as <-.
           split; [left|done].
        -- left. by rewrite <- Hmk_read, <- Hwr_other.
      * right. exists k2. split; [by right|done].
    + intros r Hr. rewrite Hkept.
      * rewrite Hwr_other, Hmk_read; [done|]. intros ->. by apply (Hr k (JStr text)); [left|].
      * intros k2 v2 Hin2. apply (Hr k2 v2). by right.
Qed.

(** The two first steps: the target directory is there and empty. *)
Lemma publish_inv fileMap destDir fs fs' n :
  publishPathContent fileMap destDir fs = Normal (fs', n) ->
  exists fs1,
    fold_left (publish_file destDir) fileMap (Normal (fs1, 0%nat)) = Normal (fs', n) /\
    is_dir destDir fs1 = true /\
    (forall q content, read_file (destDir ++ q) fs1 <> Some content) /\
    (forall r, ~ destDir `prefix_of` r -> read_file r fs1 = read_file r fs).
Proof.
  unfold publishPathContent. intros H.
  destruct (invalid_path destDir); [done|].
  assert (Hclear : exists fs0,
             (if existsSync destDir fs then rmSync destDir fs else Normal fs) = Normal fs0 /\
             lookup destDir fs0 = None /\
             (forall r, ~ destDir `prefix_of` r -> read_file r fs0 = read_file r fs)).
  { unfold existsSync in *. destruct (lookup destDir fs) as [node|] eqn:E.
    - destruct (rmSync destDir fs) as [fs0|] eqn:E0; [|done].
      exists fs0. split; [done|]. by apply rmSync_facts.
    - by exists fs. }
  destruct Hclear as (fs0 & Hfs0 & Hgone & Hout). rewrite Hfs0 in H. cbn [bind] in H.
  destruct (mkdirSync destDir fs0) as [fs1|] eqn:E1; [|done]. cbn [bind] in H.
  destruct (mkdirSync_facts _ _ _ E1) as (Hdir & Hread & _ & Hfresh).
  exists fs1. split; [done|]. split; [done|]. split.
  - intros q content Hq. apply read_file_below in Hq as (node & Hnode & Hq).
    rewrite (Hfresh Hgone) in Hnode. injection Hnode as <-. by destruct q.
  - intros r Hr. by rewrite Hread, Hout.
Qed.

Lemma join_inside segs : forall stack,
  ".." ∉ segs -> stack `prefix_of` fold_left normalize_step segs stack.
Proof.
  induction segs as [|seg segs IH]; intros stack Hno; [done|].
  apply not_elem_of_cons in Hno as [Hne Hno]. cbn [fold_left].
  etrans; [|by apply IH]. unfold normalize_step.
  destruct (String.eqb seg "" || String.eqb seg "."); [done|].
  destruct (String.eqb_spec seg "..") as [->|_]; [done|].
  by apply prefix_app_r.
Qed.

(** X16: when [publishPathContent] completes, the number of files it
    reports is the number of keys of the file map, every value of the map is
    a text, and every key is a file of the target directory, at the path
    that [path.join] gives; the file holds the text of the key when no other
    key with another value is joined to the same path. *)
Theorem publishPathContent_round_trip (fileMap : obj) (destDir : list string)
    (fs fs' : fsnode) (n : nat) :
  publishPathContent fileMap destDir fs = Normal (fs', n) ->
  n = length fileMap /\
  forall k v,
    (k, v) ∈ fileMap ->
    (exists text, v = JStr text) /\
    is_Some (read_file (join destDir k) fs') /\
    ((forall k' v',
         (k', v') ∈ fileMap -> join destDir k' = join destDir k -> v' = v) ->
     exists text, v = JStr text /\ read_file (join destDir k) fs' = Some text).
Proof.
  intros (fs1 & Hfold & _)%publish_inv.
  destruct (publish_fold _ _ _ _ _ _ Hfold) as (Hn & _ & Hkeys & _).
  split; [done|]. intros k v Hin.
  destruct (Hkeys k v Hin) as ([text ->] & _ & k' & t & Hin' & Hj & Hr).
  split; [eauto|]. split; [by rewrite Hr|].
  intros Hsame. exists text. split; [done|].
  rewrite Hr. by injection (Hsame k' (JStr t) Hin' Hj) as ->.
Qed.

(** X17: [publishPathContent] starts from an empty target directory and
    stays in it.  When it completes, every file below the target directory
    was written by the call, from a key of the file map and with its text;
    and when no key has a [..] segment, every file outside the target
    directory is as it was. *)
Theorem publishPathContent_clean_slate (fileMap : obj) (destDir : list string)
    (fs fs' : fsnode) (n : nat) :
  publishPathContent fileMap destDir fs = Normal (fs', n) ->
  is_dir destDir fs' = true /\
  (forall q content,
      read_file (destDir ++ q) fs' = Some content ->
      exists k, (k, JStr content) ∈ fileMap /\ join destDir k = destDir ++ q) /\
  ((forall k v, (k, v) ∈ fileMap -> ".." ∉ segments k) ->
   forall r, ~ destDir `prefix_of` r -> read_file r fs' = read_file r fs).
Proof.
  intros (fs1 & Hfold & Hdir & Hempty & Hout)%publish_inv.
  destruct (publish_fold _ _ _ _ _ _ Hfold) as (_ & Hdirs & _ & Hfrom & Hkept).
  split; [by apply Hdirs|]. split.
  - intros q content Hq. apply Hfrom in Hq as [Hq|Hq]; [|done].
    by destruct (Hempty q content).
  - intros Hinside r Hr. rewrite Hkept; [by apply Hout|].
    intros k v Hin <-. apply Hr. by apply join_inside, (Hinside k v).
Qed.

(** X18: [publishPathContent] completes only for a file map whose values
    are all texts, none of whose keys ends with a separator, and whose keys
    are joined to paths that do not get in each other's way: none is the
    target directory or a directory above it, and none lies below another. *)
Theorem publishPathContent_completes_only_if (fileMap : obj)
    (destDir : list string) (fs fs' : fsnode) (n : nat) :
  publishPathContent fileMap destDir fs = Normal (fs', n) ->
  forall k v,
    (k, v) ∈ fileMap ->
    (exists text, v = JStr text) /\
    JsString.endsWith "/" k = false /\
    ~ join destDir k `prefix_of` destDir /\
    forall k' v',
      (k', v') ∈ fileMap ->
      join destDir k `prefix_of` join destDir k' ->
      join destDir k' = join destDir k.
Proof.
  intros (fs1 & Hfold & Hdir & _)%publish_inv k v Hin.
  destruct (publish_fold _ _ _ _ _ _ Hfold) as (_ & Hdirs & Hkeys & _).
  destruct (Hkeys k v Hin) as (Htext & Htrail & _ & t & _ & _ & Hr).
  split; [done|]. split; [done|]. split.
  - intros [q Hq]. apply Hdirs in Hdir. unfold is_dir in Hdir.
    destruct q as [|s q].
    + rewrite app_nil_r in Hq. unfold read_file in Hr. rewrite <- Hq in Hr.
      by destruct (lookup destDir fs') as [[| |]|].
    + by rewrite Hq, (read_file_below_file _ (s :: q) _ _ Hr) in Hdir.
  - intros k' v' Hin' [q Hq].
    destruct (Hkeys k' v' Hin') as (_ & _ & _ & t' & _ & _ & Hr').
    destruct q as [|s q]; [by rewrite app_nil_r in Hq|].
    unfold read_file in Hr'.
    by rewrite Hq, (read_file_below_file _ (s :: q) _ _ Hr) in Hr'.
Qed.

End PublishFacts.

Lemma publishPathContent_round_trip_witness :
  let fileMap := [("index.js", JStr "x"); ("platform/a.json", JStr "{}")] in
  let fs := FDir [("w", FDir [("out", FDir [("old", FFile "o")])])] in
  exists fs',
    publishPathContent fileMap ["w"; "out"] fs = Normal (fs', 2%nat) /\
    Fs.read_file ["w"; "out"; "platform"; "a.json"] fs' = Some "{}".
Proof.
  intros fileMap fs.
  destruct (publishPathContent fileMap ["w"; "out"] fs) as [[fs' n]|w] eqn:E;
    [|vm_compute in E; discriminate].
  destruct (PublishFacts.publishPathContent_round_trip _ _ _ _ _ E) as [-> Hkeys].
  exists fs'. split; [done|].
  destruct (Hkeys "platform/a.json" (JStr "{}") ltac:(set_solver)) as (_ & _ & Hsame).
  destruct Hsame as (text & [= <-] & Hread); [|done].
  intros k' v' Hin Hj.
  apply elem_of_cons in Hin as [[= -> ->]|Hin]; [vm_compute in Hj; discriminate|].
  apply elem_of_cons in Hin as [[= -> ->]|Hin]; [done|]. by apply elem_of_nil in Hin.
Defined.

Lemma publishPathContent_clean_slate_witness :
  let fileMap := [("index.js", JStr "x")] in
  let fs := FDir [("w", FDir [("out", FDir [("old", FFile "o")]); ("keep", FFile "k")])] in
  exists fs',
    publishPathContent fileMap ["w"; "out"] fs = Normal (fs', 1%nat) /\
    Fs.read_file ["w"; "out"; "old"] fs' = None /\
    Fs.read_file ["w"; "keep"] fs' = Some "k".
Proof.
  intros fileMap fs.
  destruct (publishPathContent fileMap ["w"; "out"] fs) as [[fs' n]|w] eqn:E;
    [|vm_compute in E; discriminate].
  destruct (PublishFacts.publishPathContent_clean_slate _ _ _ _ _ E) as (_ & Hbelow & Hout).
  exists fs'. split; [by vm_compute in E; injection E as <- <-|]. split.
  - destruct (Fs.read_file ["w"; "out"; "old"] fs') as [c|] eqn:Eold; [|done].
    destruct (Hbelow ["old"] c Eold) as (k & Hin & Hj).
    apply elem_of_cons in Hin as [[= -> ->]|Hin]; [vm_compute in Hj; discriminate|].
    by apply elem_of_nil in Hin.
  - rewrite Hout; [done| |].
    + intros k v Hin. apply elem_of_cons in Hin as [[= -> ->]|Hin];
        [vm_compute; set_solver|by apply elem_of_nil in Hin].
    + intros [q Hq]. discriminate.
Defined.

Lemma publishPathContent_completes_only_if_witness :
  exists fs' n,
    publishPathContent [("a", JStr "x"); ("b/c", JStr "y")] ["out"] (FDir [])
    = Normal (fs', n) /\
    ~ Fs.join ["out"] "a" `prefix_of` ["out"].
Proof.
  destruct (publishPathContent [("a", JStr "x"); ("b/c", JStr "y")] ["out"] (FDir []))
    as [[fs' n]|w] eqn:E; [|vm_compute in E; discriminate].
  exists fs', n. split; [done|].
  by destruct (PublishFacts.publishPathContent_completes_only_if _ _ _ _ _ E
                 "a" (JStr "x") ltac:(set_solver)) as (_ & _ & H & _).
Defined.

(** ** The main block and [publishPathContent] together *)

Section RunFacts.

Variable JSON_parse : string -> option json.


(** X20: when the main block and [publishPathContent] complete, the
    manifest is a file of the target directory and has no dangling link
    there: every value it holds under a platform, a section and a label,
    joined to the target directory, is the path of a file. *)
Theorem published_manifest_links (registry : option fsnode) (site : fsnode)
    (finalfiles : obj) (destDir : list string) (fs fs' : fsnode) (n : nat) :
  main JSON_parse registry site = Normal finalfiles ->
  publishPathContent finalfiles destDir fs = Normal (fs', n) ->
  is_Some (Fs.read_file (Fs.join destDir "index.json") fs') /\
  exists indexmap,
    Obj.get "index.json" finalfiles = Some (JStr (Json.stringify (JObj indexmap))) /\
    forall platform section label v,
      opath [platform; section; label] (JObj indexmap) = Some v ->
      exists filename,
        v = JStr filename /\ is_Some (Fs.read_file (Fs.join destDir filename) fs').
Proof.
  intros (ritems & sitems & indexmap & files & -> & -> & Hbuild & ->)%main_inv Hpub.
  apply PublishFacts.publish_inv in Hpub as (fs1 & Hfold & _).
  destruct (PublishFacts.publish_fold _ _ _ _ _ _ Hfold) as (_ & _ & Hkeys & _).
  assert (Hfile : forall name, has_text name (Obj.set "index.json"
                     (JStr (Json.stringify (JObj indexmap))) files) ->
                   is_Some (Fs.read_file (Fs.join destDir name) fs')).
  { intros name [content Hname]. apply get_In in Hname.
    destruct (Hkeys _ _ Hname) as (_ & _ & k' & t & _ & _ & ->). done. }
  split; [apply Hfile, has_text_set_eq|].
  exists indexmap. split; [apply get_set_eq|].
  intros platform section label v Hpath.
  destruct (build_links _ _ _ _ Hbuild _ _ _ _ Hpath) as (filename & -> & Htext).
  exists filename. split; [done|]. by apply Hfile, has_text_set.
Qed.

End RunFacts.


Lemma published_manifest_links_witness :
  exists finalfiles fs' n,
    main sample_parse (Some registry_by_vendor) (FDir [("index.js", FFile "x")])
    = Normal finalfiles /\
    publishPathContent finalfiles ["out"] (FDir [("out", FDir [("stale", FFile "s")])])
    = Normal (fs', n) /\
    is_Some (Fs.read_file (Fs.join ["out"] "index.json") fs').
Proof.
  destruct (main sample_parse (Some registry_by_vendor) (FDir [("index.js", FFile "x")]))
    as [f|w] eqn:E; [|vm_compute in E; discriminate].
  destruct (publishPathContent f ["out"] (FDir [("out", FDir [("stale", FFile "s")])]))
    as [[fs' n]|w] eqn:Ep.
  - exists f, fs', n. split; [done|]. split; [done|].
    by destruct (published_manifest_links sample_parse _ _ _ _ _ _ _ E Ep).
  - vm_compute in E. injection E as <-. vm_compute in Ep. discriminate.
Defined.

(** ** When the main block completes *)

Lemma rename_fold_what es : forall st what,
  fold_left rename_group es st = Throws what ->
  st = Throws what \/ what = "TypeError".
Proof.
  induction es as [|[g v] es IH]; intros st what H; [by left|].
  cbn [fold_left] in H. apply IH in H as [H|H]; [|by right].
  destruct st as [o2|w]; [|by left]. right.
  unfold rename_group in H. cbn [bind] in H.
  destruct (Obj.get g filemaps) as [[| | |name| |]|]; try done.
  destruct o2; [done|]. by injection H.
Qed.

Lemma snapshot_step_outcome platform years b year index groups :
  Obj.get year years = Some groups ->
  match rename_groups (own_entries groups) with
  | Normal _ => exists b', snapshot_step platform years b year index = Normal b'
  | Throws _ => snapshot_step platform years b year index = Throws "TypeError"
  end.
Proof.
  intros Hy. unfold snapshot_step. rewrite Hy.
  destruct (rename_groups (own_entries groups)) as [r|w] eqn:E; cbn [bind]; [eauto|].
  apply rename_fold_what in E as [E|E]; [done|by rewrite E].
Qed.

Lemma snapshot_loop_outcome platform years todo : forall index b,
  (forall year, year ∈ todo -> is_Some (Obj.get year years)) ->
  (if forallb (fun year =>
                 match Obj.get year years with
                 | Some groups =>
                     match rename_groups (own_entries groups) with
                     | Normal _ => true
                     | Throws _ => false
                     end
                 | None => false
                 end) todo
   then exists b', snapshot_loop platform years todo index b = Normal b'
   else snapshot_loop platform years todo index b = Throws "TypeError").
Proof.
  induction todo as [|year rest IH]; intros index b Hall; [cbn; eauto|].
  cbn [forallb snapshot_loop].
  destruct (Hall year ltac:(left)) as [groups Hy]. rewrite Hy.
  pose proof (snapshot_step_outcome platform years b year index groups Hy) as Hstep.
  destruct (rename_groups (own_entries groups)) as [r|w].
  - destruct Hstep as [b1 ->]. cbn [bind andb]. apply IH.
    intros y Hin. apply Hall. by right.
  - by rewrite Hstep.
Qed.

(** The years of a platform whose renaming [reduce] returns. *)
Lemma years_complete_spec (years : obj) :
  NoDup (Obj.keys years) ->
  forallb (fun year =>
             match Obj.get year years with
             | Some groups =>
                 match rename_groups (own_entries groups) with
                 | Normal _ => true
                 | Throws _ => false
                 end
             | None => false
             end) (rev (Obj.keys years)) = true <->
  forall year groups, (year, groups) ∈ years ->
    exists renamed, rename_groups (own_entries groups) = Normal renamed.
Proof.
  intros Hnd. rewrite forallb_forall. split.
  - intros H year groups Hin.
    specialize (H year). rewrite (In_get _ _ _ Hnd Hin) in H.
    destruct (rename_groups (own_entries groups)) as [r|w]; [eauto|].
    discriminate H. apply in_rev. rewrite rev_involutive. apply list_elem_of_In.
    apply list_elem_of_fmap. by exists (year, groups).
  - intros H year Hin. apply in_rev, list_elem_of_In in Hin.
    apply keys_get_Some in Hin as [groups Hy]. rewrite Hy.
    by destruct (H year groups (get_In _ _ _ Hy)) as [r ->].
Qed.

Lemma platform_fold_outcome es : forall indexmap files,
  (forall platform years, (platform, years) ∈ es ->
     NoDup (Obj.keys (own_entries years))) ->
  (forall platform years year groups,
      (platform, years) ∈ es -> (year, groups) ∈ own_entries years ->
      exists renamed, rename_groups (own_entries groups) = Normal renamed) /\
  (exists indexmap' files',
      fold_left platform_step es (Normal (indexmap, files)) = Normal (indexmap', files'))
  \/
  ~ (forall platform years year groups,
      (platform, years) ∈ es -> (year, groups) ∈ own_entries years ->
      exists renamed, rename_groups (own_entries groups) = Normal renamed) /\
  fold_left platform_step es (Normal (indexmap, files)) = Throws "TypeError".
Proof.
  induction es as [|[p years] es IH]; intros indexmap files Hnd.
  - left. split; [|cbn; eauto]. intros ? ? ? ? Hin. by apply elem_of_nil in Hin.
  - cbn [fold_left platform_step bind].
    assert (Hnd0 : NoDup (Obj.keys (own_entries years))) by (apply (Hnd p); left).
    pose proof (snapshot_loop_outcome p (own_entries years)
                  (rev (Obj.keys (own_entries years))) 0
                  (Build [] (Obj.set p (JObj [("from", JObj []); ("last", JObj [])]) indexmap)
                     files)) as Hloop.
    pose proof (years_complete_spec (own_entries years) Hnd0) as Hspec.
    destruct (forallb _ (rev (Obj.keys (own_entries years)))) eqn:Eall.
    + destruct Hloop as [b' Hb'].
      { intros y Hy. apply elem_of_rev_list, keys_get_Some in Hy as [g Hg]. by rewrite Hg. }
      rewrite Hb'. cbn [bind].
      destruct (IH (the_indexmap b') (the_finalfiles b')) as [[Hok Hrun]|[Hbad Hrun]].
      { intros q ys Hin. apply (Hnd q). by right. }
      * left. split; [|done]. intros q ys y g [[= -> ->]|Hin]%elem_of_cons Hy.
        -- by apply (proj1 Hspec eq_refl y g).
        -- by eapply Hok.
      * right. split; [|done]. intros Hall. apply Hbad.
        intros q ys y g Hin. apply (Hall q ys y g). by right.
    + right. split.
      * intros Hall. assert (false = true); [|done]. apply Hspec.
        intros y g Hy. apply (Hall p years y g); [left|done].
      * rewrite Hloop; [cbn [bind]; apply platform_fold_Throws|].
        intros y Hy. apply elem_of_rev_list, keys_get_Some in Hy as [g Hg]. by rewrite Hg.
Qed.

Section CompletionFacts.

Variable JSON_parse : string -> option json.

(** X21: for a registry and a site directory that are read in full (an
    [fsnode] each) and whose loaded trees have plain property names, the
    main block, before it publishes, completes exactly when the renaming
    [reduce] returns for every year of every platform of the pivoted tree,
    and ends in the [TypeError] of that [reduce] otherwise. *)
Theorem main_fails_only_by_rename (ritems sitems : list (string * fsnode)) :
  let tree := createJsonObjectTree JSON_parse (FDir ritems) in
  let site := createFileTree JSON_parse (FDir sitems) in
  let pivoted := switched tree in
  let returns :=
    forall platform years year groups,
      (platform, years) ∈ pivoted -> (year, groups) ∈ own_entries years ->
      exists renamed, rename_groups (own_entries groups) = Normal renamed in
  wf (JObj tree) = true -> plain (JObj tree) = true -> plain (JObj site) = true ->
  (returns /\
   exists finalfiles,
     main JSON_parse (Some (FDir ritems)) (FDir sitems) = Normal finalfiles) \/
  (~ returns /\
   main JSON_parse (Some (FDir ritems)) (FDir sitems) = Throws "TypeError").
Proof.
  intros tree site pivoted returns _ _ _. unfold main, build_all.
  fold tree.
  destruct (platform_fold_outcome pivoted [] (createFileTree JSON_parse (FDir sitems)))
    as [[Hok (im & ff & Hrun)]|[Hbad Hrun]].
  - intros p years Hin.
    apply (switched_In tree) in Hin as (v0 & _ & ->);
      [|apply createJsonObjectTree_NoDup].
    apply pivot1_keys.
  - left. split; [done|]. fold pivoted. rewrite Hrun. cbn [bind]. eauto.
  - right. split; [done|]. fold pivoted. by rewrite Hrun.
Qed.

End CompletionFacts.

Lemma main_fails_only_by_rename_witness :
  exists finalfiles,
    main sample_parse (Some registry_by_vendor) (FDir [("index.js", FFile "x")])
    = Normal finalfiles.
Proof.
  destruct (main_fails_only_by_rename sample_parse
              [("browser", registry_by_year)] [("index.js", FFile "x")]
              eq_refl eq_refl eq_refl) as [[_ H]|[_ H]]; [exact H|].
  vm_compute in H. discriminate.
Defined.
